(** * jackpatch: the MIDI send and receive queues of a JACK client

    A shallow embedding of [jackpatch.c]: the two message queues a [Client]
    keeps (the time-ordered send queue and the FIFO receive queue), the
    per-block functions the JACK process callback runs on them, and the
    [Port] methods that feed and empty them from Python.

    Representation choices.
    - A [Message *] chain ([_midi_send_queue_head], [next], ...) is the list
      of its nodes in link order; [_midi_receive_queue_tail] is the last
      node of the receive list.
    - [jack_nframes_t] is an unsigned 32-bit integer: a [Z] in [0, 2^32),
      with the wrap-around of its arithmetic written out ([wrap32]).
    - A C [double] is the rational number ([Q]) it stands for, and an
      operation on doubles is the exact operation followed by the rounding
      of IEEE 754 binary64, to the nearest double, ties to even
      ([round_double]); NaN and the infinities are left out.
    - The JACK server is a collaborator: what it answers is an input of the
      function that asks ([Jack], [Block], the [port_buffer] arguments). *)

From Stdlib Require Import ZArith QArith Qround Qpower Qabs List Bool Lia Lqa.
From Stdlib Require Import Permutation Sorted String.
Import ListNotations.
Close Scope Q_scope.
Open Scope Z_scope.

(** ** Constants and machine types *)

(** [#define MAX_PORTS_PER_CLIENT 256] *)
Definition MAX_PORTS_PER_CLIENT : Z := 256.

(** [JackPortIsInput] and [JackPortIsOutput] of [<jack/types.h>]. *)
Definition JackPortIsInput : Z := 1.
Definition JackPortIsOutput : Z := 2.

(** A [jack_port_t *]: the address of the server's port, [0] for [NULL]. *)
Definition jack_port_t := Z.
Definition NULL : Z := 0.

(** [jack_nframes_t] is [uint32_t]. *)
Definition NFRAMES_MODULUS : Z := 2 ^ 32.
Definition wrap32 (z : Z) : Z := z mod NFRAMES_MODULUS.
Definition is_nframes (z : Z) : Prop := 0 <= z < NFRAMES_MODULUS.

(** The range of a C [long] on the LP64 platforms the extension builds for. *)
Definition LONG_MIN : Z := - 2 ^ 63.
Definition LONG_MAX : Z := 2 ^ 63 - 1.

(** ** Doubles and their conversion to frames *)

(** The integral part of [x], rounded toward zero, as a C conversion from
    [double] to an integer type takes it. *)
Definition Qtruncate (x : Q) : Z := Z.quot (Qnum x) (Z.pos (Qden x)).

(** [(jack_nframes_t)x] for a double [x]: the truncated value when
    [jack_nframes_t] can hold it; C leaves every other conversion undefined
    (C99 6.3.1.4), which is [None]. *)
Definition double_to_nframes (x : Q) : option Z :=
  let z := Qtruncate x in
  if (0 <=? z) && (z <? NFRAMES_MODULUS) then Some z else None.

(** [2 ^ e], for the exponents of doubles. *)
Definition pow2 (e : Z) : Q := (2 ^ e)%Q.

(** The exponent of the greatest power of two that is at most [x], for
    [x > 0]: the difference of the bit lengths of the numerator and the
    denominator, or one less. *)
Definition ilog2 (x : Q) : Z :=
  let k := Z.log2 (Qnum x) - Z.log2 (Z.pos (Qden x)) in
  if Qle_bool (pow2 k) x then k else k - 1.

(** The integer nearest to [y], the even one of the two when [y] is half
    way. *)
Definition round_half_even (y : Q) : Z :=
  let k := Qfloor y in
  match (y - inject_Z k ?= 1 # 2)%Q with
  | Lt => k
  | Gt => k + 1
  | Eq => if Z.even k then k else k + 1
  end.

(** binary64: 52 bits of fraction after the leading bit, and no normal
    exponent below [-1022]. *)
Definition DBL_MANT_BITS : Z := 52.
Definition DBL_MIN_EXP : Z := -1022.

(** The exponent of the spacing of the doubles around [x]. *)
Definition ulp_exponent (x : Q) : Z :=
  Z.max (ilog2 (Qabs x)) DBL_MIN_EXP - DBL_MANT_BITS.

(** The double nearest to [x], ties to even: what an operation on doubles
    gives for the exact result [x]. The exponent is not bounded above: a
    result past the largest double, which is an infinity in C, stays a
    number past [2 ^ 1023] here; the conversions below have no defined
    result for either. *)
Definition round_double (x : Q) : Q :=
  if Qeq_bool x 0 then 0%Q
  else (inject_Z (round_half_even (x / pow2 (ulp_exponent x)))
        * pow2 (ulp_exponent x))%Q.

(** [(double)nframes / (double)sample_rate]: both conversions are exact,
    the division rounds. *)
Definition nframes_to_seconds (nframes sample_rate : Z) : Q :=
  round_double (inject_Z nframes / inject_Z sample_rate).

(** [(jack_nframes_t)(time * (double)sample_rate)], the expression of
    [Port_send]: the product rounds, then the conversion truncates. *)
Definition seconds_to_nframes (time : Q) (sample_rate : Z) : option Z :=
  double_to_nframes (round_double (time * inject_Z sample_rate)).

(** ** Storage types *)

(** [typedef struct { void *next; jack_port_t *port; jack_nframes_t time;
    size_t data_size; unsigned char data[]; } Message;]
    [next] is the list structure and [data_size] the length of [data]. *)
Record Message : Type := mkMessage {
  port : jack_port_t;
  time : Z;
  data : list Z
}.

Definition set_time (m : Message) (t : Z) : Message :=
  mkMessage (port m) t (data m).

Definition data_size (m : Message) : nat := List.length (data m).

(** The private part of the [Client] struct, with [is_active]. *)
Record Client : Type := mkClient {
  is_active : bool;
  _client : Z;
  _send_port_count : Z;
  _send_ports : list jack_port_t;
  _midi_send_queue : list Message;
  _receive_port_count : Z;
  _receive_ports : list jack_port_t;
  _midi_receive_queue : list Message
}.

Definition set_send_queue (c : Client) (q : list Message) : Client :=
  mkClient (is_active c) (_client c) (_send_port_count c) (_send_ports c) q
           (_receive_port_count c) (_receive_ports c) (_midi_receive_queue c).

Definition set_receive_queue (c : Client) (q : list Message) : Client :=
  mkClient (is_active c) (_client c) (_send_port_count c) (_send_ports c)
           (_midi_send_queue c)
           (_receive_port_count c) (_receive_ports c) q.

Definition set_active (c : Client) (a : bool) : Client :=
  mkClient a (_client c) (_send_port_count c) (_send_ports c)
           (_midi_send_queue c)
           (_receive_port_count c) (_receive_ports c) (_midi_receive_queue c).

Definition set_handle (c : Client) (h : Z) : Client :=
  mkClient (is_active c) h (_send_port_count c) (_send_ports c)
           (_midi_send_queue c)
           (_receive_port_count c) (_receive_ports c) (_midi_receive_queue c).

(** The private part of the [Port] struct. *)
Record Port : Type := mkPort {
  _port : jack_port_t;
  _is_mine : bool
}.

(** [Client_new]: both queues empty, both port arrays of
    [MAX_PORTS_PER_CLIENT] cells and no port counted. *)
Definition Client_new : Client :=
  mkClient false NULL
           0 (repeat NULL (Z.to_nat MAX_PORTS_PER_CLIENT)) []
           0 (repeat NULL (Z.to_nat MAX_PORTS_PER_CLIENT)) [].

(** ** MIDI buffers *)

(** One event of a MIDI port buffer: its frame offset in the block and its
    bytes. *)
Definition midi_event : Type := (Z * list Z)%type.
Definition port_buffer : Type := list midi_event.

(** ** Python values and results *)

(** An item of the sequence given to [Port.send]: an [int], or any other
    object. *)
Inductive PyItem : Type :=
| PyLong (z : Z)
| PyNotLong.

(** The [data] argument of [Port.send]: a sequence of items, or an object
    [PySequence_Check] refuses. *)
Inductive PyObject : Type :=
| PySequence (items : list PyItem)
| PyNotSequence.

(** The exceptions of the methods; [SystemError] is what the interpreter
    raises for the caller of a method that returns a value while an
    exception is set. *)
Inductive PyExc : Type := JackError | TypeError | OverflowError | SystemError.

(** The error indicator of the interpreter: the exception that is set, if
    any, with its message. *)
Definition PyErr : Type := option (PyExc * string).

(** What a method hands back to the interpreter: a value, an exception
    (the [NULL] return with the error indicator set), or no defined
    behaviour at all. *)
Inductive PyResult (A : Type) : Type :=
| Returned (a : A)
| Raised (exc : PyExc) (message : string)
| Undefined.
Arguments Returned {A} a.
Arguments Raised {A} exc message%_string.
Arguments Undefined {A}.

Definition is_raised {A : Type} (r : PyResult A) : bool :=
  match r with Raised _ _ => true | _ => false end.

(** [PySequence_Check]. *)
Definition PySequence_Check (o : PyObject) : bool :=
  match o with PySequence _ => true | PyNotSequence => false end.

(** [PyLong_AsLong]: the value of an integer that fits a [long]; [-1] with
    an exception set otherwise. *)
Definition PyLong_AsLong (o : PyItem) : PyResult Z :=
  match o with
  | PyLong z =>
      if (LONG_MIN <=? z) && (z <=? LONG_MAX) then Returned z
      else Raised OverflowError "Python int too large to convert to C long"
  | PyNotLong => Raised TypeError "an integer is required"
  end.

(** ** The server *)

(** What the JACK server answers to the calls of the client thread, and
    what an opening leaves in the error indicator. *)
Record Jack : Type := mkJack {
  (** the handle [jack_client_open] returns, [NULL] when it fails *)
  jack_client_open : Z;
  (** the result of [jack_activate] *)
  jack_activate : Z;
  jack_get_sample_rate : Z;
  jack_port_flags : jack_port_t -> Z;
  (** whether [jack_midi_event_reserve] finds room in the buffer for an
      event of the given offset and size *)
  jack_midi_event_reserve : port_buffer -> Z -> nat -> bool;
  (** the exception a [Client_open] that opens leaves set: the [TypeError]
      of [PyUnicode_AsUTF8] on a name that is not a [str], or the
      [JackError] of [_error] for a status that reports a failure; [None]
      when the name is a [str] and the status reports none *)
  jack_client_open_error : PyErr
}.

(** ** The send queue *)

(** The scan of [Port_send] over a queue that is not empty: [message] goes
    before the first queued message whose time is greater than its own, or
    after the last one when there is none. *)
Fixpoint send_queue_scan (message : Message) (current : list Message)
  : list Message :=
  match current with
  | [] => [message]
  | c :: next =>
      if time message <? time c then message :: c :: next
      else c :: send_queue_scan message next
  end.

(** The locked part of [Port_send]. *)
Definition send_queue_insert (message : Message) (queue : list Message)
  : list Message :=
  match queue with
  | [] => [message]
  | _ :: _ => send_queue_scan message queue
  end.

(** The [while] loop of [Client_send_messages_for_port] from the node
    [message] on: the buffer written so far, [port_send_count] and
    [last_time] are its variables; the result is the buffer and what stays
    linked of the queue. *)
Fixpoint send_loop (jack : Jack) (self_port : jack_port_t) (nframes : Z)
    (message : list Message) (buffer : port_buffer)
    (port_send_count last_time : Z) : port_buffer * list Message :=
  match message with
  | [] => (buffer, [])
  | m :: next =>
      if port m =? self_port then
        let t :=
          if (0 <? port_send_count) && (time m <=? last_time)
          then wrap32 (last_time + 1) else time m in
        if t <? nframes then
          let buffer' :=
            if jack_midi_event_reserve jack buffer t (data_size m)
            then buffer ++ [(t, data m)] else buffer in
          send_loop jack self_port nframes next buffer'
                    (port_send_count + 1) t
        else
          let (b, q) := send_loop jack self_port nframes next buffer
                                  port_send_count last_time in
          (b, set_time m (wrap32 (t - nframes)) :: q)
      else
        let (b, q) := send_loop jack self_port nframes next buffer
                                port_send_count last_time in
        (b, m :: q)
  end.

(** [Client_send_messages_for_port]. [buffer] is what
    [jack_port_get_buffer] gave: [None] for [NULL], the buffer otherwise,
    which is cleared first. The result is the client and the buffer as the
    server gets it back. *)
Definition Client_send_messages_for_port (jack : Jack) (self : Client)
    (self_port : jack_port_t) (nframes : Z) (buffer : option port_buffer)
  : Client * option port_buffer :=
  match buffer with
  | None => (self, None)
  | Some _ =>
      match _midi_send_queue self with
      | [] => (self, Some [])
      | queue =>
          let (b, q) := send_loop jack self_port nframes queue [] 0 0 in
          (set_send_queue self q, Some b)
      end
  end.

(** ** The receive queue *)

(** What [jack_midi_event_get] and the [malloc] after it give for one index
    of an input buffer. *)
Inductive fetch : Type :=
| Fetched (event : midi_event) (malloc_ok : bool)
| FetchFailed.

(** The [for] loop of [Client_receive_messages_for_port]: each event that
    was fetched and allocated is linked after the tail. *)
Fixpoint receive_loop (self_port : jack_port_t) (start_frame : Z)
    (events : list fetch) (queue : list Message) : list Message :=
  match events with
  | [] => queue
  | FetchFailed :: rest => receive_loop self_port start_frame rest queue
  | Fetched _ false :: rest => receive_loop self_port start_frame rest queue
  | Fetched (t, bytes) true :: rest =>
      receive_loop self_port start_frame rest
        (queue ++ [mkMessage self_port (wrap32 (start_frame + t)) bytes])
  end.

(** [Client_receive_messages_for_port]. [buffer] is what
    [jack_port_get_buffer] gave and [start_frame] the frame of
    [jack_transport_query]. *)
Definition Client_receive_messages_for_port (self : Client)
    (self_port : jack_port_t) (buffer : option (list fetch))
    (start_frame : Z) : Client :=
  match buffer with
  | None => self
  | Some [] => self
  | Some events =>
      set_receive_queue self
        (receive_loop self_port start_frame events (_midi_receive_queue self))
  end.

(** The [while] loop of [Port_receive]: the first message of the port, and
    the queue without it. *)
Fixpoint receive_scan (self_port : jack_port_t) (message : list Message)
  : option (Message * list Message) :=
  match message with
  | [] => None
  | m :: next =>
      if port m =? self_port then Some (m, next)
      else
        match receive_scan self_port next with
        | Some (found, rest) => Some (found, m :: rest)
        | None => None
        end
  end.

(** ** The process callback *)

(** What the server gives during one call of the process callback. *)
Record Block : Type := mkBlock {
  block_nframes : Z;
  (** [jack_port_get_buffer] on an output port *)
  write_buffer : jack_port_t -> option port_buffer;
  (** [jack_port_get_buffer] on an input port, with its events *)
  read_buffer : jack_port_t -> option (list fetch);
  (** [pos.frame] of [jack_transport_query] *)
  transport_frame : Z
}.

(** The first [count] cells of a port array. *)
Definition managed_ports (count : Z) (ports : list jack_port_t)
  : list jack_port_t :=
  map (fun i => nth i ports NULL) (seq 0 (Z.to_nat count)).

(** The first loop of [Client_process], with the buffers handed back. *)
Fixpoint process_send (jack : Jack) (blk : Block) (ports : list jack_port_t)
    (self : Client) : Client * list (jack_port_t * option port_buffer) :=
  match ports with
  | [] => (self, [])
  | p :: rest =>
      let (self', b) :=
        Client_send_messages_for_port jack self p (block_nframes blk)
                                      (write_buffer blk p) in
      let (self'', bs) := process_send jack blk rest self' in
      (self'', (p, b) :: bs)
  end.

(** The second loop of [Client_process]. *)
Fixpoint process_receive (blk : Block) (ports : list jack_port_t)
    (self : Client) : Client :=
  match ports with
  | [] => self
  | p :: rest =>
      process_receive blk rest
        (Client_receive_messages_for_port self p (read_buffer blk p)
                                          (transport_frame blk))
  end.

(** [Client_process] on a client that is not [NULL]: its status, the
    client, and the output buffers. *)
Definition Client_process (jack : Jack) (blk : Block) (self : Client)
  : Z * Client * list (jack_port_t * option port_buffer) :=
  let (self1, out) :=
    process_send jack blk
      (managed_ports (_send_port_count self) (_send_ports self)) self in
  let self2 :=
    process_receive blk
      (managed_ports (_receive_port_count self1) (_receive_ports self1))
      self1 in
  (0, self2, out).

(** ** Client methods used by the ports *)

(** [Client_open], as far as the handle goes: a client without a handle
    takes the one [jack_client_open] returns. *)
Definition Client_open (jack : Jack) (self : Client) : Client :=
  if _client self =? NULL then set_handle self (jack_client_open jack)
  else self.

(** [Client_activate]; [Port_send] and [Port_receive] drop its result. *)
Definition Client_activate (jack : Jack) (self : Client) : Client :=
  let self := Client_open jack self in
  if _client self =? NULL then self
  else if is_active self then self
  else if jack_activate jack =? 0 then set_active self true
  else self.

(** The exception a call of [Client_open] leaves set, if any. *)
Definition Client_open_error (jack : Jack) (self : Client) : PyErr :=
  if _client self =? NULL then jack_client_open_error jack else None.

(** The exception a call of [Client_activate] leaves set, if any: what
    [Client_open] left, replaced by the [JackError] of a [jack_activate]
    that fails (the message of the code ends with the error number).
    [_warn] is taken not to raise. *)
Definition Client_activate_error (jack : Jack) (self : Client) : PyErr :=
  let pending := Client_open_error jack self in
  let self := Client_open jack self in
  if _client self =? NULL then pending
  else if is_active self then pending
  else if jack_activate jack =? 0 then pending
  else Some (JackError, "Failed to activate the JACK client"%string).

(** ** Port methods *)

(** The loop of [Port_send] that fills [message->data]: each item through
    [PyLong_AsLong], then [(unsigned char)(value & 0xFF)]. The loop ends
    at the first item for which [(value == -1) && PyErr_Occurred()]
    holds: an item [PyLong_AsLong] refuses, or an item of value [-1] while
    an exception is set already ([pending]), which is then the exception
    of the call. *)
Fixpoint send_bytes (pending : PyErr) (items : list PyItem)
  : PyResult (list Z) :=
  match items with
  | [] => Returned []
  | item :: rest =>
      match PyLong_AsLong item with
      | Returned value =>
          match (if value =? -1 then pending else None) with
          | Some (e, s) => Raised e s
          | None =>
              match send_bytes pending rest with
              | Returned bytes => Returned (Z.land value 255 :: bytes)
              | Raised e s => Raised e s
              | Undefined => Undefined
              end
          end
      | Raised e s => Raised e s
      | Undefined => Undefined
      end
  end.

(** [Port_send] with its arguments parsed: [payload] is [data] and
    [seconds] is [time]; [malloc_ok] says whether [malloc] gave the
    message. The result goes with the client as the call leaves it.
    The result of [Client_activate] is dropped: the exception it may have
    set stays set ([pending]), and a call that gets to [Py_RETURN_NONE]
    with it has linked its message and is a [SystemError] for the
    caller. *)
Definition Port_send (jack : Jack) (malloc_ok : bool) (self : Port)
    (client : Client) (payload : PyObject) (seconds : Q)
  : PyResult unit * Client :=
  match payload with
  | PyNotSequence =>
      (Raised TypeError "Port.send expects argument 1 to be a sequence",
       client)
  | PySequence items =>
      if negb (_is_mine self) then
        (Raised JackError
           "Only ports created by jackpatch can send MIDI messages", client)
      else if Z.land (jack_port_flags jack (_port self)) JackPortIsOutput =? 0
      then (Raised JackError "Only output ports can send MIDI messages",
            client)
      else
        let pending := Client_activate_error jack client in
        let client := Client_activate jack client in
        if _client client =? NULL then (Undefined, client)
        else
          let sample_rate := jack_get_sample_rate jack in
          if negb malloc_ok then
            (Raised JackError "Failed to allocate memory for MIDI data",
             client)
          else
            match seconds_to_nframes seconds sample_rate with
            | None => (Undefined, client)
            | Some t =>
                match send_bytes pending items with
                | Raised e s => (Raised e s, client)
                | Undefined => (Undefined, client)
                | Returned bytes =>
                    let message := mkMessage (_port self) t bytes in
                    let client :=
                      set_send_queue client
                        (send_queue_insert message
                                           (_midi_send_queue client)) in
                    match pending with
                    | None => (Returned tt, client)
                    | Some _ =>
                        (Raised SystemError
                           "returned a result with an exception set", client)
                    end
                end
            end
  end.

(** [Port_receive]: what the method returns, [None] for Python's [None],
    or the bytes and the time in seconds of the message taken out of the
    queue. The result of [Client_activate] is dropped here too; the
    exception it may have set is not followed in this result. *)
Definition Port_receive (jack : Jack) (self : Port) (client : Client)
  : PyResult (option (list Z * Q)) * Client :=
  if negb (_is_mine self) then
    (Raised JackError
       "Only ports created by jackpatch can receive MIDI messages", client)
  else if Z.land (jack_port_flags jack (_port self)) JackPortIsInput =? 0
  then (Raised JackError "Only input ports can receive MIDI messages",
        client)
  else
    let client := Client_activate jack client in
    match _midi_receive_queue client with
    | [] => (Returned None, client)
    | queue =>
        if _client client =? NULL then (Undefined, client)
        else
          let sample_rate := jack_get_sample_rate jack in
          match receive_scan (_port self) queue with
          | Some (message, rest) =>
              (Returned
                 (Some (data message,
                        nframes_to_seconds (time message) sample_rate)),
               set_receive_queue client rest)
          | None => (Returned None, client)
          end
    end.

(** What [Port_init] leaves behind: its return value, the warnings it
    issued, the client and the port. *)
Record PortInit : Type := mkPortInit {
  init_result : Z;
  init_raised : option string;
  init_warnings : list string;
  init_client : Client;
  init_port : Port
}.

(** [ports[count] = p] on an array of [MAX_PORTS_PER_CLIENT] cells. *)
Fixpoint array_set (ports : list jack_port_t) (i : nat) (p : jack_port_t)
  : list jack_port_t :=
  match ports, i with
  | [], _ => []
  | _ :: rest, O => p :: rest
  | q :: rest, S j => q :: array_set rest j p
  end.

Definition too_many_ports : string :=
  "Failed to manage the port because client has too many ports. MIDI will be disabled for that port.".

(** The part of [Port_init] that stores a port it has just registered with
    the client. *)
Definition manage_port (client : Client) (p : jack_port_t) (flags : Z)
  : Client * list string :=
  if negb (Z.land flags JackPortIsInput =? 0) then
    if MAX_PORTS_PER_CLIENT <=? _receive_port_count client then
      (client, [too_many_ports])
    else
      (mkClient (is_active client) (_client client)
         (_send_port_count client) (_send_ports client)
         (_midi_send_queue client)
         (_receive_port_count client + 1)
         (array_set (_receive_ports client)
                    (Z.to_nat (_receive_port_count client)) p)
         (_midi_receive_queue client), [])
  else if negb (Z.land flags JackPortIsOutput =? 0) then
    if MAX_PORTS_PER_CLIENT <=? _send_port_count client then
      (client, [too_many_ports])
    else
      (mkClient (is_active client) (_client client)
         (_send_port_count client + 1)
         (array_set (_send_ports client)
                    (Z.to_nat (_send_port_count client)) p)
         (_midi_send_queue client)
         (_receive_port_count client) (_receive_ports client)
         (_midi_receive_queue client), [])
  else (client, []).

(** [Port_init] with its arguments parsed. [by_name] is what
    [jack_port_by_name] finds for the requested name and [registered] what
    [jack_port_register] would return for it. *)
Definition Port_init (jack : Jack) (by_name registered : jack_port_t)
    (client : Client) (flags : Z) : PortInit :=
  let client := Client_open jack client in
  if _client client =? NULL then
    mkPortInit (-1) None [] client (mkPort NULL false)
  else if negb (by_name =? NULL) then
    mkPortInit 0 None [] client (mkPort by_name false)
  else
    let (client', warnings) := manage_port client registered flags in
    if registered =? NULL then
      mkPortInit (-1) (Some "Failed to create a JACK port"%string) warnings
                 client' (mkPort NULL true)
    else mkPortInit 0 None warnings client' (mkPort registered true).

(** ** The transport *)

Definition Qlt_bool (x y : Q) : bool := negb (Qle_bool y x).

(** The guard of [Transport_set_time]: [if (time < 0.0) time = 0.0;]. *)
Definition clamp_time (seconds : Q) : Q :=
  if Qlt_bool seconds 0 then 0%Q else seconds.

(** [Transport_set_time] with a float for [value]: the frame it asks
    [jack_transport_locate] for. *)
Definition Transport_set_time (jack : Jack) (client : Client) (value : Q)
  : PyResult Z * Client :=
  let seconds := clamp_time value in
  let client := Client_open jack client in
  if _client client =? NULL then
    (Raised JackError "Failed to connect to the JACK server", client)
  else
    let sample_rate := jack_get_sample_rate jack in
    match double_to_nframes
            (round_double (inject_Z sample_rate * seconds)) with
    | Some nframes => (Returned nframes, client)
    | None => (Undefined, client)
    end.

(** ** Specification vocabulary *)

(** The messages of one port, in queue order, and the others. *)
Definition on_port (p : jack_port_t) (q : list Message) : list Message :=
  filter (fun m => port m =? p) q.

Definition off_port (p : jack_port_t) (q : list Message) : list Message :=
  filter (fun m => negb (port m =? p)) q.

(** A run of enqueues: the locked part of [Port_send], once per message. *)
Definition enqueue_all (ms : list Message) (q : list Message)
  : list Message :=
  fold_left (fun queue m => send_queue_insert m queue) ms q.

(** The event a message becomes in a port buffer. *)
Definition event_of (m : Message) : midi_event := (time m, data m).

(** The messages of a block of [nframes] frames, as events, and the later
    ones, rebased to the next block. *)
Definition emitted_now (nframes : Z) (l : list Message) : port_buffer :=
  map event_of (filter (fun m => time m <? nframes) l).

Definition kept_later (nframes : Z) (l : list Message) : list Message :=
  map (fun m => set_time m (time m - nframes))
      (filter (fun m => negb (time m <? nframes)) l).

(** Every message of port [p] comes after messages of time at most its own
    only, [hi] standing for the times before the queue. *)
Fixpoint dominated (p : jack_port_t) (hi : Z) (q : list Message) : Prop :=
  match q with
  | [] => True
  | m :: rest =>
      (port m = p -> hi <= time m) /\ dominated p (Z.max hi (time m)) rest
  end.

Definition time_le (a b : Message) : Prop := time a <= time b.
Definition time_lt (a b : Message) : Prop := time a < time b.
Definition event_lt (a b : midi_event) : Prop := fst a < fst b.

(** [jack_midi_event_reserve] never refuses. *)
Definition always_room (jack : Jack) : Prop :=
  forall b t n, jack_midi_event_reserve jack b t n = true.

(** A server that has room for every event, at rate [sample_rate]. *)
Definition roomy_jack (sample_rate : Z) (flags : jack_port_t -> Z) : Jack :=
  mkJack 1 0 sample_rate flags (fun _ _ _ => true) None.

(** A server with room for every event, of which [jack_activate] fails
    with [result]. *)
Definition unwilling_jack (result sample_rate : Z)
    (flags : jack_port_t -> Z) : Jack :=
  mkJack 1 result sample_rate flags (fun _ _ _ => true) None.

(** A client as these calls leave it: two output ports, 7 and 9,
    registered; a message sent on port 9 for frame 1029 and one on port 7
    for frame 1539; a block of 512 frames for which the server gives a
    buffer for port 7 and none for port 9; then messages sent on port 7
    for the frames 1028 and 1029. The times are the doubles nearest to
    1029.5 / 48000, 1539.5 / 48000 and 1028.5 / 48000. *)
Definition unsorted_port_client : Client :=
  let jack := roomy_jack 48000 (fun _ => JackPortIsOutput) in
  let c0 :=
    init_client
      (Port_init jack NULL 9
         (init_client (Port_init jack NULL 7 Client_new JackPortIsOutput))
         JackPortIsOutput) in
  let c1 :=
    snd (Port_send jack true (mkPort 9 true) c0
                   (PySequence [PyLong 176; PyLong 7; PyLong 1])
                   (6181941088503901 # 288230376151711744)) in
  let c2 :=
    snd (Port_send jack true (mkPort 7 true) c1
                   (PySequence [PyLong 144; PyLong 60; PyLong 100])
                   (4622194417557919 # 144115188075855872)) in
  let c3 :=
    snd (fst (Client_process jack
                (mkBlock 512 (fun q => if q =? 7 then Some [] else None)
                         (fun _ => None) 0)
                c2)) in
  let c4 :=
    snd (Port_send jack true (mkPort 7 true) c3
                   (PySequence [PyLong 144; PyLong 61; PyLong 100])
                   (1543984072250185 # 72057594037927936)) in
  snd (Port_send jack true (mkPort 7 true) c4
                 (PySequence [PyLong 144; PyLong 62; PyLong 100])
                 (6181941088503901 # 288230376151711744)).

(** [j] rebasings of a port's messages. *)
Definition rebased (nframes : Z) (j : nat) (l : list Message)
  : list Message :=
  Nat.iter j (kept_later nframes) l.

(** [k] successive blocks of [nframes] frames drained for one port, the
    server giving a buffer for each: the buffers in block order and the
    client after the last one. *)
Fixpoint drain_blocks (jack : Jack) (self : Client) (p : jack_port_t)
    (nframes : Z) (k : nat) : list (option port_buffer) * Client :=
  match k with
  | O => ([], self)
  | S k' =>
      let (self', b) :=
        Client_send_messages_for_port jack self p nframes (Some []) in
      let (bs, self'') := drain_blocks jack self' p nframes k' in
      (b :: bs, self'')
  end.

(** The events of successive blocks on one time line: an event at offset
    [t] of block [i] is at frame [i * nframes + t]. *)
Fixpoint timeline (nframes : Z) (i : Z) (bs : list (option port_buffer))
  : list midi_event :=
  match bs with
  | [] => []
  | b :: rest =>
      map (fun e => (i * nframes + fst e, snd e))
          (match b with Some events => events | None => [] end)
      ++ timeline nframes (i + 1) rest
  end.

(** What the threads do to the receive queue: the process callback fills
    it for a port, a client thread pops for a port. *)
Inductive receive_op : Type :=
| Fill (p : jack_port_t) (buffer : option (list fetch)) (start_frame : Z)
| Pop (self : Port).

(** What [Port_receive] returns for a message. *)
Definition received (sample_rate : Z) (m : Message) : list Z * Q :=
  (data m, nframes_to_seconds (time m) sample_rate).

(** A run of operations on a client: what the pops returned, each with the
    port that asked, in the order of the calls, and the client after. *)
Fixpoint run_receive (jack : Jack) (ops : list receive_op) (c : Client)
  : list (jack_port_t * (list Z * Q)) * Client :=
  match ops with
  | [] => ([], c)
  | Fill p buffer start_frame :: rest =>
      run_receive jack rest
        (Client_receive_messages_for_port c p buffer start_frame)
  | Pop self :: rest =>
      let (r, c') := Port_receive jack self c in
      let (popped, c'') := run_receive jack rest c' in
      (match r with
       | Returned (Some x) => (_port self, x) :: popped
       | _ => popped
       end, c'')
  end.

(** The messages the fills of a run append, in arrival order. *)
Fixpoint arrivals (ops : list receive_op) : list Message :=
  match ops with
  | [] => []
  | Fill p (Some events) start_frame :: rest =>
      receive_loop p start_frame events [] ++ arrivals rest
  | _ :: rest => arrivals rest
  end.

(** What the pops of a run returned to port [p]. *)
Definition popped_by (p : jack_port_t)
    (popped : list (jack_port_t * (list Z * Q))) : list (list Z * Q) :=
  map snd (filter (fun r => fst r =? p) popped).


(** ** The rest of the client *)

(** [Client_close], as far as the handle goes; [is_active] is not
    touched. *)
Definition Client_close (self : Client) : Client :=
  if _client self =? NULL then self else set_handle self NULL.

(** [Client_deactivate]; [result] is what [jack_deactivate] returns when
    it is called. *)
Definition Client_deactivate (result : Z) (self : Client)
  : PyResult unit * Client :=
  if is_active self && negb (_client self =? NULL) then
    if negb (result =? 0) then
      (Raised JackError "Failed to deactivate the JACK client", self)
    else (Returned tt, set_active self false)
  else (Returned tt, self).

(** The [while] loop of [Port_clear_send] and of [Port_clear_receive]:
    every message of the port is unlinked and freed, the others stay
    linked in their order. *)
Fixpoint clear_loop (self_port : jack_port_t) (message : list Message)
  : list Message :=
  match message with
  | [] => []
  | m :: next =>
      if port m =? self_port then clear_loop self_port next
      else m :: clear_loop self_port next
  end.

(** [Port_clear_send]. *)
Definition Port_clear_send (self : Port) (client : Client) : Client :=
  match _midi_send_queue client with
  | [] => client
  | queue => set_send_queue client (clear_loop (_port self) queue)
  end.

(** [Port_clear_receive]. *)
Definition Port_clear_receive (self : Port) (client : Client) : Client :=
  match _midi_receive_queue client with
  | [] => client
  | queue => set_receive_queue client (clear_loop (_port self) queue)
  end.

(** [Transport_get_time]; [transport_frame] is what
    [jack_get_current_transport_frame] returns. *)
Definition Transport_get_time (jack : Jack) (client : Client)
    (transport_frame : Z) : PyResult Q * Client :=
  let client := Client_open jack client in
  if _client client =? NULL then
    (Raised JackError "Failed to connect to the JACK server", client)
  else
    (Returned (nframes_to_seconds transport_frame
                                  (jack_get_sample_rate jack)), client).

(** What the server knows of one port name of a list it returned
    ([jack_get_ports], [jack_port_get_all_connections]): the port
    [jack_port_by_name] finds for it, whether [jack_port_is_mine] holds of
    that port, and what [jack_port_register] would return for the name. *)
Record listed : Type := mkListed {
  found : jack_port_t;
  server_mine : bool;
  would_register : jack_port_t
}.

(** The [for] loop of [Client_get_ports] and of [Port_get_connections]
    (which has no [mine_only]): a [Port] is made for each name that is not
    discarded, through [Port_init] with the client and the name only, and
    appended whatever [Port_init] returned. [Port_new] and [PyList_Append]
    are taken to succeed. *)
Fixpoint ports_loop (jack : Jack) (mine_only : bool) (names : list listed)
    (client : Client) : list Port * Client :=
  match names with
  | [] => ([], client)
  | e :: rest =>
      if mine_only && ((found e =? NULL) || negb (server_mine e)) then
        ports_loop jack mine_only rest client
      else
        let r := Port_init jack (found e) (would_register e) client 0 in
        let (ps, client') := ports_loop jack mine_only rest (init_client r) in
        (init_port r :: ps, client')
  end.

(** [Client_get_ports]; [names] is what [jack_get_ports] returned, [None]
    for [NULL]. *)
Definition Client_get_ports (jack : Jack) (self : Client) (mine_only : bool)
    (names : option (list listed)) : PyResult (list Port) * Client :=
  let self := Client_open jack self in
  if _client self =? NULL then
    (Raised JackError "Failed to connect to the JACK server", self)
  else
    match names with
    | None => (Returned [], self)
    | Some l =>
        let (ps, self') := ports_loop jack mine_only l self in
        (Returned ps, self')
    end.

(** [Port_get_connections]; [names] is what
    [jack_port_get_all_connections] returned. *)
Definition Port_get_connections (jack : Jack) (client : Client)
    (names : option (list listed)) : PyResult (list Port) * Client :=
  let client := Client_open jack client in
  if _client client =? NULL then
    (Raised JackError "Failed to connect to the JACK server", client)
  else
    match names with
    | None => (Returned [], client)
    | Some l =>
        let (ps, client') := ports_loop jack false l client in
        (Returned ps, client')
    end.

(** ** More specification vocabulary *)

(** [jack_midi_event_reserve] always refuses. *)
Definition never_room (jack : Jack) : Prop :=
  forall b t n, jack_midi_event_reserve jack b t n = false.

(** A server without room for any event. *)
Definition full_jack (sample_rate : Z) (flags : jack_port_t -> Z) : Jack :=
  mkJack 1 0 sample_rate flags (fun _ _ _ => false) None.

(** The port arrays have [MAX_PORTS_PER_CLIENT] cells and the counts stay
    within them. *)
Definition registry_ok (c : Client) : Prop :=
  0 <= _send_port_count c <= MAX_PORTS_PER_CLIENT
  /\ List.length (_send_ports c) = Z.to_nat MAX_PORTS_PER_CLIENT
  /\ 0 <= _receive_port_count c <= MAX_PORTS_PER_CLIENT
  /\ List.length (_receive_ports c) = Z.to_nat MAX_PORTS_PER_CLIENT.

(** Two clients with the same handle, activity and ports: they differ in
    their queues at most. *)
Definition same_registry (c c' : Client) : Prop :=
  is_active c' = is_active c
  /\ _client c' = _client c
  /\ _send_port_count c' = _send_port_count c
  /\ _send_ports c' = _send_ports c
  /\ _receive_port_count c' = _receive_port_count c
  /\ _receive_ports c' = _receive_ports c.

(** The time the drain gives a message of its port when [port_send_count]
    and [last_time] are [count] and [last]. *)
Definition drain_time (count last : Z) (m : Message) : Z :=
  if (0 <? count) && (time m <=? last) then wrap32 (last + 1) else time m.

(** What holds of [port_send_count] and [last_time] in the loop of the
    drain: once an event has been written, [last_time] is an offset of the
    block. *)
Definition loop_state (nframes count last : Z) : Prop :=
  0 < count -> 0 <= last < nframes.

(** The rounding error the division of [nframes_to_seconds] may add to a
    time of [nframes] frames: [2 ^ -53] of it. *)
Definition rounding_slack (nframes sample_rate : Z) : Q :=
  (inject_Z nframes / inject_Z sample_rate * pow2 (-53))%Q.

(** The events of an input buffer that reach the queue: those
    [jack_midi_event_get] gave and [malloc] had room for. *)
Fixpoint delivered (events : list fetch) : list midi_event :=
  match events with
  | [] => []
  | Fetched e true :: rest => e :: delivered rest
  | _ :: rest => delivered rest
  end.

(** The message a fill for port [p] makes of the event [e] of a block that
    starts at transport frame [start_frame]. *)
Definition stamp (p : jack_port_t) (start_frame : Z) (e : midi_event)
  : Message :=
  mkMessage p (wrap32 (start_frame + fst e)) (snd e).

(** One fill of the process callback: the port, the buffer the server gave
    for it and the transport frame at the start of the block. *)
Record fill : Type := mkFill {
  fill_port : jack_port_t;
  fill_buffer : option (list fetch);
  fill_start : Z
}.

(** The messages a fill is to append, in the order of the buffer. *)
Definition filled (f : fill) : list Message :=
  match fill_buffer f with
  | Some events => map (stamp (fill_port f) (fill_start f)) (delivered events)
  | None => []
  end.

(** A run of fills, on whatever ports. *)
Definition fill_all (fills : list fill) (c : Client) : Client :=
  fold_left
    (fun c f =>
       Client_receive_messages_for_port c (fill_port f) (fill_buffer f)
                                        (fill_start f))
    fills c.

(** [k] calls of [Port_receive] in a row on one port: what they returned,
    in the order of the calls, and the client after the last one. *)
Fixpoint receive_all (jack : Jack) (self : Port) (k : nat) (c : Client)
  : list (PyResult (option (list Z * Q))) * Client :=
  match k with
  | O => ([], c)
  | S k' =>
      let (r, c') := Port_receive jack self c in
      let (rs, c'') := receive_all jack self k' c' in
      (r :: rs, c'')
  end.

(** * Properties *)

(** ** Lists *)

Lemma filter_all {A : Type} (f : A -> bool) (l : list A) :
  Forall (fun x => f x = true) l -> filter f l = l.
Proof.
  induction 1 as [|x l Hx _ IH]; simpl; [reflexivity|].
  now rewrite Hx, IH.
Qed.

Lemma filter_none {A : Type} (f : A -> bool) (l : list A) :
  Forall (fun x => f x = false) l -> filter f l = [].
Proof.
  induction 1 as [|x l Hx _ IH]; simpl; [reflexivity|].
  now rewrite Hx, IH.
Qed.

Lemma sorted_snoc {A : Type} (R : A -> A -> Prop) (l : list A) (a : A) :
  StronglySorted R l -> Forall (fun x => R x a) l ->
  StronglySorted R (l ++ [a]).
Proof.
  induction 1 as [|x l Hs IH Hall]; intros Ha; simpl.
  - repeat constructor.
  - inversion Ha; subst. constructor; [auto|].
    apply Forall_app. split; [exact Hall | repeat constructor; assumption].
Qed.

(** Equal lists of events, up to arithmetic on their frames. *)
Ltac events_eq :=
  repeat match goal with
         | |- _ :: _ = _ :: _ => f_equal
         | |- (_, _) = (_, _) => f_equal
         end;
  try reflexivity; try lia.

(** ** Insertion into the send queue *)

Lemma send_queue_insert_scan (m : Message) (q : list Message) :
  send_queue_insert m q = send_queue_scan m q.
Proof. destruct q; reflexivity. Qed.

Lemma send_queue_scan_perm (m : Message) (q : list Message) :
  Permutation (send_queue_scan m q) (m :: q).
Proof.
  induction q as [|c next IH]; simpl.
  - apply Permutation_refl.
  - destruct (time m <? time c).
    + apply Permutation_refl.
    + eapply Permutation_trans; [apply perm_skip, IH | apply perm_swap].
Qed.

Lemma send_queue_scan_sorted (m : Message) (q : list Message) :
  StronglySorted time_le q -> StronglySorted time_le (send_queue_scan m q).
Proof.
  induction q as [|c next IH]; simpl; intros Hs.
  - constructor; constructor.
  - inversion Hs as [|? ? Hnext Hall]; subst.
    destruct (time m <? time c) eqn:E.
    + apply Z.ltb_lt in E. constructor; [exact Hs|].
      constructor; [unfold time_le; lia|].
      eapply Forall_impl; [|exact Hall].
      unfold time_le; intros; lia.
    + apply Z.ltb_ge in E. constructor; [auto|].
      eapply Permutation_Forall;
        [apply Permutation_sym, send_queue_scan_perm|].
      constructor; [exact E | exact Hall].
Qed.

Lemma enqueue_all_perm (ms q : list Message) :
  Permutation (enqueue_all ms q) (ms ++ q).
Proof.
  revert q; induction ms as [|m ms IH]; intros q; simpl.
  - apply Permutation_refl.
  - eapply Permutation_trans; [apply IH|].
    rewrite send_queue_insert_scan.
    eapply Permutation_trans;
      [apply Permutation_app_head, send_queue_scan_perm|].
    apply Permutation_sym, Permutation_middle.
Qed.

Lemma enqueue_all_sorted (ms q : list Message) :
  StronglySorted time_le q -> StronglySorted time_le (enqueue_all ms q).
Proof.
  revert q; induction ms as [|m ms IH]; intros q Hq; simpl; [exact Hq|].
  apply IH. rewrite send_queue_insert_scan.
  now apply send_queue_scan_sorted.
Qed.

(** A queue sorted by time whose times are pairwise distinct is strictly
    sorted. *)
Lemma sorted_nodup_strict (l : list Message) :
  StronglySorted time_le l -> NoDup (map time l) -> StronglySorted time_lt l.
Proof.
  induction l as [|a l IH]; intros Hs Hn; [constructor|].
  inversion Hs as [|? ? Hl Hall]; subst.
  inversion Hn as [|? ? Hnotin Hn']; subst.
  constructor; [auto|].
  rewrite Forall_forall in *. intros x Hx.
  specialize (Hall x Hx). unfold time_le in Hall. unfold time_lt.
  assert (time a <> time x).
  { intros Heq. apply Hnotin. rewrite Heq. now apply in_map. }
  lia.
Qed.

(** ** The queue as its ports see it *)

Lemma dominated_weaken (p : jack_port_t) (q : list Message) :
  forall hi lo, lo <= hi -> dominated p hi q -> dominated p lo q.
Proof.
  induction q as [|m rest IH]; simpl; intros hi lo Hle H; [exact I|].
  destruct H as [Hm Hrest]. split; [intros Hp; specialize (Hm Hp); lia|].
  eapply IH; [|exact Hrest]. lia.
Qed.

Lemma dominated_on_port (p : jack_port_t) (q : list Message) :
  forall hi, dominated p hi q ->
             Forall (fun x => hi <= time x) (on_port p q).
Proof.
  induction q as [|m rest IH]; simpl; intros hi H; [constructor|].
  destruct H as [Hm Hrest].
  assert (Hr : Forall (fun x => hi <= time x) (on_port p rest)).
  { apply IH. eapply dominated_weaken; [|exact Hrest]. lia. }
  destruct (port m =? p) eqn:E; [|exact Hr].
  apply Z.eqb_eq in E. constructor; auto.
Qed.

Lemma dominated_without_port (p : jack_port_t) (q : list Message) :
  on_port p q = [] -> forall hi, dominated p hi q.
Proof.
  induction q as [|m rest IH]; simpl; intros H hi; [exact I|].
  destruct (port m =? p) eqn:E; [discriminate|].
  apply Z.eqb_neq in E. split; [intros; contradiction|]. now apply IH.
Qed.

Lemma send_queue_scan_dominated (p : jack_port_t) (m : Message)
      (q : list Message) :
  port m = p ->
  forall hi, hi <= time m -> dominated p hi q ->
             dominated p hi (send_queue_scan m q).
Proof.
  intros Hp. induction q as [|c next IH]; simpl; intros hi Hhi H.
  - split; [intros; lia | exact I].
  - destruct H as [Hc Hnext].
    destruct (time m <? time c) eqn:E.
    + apply Z.ltb_lt in E. simpl. split; [intros; lia|].
      split; [intros; lia|].
      replace (Z.max (Z.max hi (time m)) (time c))
        with (Z.max hi (time c)) by lia.
      exact Hnext.
    + apply Z.ltb_ge in E. simpl. split; [exact Hc|].
      apply IH; [lia | exact Hnext].
Qed.

Lemma send_queue_scan_on_port (p : jack_port_t) (m : Message)
      (q : list Message) :
  port m = p ->
  forall hi, dominated p hi q ->
             on_port p (send_queue_scan m q)
             = send_queue_scan m (on_port p q).
Proof.
  intros Hp. induction q as [|c next IH]; simpl; intros hi H.
  - rewrite Hp, Z.eqb_refl. reflexivity.
  - destruct H as [Hc Hnext].
    destruct (time m <? time c) eqn:E.
    + simpl. rewrite Hp, Z.eqb_refl.
      pose proof (dominated_on_port p next _ Hnext) as Hall.
      destruct (port c =? p) eqn:Ec.
      * simpl. rewrite E. reflexivity.
      * apply Z.ltb_lt in E.
        destruct (on_port p next) as [|x l] eqn:El; [reflexivity|].
        simpl. inversion Hall; subst.
        assert (Hlt : (time m <? time x) = true) by (apply Z.ltb_lt; lia).
        rewrite Hlt. reflexivity.
    + simpl. destruct (port c =? p) eqn:Ec.
      * simpl. rewrite E. f_equal. eapply IH; exact Hnext.
      * eapply IH; exact Hnext.
Qed.

Lemma send_queue_scan_off_port (p : jack_port_t) (m : Message)
      (q : list Message) :
  port m = p -> off_port p (send_queue_scan m q) = off_port p q.
Proof.
  intros Hp. induction q as [|c next IH]; simpl.
  - rewrite Hp, Z.eqb_refl. reflexivity.
  - destruct (time m <? time c); simpl.
    + rewrite Hp, Z.eqb_refl. reflexivity.
    + rewrite IH. reflexivity.
Qed.

(** After a run of enqueues on port [p] into a queue that respects
    [dominated], the port sees its old messages with the new ones inserted
    among them, and the other ports see what they saw. *)
Lemma enqueue_all_on_port (p : jack_port_t) (ms : list Message) :
  Forall (fun m => port m = p /\ 0 <= time m) ms ->
  forall q, dominated p 0 q ->
            on_port p (enqueue_all ms q) = enqueue_all ms (on_port p q)
            /\ off_port p (enqueue_all ms q) = off_port p q.
Proof.
  induction ms as [|m ms IH]; intros Hms q Hq; simpl; [split; reflexivity|].
  inversion Hms as [|? ? [Hp Ht] Hms']; subst.
  rewrite !send_queue_insert_scan.
  destruct (IH Hms' (send_queue_scan m q)) as [H1 H2].
  { apply send_queue_scan_dominated; auto. }
  rewrite H1, H2. split.
  - f_equal. eapply send_queue_scan_on_port; [reflexivity | exact Hq].
  - now apply send_queue_scan_off_port.
Qed.

(** ** Rebasing *)

Lemma kept_later_app (n : Z) (a b : list Message) :
  kept_later n (a ++ b) = kept_later n a ++ kept_later n b.
Proof. unfold kept_later. now rewrite filter_app, map_app. Qed.

Lemma emitted_now_app (n : Z) (a b : list Message) :
  emitted_now n (a ++ b) = emitted_now n a ++ emitted_now n b.
Proof. unfold emitted_now. now rewrite filter_app, map_app. Qed.

(** Rebasing keeps a port's messages on the port, their times frame counts
    and their order strict. *)
Lemma kept_later_wf (p : jack_port_t) (n : Z) (l : list Message) :
  0 <= n ->
  Forall (fun m => port m = p /\ is_nframes (time m)) l ->
  Forall (fun m => port m = p /\ is_nframes (time m)) (kept_later n l).
Proof.
  intros Hn. unfold kept_later, is_nframes.
  induction l as [|m l IH]; intros H; simpl; [constructor|].
  inversion H as [|? ? [Hp Ht] H']; subst.
  destruct (time m <? n) eqn:E; simpl; [auto|].
  apply Z.ltb_ge in E. constructor; [|auto].
  simpl. split; [reflexivity | lia].
Qed.

Lemma kept_later_sorted (n : Z) (l : list Message) :
  StronglySorted time_lt l -> StronglySorted time_lt (kept_later n l).
Proof.
  unfold kept_later.
  induction l as [|m l IH]; intros H; simpl; [constructor|].
  inversion H as [|? ? Hl Hall]; subst.
  destruct (time m <? n) eqn:E; simpl; [auto|].
  constructor; [auto|].
  rewrite Forall_forall in *. intros x Hx.
  apply in_map_iff in Hx. destruct Hx as (y & <- & Hy).
  apply filter_In in Hy. destruct Hy as [Hy _].
  specialize (Hall y Hy). unfold time_lt in *. simpl. lia.
Qed.

Lemma event_of_sorted (l : list Message) :
  StronglySorted time_lt l -> StronglySorted event_lt (map event_of l).
Proof.
  induction 1 as [|m l _ IH Hall]; simpl; constructor; [exact IH|].
  rewrite Forall_forall in *. intros e He.
  apply in_map_iff in He. destruct He as (x & <- & Hx).
  exact (Hall x Hx).
Qed.

(** The strictly increasing messages of a port are those of the block
    followed by the later ones. *)
Lemma increasing_split (n : Z) (l : list Message) :
  StronglySorted time_lt l ->
  l = filter (fun m => time m <? n) l
      ++ filter (fun m => negb (time m <? n)) l.
Proof.
  induction 1 as [|m l Hs IH Hall]; simpl; [reflexivity|].
  destruct (time m <? n) eqn:E; simpl.
  - f_equal. exact IH.
  - apply Z.ltb_ge in E.
    rewrite filter_none, filter_all; [reflexivity| |];
      (eapply Forall_impl; [|exact Hall]); unfold time_lt; simpl; intros x Hx.
    + apply negb_true_iff, Z.ltb_ge. lia.
    + apply Z.ltb_ge. lia.
Qed.

(** ** Draining the send queue *)

(** With a buffer from the server, [Client_send_messages_for_port] is its
    loop over the whole queue, empty or not. *)
Lemma Client_send_messages_for_port_loop (jack : Jack) (c : Client)
      (p : jack_port_t) (n : Z) (buffer : port_buffer) :
  Client_send_messages_for_port jack c p n (Some buffer)
  = (set_send_queue c
       (snd (send_loop jack p n (_midi_send_queue c) [] 0 0)),
     Some (fst (send_loop jack p n (_midi_send_queue c) [] 0 0))).
Proof.
  unfold Client_send_messages_for_port.
  destruct (_midi_send_queue c) as [|m q] eqn:E.
  - simpl. destruct c; simpl in *; subst; reflexivity.
  - destruct (send_loop jack p n (m :: q) [] 0 0); reflexivity.
Qed.

Lemma drain_blocks_step (jack : Jack) (c : Client) (p : jack_port_t)
      (n : Z) (k : nat) :
  drain_blocks jack c p n (S k)
  = (Some (fst (send_loop jack p n (_midi_send_queue c) [] 0 0))
       :: fst (drain_blocks jack
                 (set_send_queue c
                    (snd (send_loop jack p n (_midi_send_queue c) [] 0 0)))
                 p n k),
     snd (drain_blocks jack
            (set_send_queue c
               (snd (send_loop jack p n (_midi_send_queue c) [] 0 0)))
            p n k)).
Proof.
  cbn [drain_blocks]. rewrite Client_send_messages_for_port_loop.
  destruct (drain_blocks jack _ p n k). reflexivity.
Qed.

(** The drains of port [p], in blocks of [n] frames, on the server
    [jack]. *)
Section Drain.

Variable jack : Jack.
Variable p : jack_port_t.
Variable n : Z.

Hypothesis n_frames : is_nframes n.

(** The loop reads and rewrites the messages of its port only: its buffer
    and what it leaves of the port are those of a run over the port's
    messages alone, and the other messages stay as they are. *)
Lemma send_loop_on_port (q : list Message) :
  forall buffer count last,
    fst (send_loop jack p n q buffer count last)
    = fst (send_loop jack p n (on_port p q) buffer count last)
    /\ on_port p (snd (send_loop jack p n q buffer count last))
       = snd (send_loop jack p n (on_port p q) buffer count last)
    /\ off_port p (snd (send_loop jack p n q buffer count last))
       = off_port p q.
Proof.
  induction q as [|m next IH]; intros buffer count last; simpl;
    [repeat split; reflexivity|].
  destruct (port m =? p) eqn:E; simpl; rewrite ?E.
  - match goal with
    | |- context [if ?c then wrap32 (last + 1) else time m] =>
        set (t := if c then wrap32 (last + 1) else time m)
    end.
    destruct (t <? n).
    + apply IH.
    + destruct (IH buffer count last) as (H1 & H2 & H3).
      destruct (send_loop jack p n next buffer count last) as [b q'].
      destruct (send_loop jack p n (on_port p next) buffer count last)
        as [b' q''].
      simpl in *. rewrite E. simpl. repeat split; congruence.
  - destruct (IH buffer count last) as (H1 & H2 & H3).
    destruct (send_loop jack p n next buffer count last) as [b q'].
    simpl in *. rewrite E. simpl. repeat split; congruence.
Qed.

(** Whatever the queue holds, the events one drain writes for a port have
    strictly increasing times: a message that would not come after the last
    one written is pushed one frame past it. *)
Lemma send_loop_strict (q : list Message) :
  Forall (fun m => is_nframes (time m)) q ->
  forall buffer count last,
    StronglySorted event_lt buffer ->
    0 <= count ->
    (count = 0 -> buffer = []) ->
    (0 < count -> Forall (fun e => fst e <= last) buffer /\ 0 <= last < n) ->
    StronglySorted event_lt (fst (send_loop jack p n q buffer count last)).
Proof.
  pose proof n_frames as Hn. unfold is_nframes in Hn.
  induction q as [|m next IH]; intros Hq buffer count last Hs Hc H0 Hpos;
    simpl; [exact Hs|].
  inversion Hq as [|? ? Hm Hq']; subst. unfold is_nframes in Hm.
  destruct (port m =? p).
  - set (t := if (0 <? count) && (time m <=? last)
              then wrap32 (last + 1) else time m).
    assert (Ht : 0 <= t /\ (0 < count -> last < t)).
    { unfold t. destruct (0 <? count) eqn:Ec; simpl.
      - apply Z.ltb_lt in Ec. destruct (Hpos Ec) as [_ Hl].
        destruct (time m <=? last) eqn:El.
        + unfold wrap32. rewrite Z.mod_small by lia. lia.
        + apply Z.leb_gt in El. lia.
      - apply Z.ltb_ge in Ec. lia. }
    destruct Ht as [Ht0 Htl].
    destruct (t <? n) eqn:E.
    + apply Z.ltb_lt in E.
      assert (Hbelow : Forall (fun e => fst e < t) buffer).
      { destruct (Z.eq_dec count 0) as [Hz|Hnz].
        - rewrite (H0 Hz). constructor.
        - assert (Hcp : 0 < count) by lia.
          destruct (Hpos Hcp) as [Hall _]. specialize (Htl Hcp).
          eapply Forall_impl; [|exact Hall]. simpl. intros; lia. }
      apply IH; auto.
      * destruct (jack_midi_event_reserve jack buffer t (data_size m));
          [|exact Hs].
        apply sorted_snoc; [exact Hs|]. exact Hbelow.
      * lia.
      * intros; lia.
      * intros _. split; [|lia].
        destruct (jack_midi_event_reserve jack buffer t (data_size m)).
        -- apply Forall_app. split.
           ++ eapply Forall_impl; [|exact Hbelow]. simpl. intros; lia.
           ++ repeat constructor. simpl. lia.
        -- eapply Forall_impl; [|exact Hbelow]. simpl. intros; lia.
    + specialize (IH Hq' buffer count last Hs Hc H0 Hpos).
      destruct (send_loop jack p n next buffer count last). exact IH.
  - specialize (IH Hq' buffer count last Hs Hc H0 Hpos).
    destruct (send_loop jack p n next buffer count last). exact IH.
Qed.

Hypothesis room : always_room jack.

(** On the strictly increasing messages of one port no time is pushed
    forward: the loop emits the messages of the block as they are and
    rebases the others. *)
Lemma send_loop_increasing (l : list Message) :
  Forall (fun m => port m = p /\ is_nframes (time m)) l ->
  StronglySorted time_lt l ->
  forall buffer count last,
    (0 < count -> Forall (fun m => last < time m) l) ->
    send_loop jack p n l buffer count last
    = (buffer ++ emitted_now n l, kept_later n l).
Proof.
  unfold emitted_now, kept_later.
  induction l as [|m next IH]; intros Hl Hs buffer count last Hlast; simpl.
  - rewrite app_nil_r. reflexivity.
  - inversion Hl as [|? ? [Hp Ht] Hl']; subst.
    inversion Hs as [|? ? Hs' Hall]; subst.
    rewrite Z.eqb_refl.
    assert (Hbump : ((0 <? count) && (time m <=? last)) = false).
    { destruct (0 <? count) eqn:Ec; [|reflexivity]. simpl.
      apply Z.ltb_lt in Ec. specialize (Hlast Ec).
      inversion Hlast; subst. apply Z.leb_gt. assumption. }
    rewrite Hbump.
    destruct (time m <? n) eqn:E; simpl.
    + rewrite room.
      rewrite (IH Hl' Hs' _ (count + 1) (time m)).
      * rewrite <- app_assoc. reflexivity.
      * intros _. eapply Forall_impl; [|exact Hall].
        unfold time_lt. intros; lia.
    + rewrite (IH Hl' Hs' buffer count last).
      * apply Z.ltb_ge in E. unfold wrap32.
        pose proof n_frames as Hn. unfold is_nframes in *.
        rewrite Z.mod_small by lia. reflexivity.
      * intros Hc. specialize (Hlast Hc). now inversion Hlast.
Qed.

(** The drain of one port, seen from that port: on a queue whose messages
    of the port are strictly increasing, the block's messages leave as they
    are and the later ones stay, rebased. *)
Lemma drain_increasing (q : list Message) :
  Forall (fun m => port m = p /\ is_nframes (time m)) (on_port p q) ->
  StronglySorted time_lt (on_port p q) ->
  fst (send_loop jack p n q [] 0 0) = emitted_now n (on_port p q)
  /\ on_port p (snd (send_loop jack p n q [] 0 0))
     = kept_later n (on_port p q)
  /\ off_port p (snd (send_loop jack p n q [] 0 0)) = off_port p q.
Proof.
  intros Hwf Hs.
  destruct (send_loop_on_port q [] 0 0) as (H1 & H2 & H3).
  rewrite H1, H2, H3.
  rewrite (send_loop_increasing (on_port p q) Hwf Hs).
  - simpl. repeat split; reflexivity.
  - intros; lia.
Qed.

(** Without a collision every message leaves at its own frame: over enough
    blocks, the time line of a port's buffers is the port's queue. *)
Lemma timeline_increasing (k : nat) :
  forall (c : Client) (i : Z),
    Forall (fun m => port m = p /\ is_nframes (time m))
           (on_port p (_midi_send_queue c)) ->
    StronglySorted time_lt (on_port p (_midi_send_queue c)) ->
    Forall (fun m => time m < Z.of_nat k * n)
           (on_port p (_midi_send_queue c)) ->
    timeline n i (fst (drain_blocks jack c p n k))
    = map (fun m => (i * n + time m, data m))
          (on_port p (_midi_send_queue c)).
Proof.
  induction k as [|k IH]; intros c i Hwf Hs Hlt.
  - simpl. destruct (on_port p (_midi_send_queue c)) as [|m l]; [reflexivity|].
    inversion Hwf as [|? ? [_ Hm] _]; inversion Hlt; subst.
    unfold is_nframes in Hm. simpl in *. lia.
  - rewrite drain_blocks_step. simpl.
    destruct (drain_increasing (_midi_send_queue c) Hwf Hs) as (H1 & H2 & _).
    rewrite H1. rewrite IH; simpl; rewrite ?H2.
    + rewrite (increasing_split n _ Hs) at 3.
      rewrite map_app. unfold emitted_now, kept_later.
      rewrite !map_map. f_equal.
      apply map_ext. intros m. simpl. f_equal. lia.
    + apply kept_later_wf; [|exact Hwf].
      pose proof n_frames as Hn. unfold is_nframes in Hn. lia.
    + now apply kept_later_sorted.
    + unfold kept_later. rewrite Forall_forall in *. intros x Hx.
      apply in_map_iff in Hx. destruct Hx as (y & <- & Hy).
      apply filter_In in Hy. destruct Hy as [Hy _].
      specialize (Hlt y Hy). simpl. lia.
Qed.

(** Two messages of equal time at the head of a port: the first leaves at
    its frame and the second one frame later, in the same block or at the
    start of the next. *)
Lemma timeline_tie (d1 d2 : list Z) :
  0 < n ->
  forall (k : nat) (c : Client) (t i : Z),
    on_port p (_midi_send_queue c) = [mkMessage p t d1; mkMessage p t d2] ->
    is_nframes t ->
    t + 1 < Z.of_nat k * n ->
    timeline n i (fst (drain_blocks jack c p n k))
    = [(i * n + t, d1); (i * n + t + 1, d2)].
Proof.
  intros Hpos. pose proof n_frames as Hn. unfold is_nframes in Hn.
  induction k as [|k IH]; intros c t i Hq Ht Hk.
  - unfold is_nframes in Ht. simpl in Hk. lia.
  - rewrite drain_blocks_step. simpl.
    destruct (send_loop_on_port (_midi_send_queue c) [] 0 0)
      as (H1 & H2 & _).
    rewrite Hq in H1, H2. rewrite H1. clear H1.
    simpl in H2 |- *. rewrite Z.eqb_refl in H2 |- *. simpl in H2 |- *.
    unfold is_nframes in Ht.
    destruct (t <? n) eqn:E.
    + apply Z.ltb_lt in E.
      rewrite room in H2 |- *. rewrite Z.leb_refl in H2 |- *.
      simpl in H2 |- *.
      assert (Hw : wrap32 (t + 1) = t + 1).
      { unfold wrap32. apply Z.mod_small. lia. }
      rewrite Hw in H2 |- *.
      destruct (t + 1 <? n) eqn:E1.
      * rewrite room in H2 |- *. simpl in H2 |- *.
        rewrite (timeline_increasing k); simpl;
          rewrite ?H2; try (constructor; fail).
        simpl. events_eq.
      * apply Z.ltb_ge in E1. simpl in H2 |- *.
        assert (Hz : wrap32 (t + 1 - n) = 0).
        { replace (t + 1 - n) with 0 by lia. reflexivity. }
        rewrite Hz in H2.
        rewrite (timeline_increasing k); simpl; rewrite ?H2.
        -- rewrite room. simpl. events_eq.
        -- constructor; [|constructor]. simpl. unfold is_nframes.
           split; [reflexivity | lia].
        -- repeat constructor.
        -- constructor; [|constructor]. simpl. nia.
    + apply Z.ltb_ge in E. simpl in H2 |- *.
      assert (Hw : wrap32 (t - n) = t - n).
      { unfold wrap32. apply Z.mod_small. lia. }
      rewrite Hw in H2.
      rewrite (IH _ (t - n) (i + 1)); simpl; rewrite ?H2.
      * events_eq.
      * reflexivity.
      * unfold is_nframes. lia.
      * lia.
Qed.

(** Two messages of equal time [t] alone on the port, in a block that
    holds [t + 1]: one drain writes both, the second one frame after the
    first, and takes both off the queue. *)
Lemma drain_tie_in_block (d1 d2 : list Z) (q : list Message) (t : Z) :
  on_port p q = [mkMessage p t d1; mkMessage p t d2] ->
  0 <= t ->
  t + 1 < n ->
  fst (send_loop jack p n q [] 0 0) = [(t, d1); (t + 1, d2)]
  /\ on_port p (snd (send_loop jack p n q [] 0 0)) = [].
Proof.
  intros Hq Ht Hlt. pose proof n_frames as Hn. unfold is_nframes in Hn.
  destruct (send_loop_on_port q [] 0 0) as (H1 & H2 & _).
  rewrite H1, H2, Hq. simpl. rewrite Z.eqb_refl. simpl.
  assert (E : (t <? n) = true) by (apply Z.ltb_lt; lia).
  assert (Hw : wrap32 (t + 1) = t + 1).
  { unfold wrap32. apply Z.mod_small. lia. }
  assert (E1 : (t + 1 <? n) = true) by (apply Z.ltb_lt; lia).
  rewrite E, room. simpl. rewrite Z.leb_refl, Hw, E1, room. simpl.
  split; reflexivity.
Qed.

End Drain.

(** ** C1: enqueues at distinct times, then one drain *)

(** C1, as stated, fails when the block size equals the largest time: a
    message sent for frame 5 is not written by a drain of a block of 5
    frames (a block holds the offsets 0 to 4); it stays queued, rebased to
    offset 0 of the next block. *)
Lemma C1_block_size_equal_to_max_time :
  exists c1,
    Port_send (roomy_jack 48000 (fun _ => JackPortIsOutput)) true
              (mkPort 7 true) Client_new
              (PySequence [PyLong 144; PyLong 64; PyLong 127])
              (5 # 48000)
    = (Returned tt, c1)
    /\ _midi_send_queue c1 = [mkMessage 7 5 [144; 64; 127]]
    /\ Client_send_messages_for_port
         (roomy_jack 48000 (fun _ => JackPortIsOutput)) c1 7 5 (Some [])
       = (set_send_queue c1 [mkMessage 7 0 [144; 64; 127]], Some []).
Proof.
  eexists. split; [vm_compute; reflexivity|].
  split; vm_compute; reflexivity.
Qed.

(** C1 (amended): after any run of enqueues with pairwise distinct times on
    one output port, into a queue that held nothing for that port, one
    drain with a block size greater than every enqueued time writes all of
    those events into the port buffer, in strictly increasing time order
    (the input sorted by time), leaves no message of the port queued and
    leaves the messages of the other ports as they were. *)
Theorem enqueue_distinct_then_drain_sorted (jack : Jack) (c : Client)
        (p : jack_port_t) (n : Z) (ms : list Message)
        (buffer : port_buffer) :
  always_room jack ->
  is_nframes n ->
  on_port p (_midi_send_queue c) = [] ->
  Forall (fun m => port m = p /\ 0 <= time m < n) ms ->
  NoDup (map time ms) ->
  exists c' b,
    Client_send_messages_for_port jack
      (set_send_queue c (enqueue_all ms (_midi_send_queue c))) p n
      (Some buffer)
    = (c', Some b)
    /\ Permutation b (map event_of ms)
    /\ StronglySorted event_lt b
    /\ on_port p (_midi_send_queue c') = []
    /\ off_port p (_midi_send_queue c') = off_port p (_midi_send_queue c).
Proof.
  intros Hroom Hn Hq0 Hms Hnd.
  rewrite Client_send_messages_for_port_loop.
  do 2 eexists. split; [reflexivity|]. simpl.
  set (q := enqueue_all ms (_midi_send_queue c)).
  assert (Hms0 : Forall (fun m => port m = p /\ 0 <= time m) ms).
  { eapply Forall_impl; [|exact Hms]. simpl. intros m [? ?]. split; [auto|lia]. }
  destruct (enqueue_all_on_port p ms Hms0 (_midi_send_queue c)) as [Hon Hoff].
  { now apply dominated_without_port. }
  fold q in Hon, Hoff. rewrite Hq0 in Hon.
  assert (Hperm : Permutation (on_port p q) ms).
  { rewrite Hon. rewrite <- (app_nil_r ms) at 2. apply enqueue_all_perm. }
  assert (Hwf : Forall (fun m => port m = p /\ 0 <= time m < n) (on_port p q)).
  { eapply Permutation_Forall; [apply Permutation_sym, Hperm | exact Hms]. }
  assert (Hsorted : StronglySorted time_lt (on_port p q)).
  { apply sorted_nodup_strict.
    - rewrite Hon. apply enqueue_all_sorted. constructor.
    - eapply Permutation_NoDup; [|exact Hnd].
      apply Permutation_map, Permutation_sym, Hperm. }
  destruct (drain_increasing jack p n Hn Hroom q) as (H1 & H2 & H3).
  { eapply Forall_impl; [|exact Hwf]. unfold is_nframes in *.
    simpl. intros m [? ?]. split; [auto|lia]. }
  { exact Hsorted. }
  rewrite H1, H2, H3, Hoff.
  assert (Hall : filter (fun m => time m <? n) (on_port p q) = on_port p q).
  { apply filter_all. eapply Forall_impl; [|exact Hwf].
    simpl. intros m [_ ?]. apply Z.ltb_lt. lia. }
  assert (Hnone : filter (fun m => negb (time m <? n)) (on_port p q) = []).
  { apply filter_none. eapply Forall_impl; [|exact Hwf].
    simpl. intros m [_ ?]. apply negb_false_iff, Z.ltb_lt. lia. }
  unfold emitted_now, kept_later. rewrite Hall, Hnone. simpl.
  repeat split.
  - now apply Permutation_map.
  - now apply event_of_sorted.
Qed.

Lemma enqueue_distinct_then_drain_sorted_witness :
  exists c' b,
    Client_send_messages_for_port
      (roomy_jack 48000 (fun _ => JackPortIsOutput))
      (set_send_queue Client_new
         (enqueue_all [mkMessage 7 30 [144; 64; 127];
                       mkMessage 7 4 [128; 64; 0];
                       mkMessage 7 11 [176; 7; 100]]
                      (_midi_send_queue Client_new))) 7 512 (Some [])
    = (c', Some b)
    /\ Permutation b (map event_of [mkMessage 7 30 [144; 64; 127];
                                    mkMessage 7 4 [128; 64; 0];
                                    mkMessage 7 11 [176; 7; 100]])
    /\ StronglySorted event_lt b
    /\ on_port 7 (_midi_send_queue c') = []
    /\ off_port 7 (_midi_send_queue c')
       = off_port 7 (_midi_send_queue Client_new).
Proof.
  apply (enqueue_distinct_then_drain_sorted
           (roomy_jack 48000 (fun _ => JackPortIsOutput)) Client_new 7 512).
  - intros b t n; reflexivity.
  - unfold is_nframes, NFRAMES_MODULUS; lia.
  - reflexivity.
  - repeat constructor; simpl; lia.
  - repeat constructor; simpl; intuition lia.
Defined.

(** ** C2: two events at the same time *)

(** C2: two events enqueued for the same frame [t] on one port, with
    nothing else queued for it, leave at the frames [t] and [t + 1], the
    first enqueued first: over the blocks drained, whatever their size, the
    port's buffers hold these two events and no other; when the block
    holds the frame [t + 1], one drain writes both, at the offsets [t] and
    [t + 1]. And no drain ever writes two events of one port at the same
    time. *)
Theorem equal_times_leave_one_frame_apart (jack : Jack) (c : Client)
        (p : jack_port_t) (n t : Z) (d1 d2 : list Z) (k : nat) :
  always_room jack ->
  0 < n < NFRAMES_MODULUS ->
  is_nframes t ->
  on_port p (_midi_send_queue c) = [] ->
  t + 1 < Z.of_nat k * n ->
  timeline n 0
    (fst (drain_blocks jack
            (set_send_queue c
               (enqueue_all [mkMessage p t d1; mkMessage p t d2]
                            (_midi_send_queue c))) p n k))
  = [(t, d1); (t + 1, d2)]
  /\ (t + 1 < n ->
      forall b0 : port_buffer,
      exists c1,
        Client_send_messages_for_port jack
          (set_send_queue c
             (enqueue_all [mkMessage p t d1; mkMessage p t d2]
                          (_midi_send_queue c))) p n (Some b0)
        = (c1, Some [(t, d1); (t + 1, d2)])
        /\ on_port p (_midi_send_queue c1) = [])
  /\ (forall (c0 c1 : Client) (b0 b1 : port_buffer),
         Forall (fun m => is_nframes (time m)) (_midi_send_queue c0) ->
         Client_send_messages_for_port jack c0 p n (Some b0)
         = (c1, Some b1) ->
         StronglySorted event_lt b1).
Proof.
  intros Hroom Hn Ht Hq0 Hk.
  assert (Hn' : is_nframes n) by (unfold is_nframes; lia).
  assert (Hon : on_port p (enqueue_all [mkMessage p t d1; mkMessage p t d2]
                                      (_midi_send_queue c))
                = [mkMessage p t d1; mkMessage p t d2]).
  { destruct (enqueue_all_on_port p [mkMessage p t d1; mkMessage p t d2])
      with (q := _midi_send_queue c) as [Hon _].
    - unfold is_nframes in Ht. repeat constructor; simpl; lia.
    - now apply dominated_without_port.
    - rewrite Hon, Hq0. simpl. rewrite Z.ltb_irrefl. reflexivity. }
  split; [|split].
  - rewrite (timeline_tie jack p n Hn' Hroom d1 d2 (proj1 Hn) k
               (set_send_queue c
                  (enqueue_all [mkMessage p t d1; mkMessage p t d2]
                               (_midi_send_queue c))) t 0 Hon Ht Hk).
    events_eq.
  - intros Hlt b0. rewrite Client_send_messages_for_port_loop.
    cbn [_midi_send_queue set_send_queue].
    destruct (drain_tie_in_block jack p n Hn' Hroom d1 d2 _ t Hon)
      as [Hb Hrest]; [unfold is_nframes in Ht; lia | exact Hlt |].
    eexists. split; [rewrite Hb; reflexivity | exact Hrest].
  - intros c0 c1 b0 b1 Hwf Hsend.
    rewrite Client_send_messages_for_port_loop in Hsend.
    inversion Hsend; subst.
    apply (send_loop_strict jack p n Hn' _ Hwf).
    + constructor.
    + lia.
    + reflexivity.
    + intros; lia.
Qed.


Lemma equal_times_leave_one_frame_apart_witness :
  timeline 16 0
    (fst (drain_blocks (roomy_jack 48000 (fun _ => JackPortIsOutput))
            (set_send_queue Client_new
               (enqueue_all [mkMessage 7 7 [144; 60; 100];
                             mkMessage 7 7 [144; 64; 100]]
                            (_midi_send_queue Client_new))) 7 16 2))
  = [(7, [144; 60; 100]); (7 + 1, [144; 64; 100])]
  /\ (7 + 1 < 16 ->
      forall b0 : port_buffer,
      exists c1,
        Client_send_messages_for_port
          (roomy_jack 48000 (fun _ => JackPortIsOutput))
          (set_send_queue Client_new
             (enqueue_all [mkMessage 7 7 [144; 60; 100];
                           mkMessage 7 7 [144; 64; 100]]
                          (_midi_send_queue Client_new))) 7 16 (Some b0)
        = (c1, Some [(7, [144; 60; 100]); (7 + 1, [144; 64; 100])])
        /\ on_port 7 (_midi_send_queue c1) = [])
  /\ (forall (c0 c1 : Client) (b0 b1 : port_buffer),
         Forall (fun m => is_nframes (time m)) (_midi_send_queue c0) ->
         Client_send_messages_for_port
           (roomy_jack 48000 (fun _ => JackPortIsOutput)) c0 7 16 (Some b0)
         = (c1, Some b1) ->
         StronglySorted event_lt b1).
Proof.
  apply (equal_times_leave_one_frame_apart
           (roomy_jack 48000 (fun _ => JackPortIsOutput)) Client_new
           7 16 7 [144; 60; 100] [144; 64; 100] 2).
  - intros b t n; reflexivity.
  - unfold NFRAMES_MODULUS; lia.
  - unfold is_nframes, NFRAMES_MODULUS; lia.
  - reflexivity.
  - simpl; lia.
Defined.

(** ** C3: an event two blocks ahead *)

(** C3, as stated, fails for an event that collides. Of two events sent
    for frame [2 * 4 + 3] on one port, drained in blocks of 4 frames, the
    second is not written by the third drain, which writes the first at
    offset 3 and pushes the second to offset 4, out of the block; the
    fourth drain writes it, at offset 0. And distinct times do not keep an
    event clear of collisions: when port 9 holds a message for frame 1029
    and gets no buffer for a block of 512 frames in which port 7 is
    drained, messages of port 7 sent for the frames 1539 (before that
    block), 1028 and 1029 (after it) stand in the queue with the times
    1028, 1027, 1029; the third drain pushes the second one to offset 5
    and the last one, sent for frame [2 * 512 + 5], to offset 6. The times
    are the doubles nearest to 1029.5 / 48000, 1539.5 / 48000 and
    1028.5 / 48000. *)
Lemma collision_moves_event_off_its_offset :
  fst (drain_blocks (roomy_jack 48000 (fun _ => JackPortIsOutput))
         (snd (Port_send (roomy_jack 48000 (fun _ => JackPortIsOutput)) true
                 (mkPort 7 true)
                 (snd (Port_send
                         (roomy_jack 48000 (fun _ => JackPortIsOutput)) true
                         (mkPort 7 true) Client_new
                         (PySequence [PyLong 144; PyLong 60; PyLong 100])
                         (11 # 48000)))
                 (PySequence [PyLong 144; PyLong 64; PyLong 100])
                 (11 # 48000)))
         7 4 4)
  = [Some []; Some []; Some [(3, [144; 60; 100])];
     Some [(0, [144; 64; 100])]]
  /\ map (fun m => (port m, time m))
         (_midi_send_queue unsorted_port_client)
     = [(7, 1028); (9, 1029); (7, 1027); (7, 1029)]
  /\ fst (drain_blocks (roomy_jack 48000 (fun _ => JackPortIsOutput))
            unsorted_port_client 7 512 3)
     = [Some []; Some [];
        Some [(4, [144; 61; 100]); (5, [144; 60; 100]); (6, [144; 62; 100])]].
Proof. repeat split; vm_compute; reflexivity. Qed.

(** What a drain writes, it adds after what the buffer holds, and it
    writes the bytes of messages of the queue only; the messages it leaves
    are messages of the queue, with their bytes. *)
Lemma send_loop_appends (jack : Jack) (p : jack_port_t) (n : Z)
      (q : list Message) :
  forall buffer count last,
    exists r,
      fst (send_loop jack p n q buffer count last) = buffer ++ r
      /\ Forall (fun e => In (snd e) (map data q)) r
      /\ incl (map data (snd (send_loop jack p n q buffer count last)))
              (map data q).
Proof.
  induction q as [|m next IH]; intros buffer count last; simpl.
  - exists []. rewrite app_nil_r. repeat split; [constructor | apply incl_refl].
  - assert (Hweak : forall r : port_buffer,
               Forall (fun e => In (snd e) (map data next)) r ->
               Forall (fun e => data m = snd e \/ In (snd e) (map data next))
                      r).
    { intros r Hr. eapply Forall_impl; [|exact Hr]. simpl. auto. }
    destruct (port m =? p).
    + match goal with
      | |- context [if ?c then wrap32 (last + 1) else time m] =>
          set (t := if c then wrap32 (last + 1) else time m)
      end.
      destruct (t <? n).
      * destruct (jack_midi_event_reserve jack buffer t (data_size m)).
        -- destruct (IH (buffer ++ [(t, data m)]) (count + 1) t)
             as (r & E & Hr & Hk).
           exists ((t, data m) :: r). rewrite E, <- app_assoc.
           repeat split; [constructor; simpl; auto|].
           now apply incl_tl.
        -- destruct (IH buffer (count + 1) t) as (r & E & Hr & Hk).
           exists r. repeat split; auto. now apply incl_tl.
      * destruct (IH buffer count last) as (r & E & Hr & Hk).
        destruct (send_loop jack p n next buffer count last) as [b q'].
        simpl in *. exists r. repeat split; auto.
        apply incl_cons; [now left | now apply incl_tl].
    + destruct (IH buffer count last) as (r & E & Hr & Hk).
      destruct (send_loop jack p n next buffer count last) as [b q'].
      simpl in *. exists r. repeat split; auto.
      apply incl_cons; [now left | now apply incl_tl].
Qed.

Lemma on_port_ports (p : jack_port_t) (q : list Message) :
  Forall (fun m => port m = p) (on_port p q).
Proof.
  unfold on_port. rewrite Forall_forall. intros m Hm.
  apply filter_In in Hm. destruct Hm as [_ Hm]. now apply Z.eqb_eq.
Qed.

Section DrainAhead.

Variable jack : Jack.
Variable p : jack_port_t.
Variable n : Z.

Hypothesis n_frames : is_nframes n.
Hypothesis room : always_room jack.

(** The loop over messages [A] of the port that stand in strictly
    increasing order of time, all before [hi], followed by anything: the
    messages of [A] in the block are written at their frames, the others
    are rebased, and the loop goes on behind [A] with a last written frame
    that is before [hi]. *)
Lemma send_loop_ahead (R : list Message) (hi : Z) (A : list Message) :
  Forall (fun m => port m = p /\ is_nframes (time m)) A ->
  StronglySorted time_lt A ->
  Forall (fun m => time m < hi) A ->
  forall buffer count last,
    (0 < count -> last < hi /\ Forall (fun m => last < time m) A) ->
    exists count' last',
      send_loop jack p n (A ++ R) buffer count last
      = (fst (send_loop jack p n R (buffer ++ emitted_now n A) count' last'),
         kept_later n A
         ++ snd (send_loop jack p n R (buffer ++ emitted_now n A)
                           count' last'))
      /\ (0 < count' -> last' < hi).
Proof.
  unfold emitted_now, kept_later.
  induction A as [|a A IH]; intros Hwf Hs Hhi buffer count last Hlast.
  - exists count, last. simpl. rewrite app_nil_r.
    split; [now destruct (send_loop jack p n R buffer count last)|].
    intros Hc. now apply Hlast.
  - inversion Hwf as [|? ? Hpt Hwf']; subst.
    inversion Hs as [|? ? Hs' Hall]; subst.
    inversion Hhi as [|? ? Ha Hhi']; subst.
    destruct Hpt as [Hp Ht].
    cbn [app send_loop]. rewrite Hp, Z.eqb_refl.
    assert (Hbump : ((0 <? count) && (time a <=? last)) = false).
    { destruct (0 <? count) eqn:Ec; [|reflexivity]. simpl.
      apply Z.ltb_lt in Ec. destruct (Hlast Ec) as [_ Hl].
      inversion Hl; subst. now apply Z.leb_gt. }
    rewrite Hbump. cbn [filter map].
    destruct (time a <? n) eqn:E; cbn [negb].
    + rewrite room.
      destruct (IH Hwf' Hs' Hhi' (buffer ++ [(time a, data a)])
                   (count + 1) (time a))
        as (count' & last' & Hrun & Hc').
      { intros _. split; [exact Ha|].
        eapply Forall_impl; [|exact Hall]. unfold time_lt. intros; lia. }
      exists count', last'. rewrite Hrun. cbn [map event_of app].
      rewrite <- app_assoc. split; [reflexivity | exact Hc'].
    + destruct (IH Hwf' Hs' Hhi' buffer count last)
        as (count' & last' & Hrun & Hc').
      { intros Hc. destruct (Hlast Hc) as [H1 H2].
        split; [exact H1 | now inversion H2]. }
      exists count', last'. rewrite Hrun. cbn [map app].
      apply Z.ltb_ge in E. unfold wrap32.
      pose proof n_frames as Hn. unfold is_nframes in *.
      rewrite Z.mod_small by lia.
      split; [reflexivity | exact Hc'].
Qed.

(** One drain around a message [x] of a later block that stands behind
    strictly earlier messages of its port, in increasing order: what the
    drain writes first comes from those, what it writes then from what
    stands behind [x], and [x] stays, one block nearer. *)
Lemma drain_ahead_keeps (c : Client) (A B : list Message) (x : Message)
      (buffer : port_buffer) :
  on_port p (_midi_send_queue c) = A ++ x :: B ->
  Forall (fun m => is_nframes (time m)) (A ++ [x]) ->
  StronglySorted time_lt (A ++ [x]) ->
  n <= time x ->
  exists c' r B',
    Client_send_messages_for_port jack c p n (Some buffer)
    = (c', Some (emitted_now n A ++ r))
    /\ on_port p (_midi_send_queue c')
       = kept_later n A ++ set_time x (time x - n) :: B'
    /\ Forall (fun e => In (snd e) (map data B)) r
    /\ incl (map data B') (map data B)
    /\ Forall (fun m => is_nframes (time m))
              (kept_later n A ++ [set_time x (time x - n)])
    /\ StronglySorted time_lt (kept_later n A ++ [set_time x (time x - n)]).
Proof.
  intros Hq Hwf Hs Hx.
  pose proof n_frames as Hn. unfold is_nframes in Hn.
  pose proof (on_port_ports p (_midi_send_queue c)) as Hports.
  rewrite Hq in Hports.
  apply Forall_app in Hports. destruct Hports as [HpA HpxB].
  pose proof (Forall_inv HpxB) as Hpx. simpl in Hpx.
  apply Forall_app in Hwf. destruct Hwf as [HwA Hwx].
  pose proof (Forall_inv Hwx) as Htx. simpl in Htx.
  assert (HsA : StronglySorted time_lt A /\ Forall (fun m => time m < time x) A).
  { clear - Hs. induction A as [|a A IH]; simpl in *;
      [split; constructor|].
    inversion Hs as [|? ? Hs' Hall]; subst.
    destruct (IH Hs') as [I1 I2].
    apply Forall_app in Hall. destruct Hall as [HallA Hallx].
    split; [now constructor|]. constructor; [|exact I2].
    now inversion Hallx. }
  destruct HsA as [HsA HltA].
  assert (HwfA : Forall (fun m => port m = p /\ is_nframes (time m)) A).
  { rewrite Forall_forall in *. intros m Hm. split; auto. }
  rewrite Client_send_messages_for_port_loop.
  destruct (send_loop_on_port jack p n (_midi_send_queue c) [] 0 0)
    as (H1 & H2 & _).
  rewrite Hq in H1, H2.
  destruct (send_loop_ahead (x :: B) (time x) A HwfA HsA HltA [] 0 0)
    as (count' & last' & Hrun & Hc'); [intros; lia|].
  rewrite Hrun in H1, H2. cbn [fst snd app] in H1, H2.
  cbn [send_loop] in H1, H2. rewrite Hpx, Z.eqb_refl in H1, H2.
  assert (Hbump : ((0 <? count') && (time x <=? last')) = false).
  { destruct (0 <? count') eqn:Ec; [|reflexivity]. simpl.
    apply Z.ltb_lt in Ec. specialize (Hc' Ec). apply Z.leb_gt. lia. }
  rewrite Hbump in H1, H2.
  assert (E : (time x <? n) = false) by (apply Z.ltb_ge; lia).
  rewrite E in H1, H2.
  destruct (send_loop_appends jack p n B (emitted_now n A) count' last')
    as (r & Er & Hr & Hk).
  destruct (send_loop jack p n B (emitted_now n A) count' last')
    as [b B'] eqn:EB.
  cbn [fst snd] in *.
  assert (Hw : wrap32 (time x - n) = time x - n).
  { unfold wrap32. unfold is_nframes in Htx. apply Z.mod_small. lia. }
  rewrite Hw in H2.
  assert (Hkept : kept_later n (A ++ [x])
                  = kept_later n A ++ [set_time x (time x - n)]).
  { rewrite kept_later_app. unfold kept_later at 2. simpl. now rewrite E. }
  eexists. exists r, B'. split; [|split; [|split; [|split; [|split]]]].
  - rewrite H1, Er. reflexivity.
  - simpl. exact H2.
  - exact Hr.
  - exact Hk.
  - rewrite <- Hkept.
    assert (Hboth : Forall (fun m => port m = p /\ is_nframes (time m))
                           (kept_later n (A ++ [x]))).
    { apply kept_later_wf; [lia|]. apply Forall_app. split; [exact HwfA|].
      constructor; [split; assumption | constructor]. }
    eapply Forall_impl; [|exact Hboth]. simpl. tauto.
  - rewrite <- Hkept. now apply kept_later_sorted.
Qed.

(** One drain around a message [x] of the block that stands behind
    strictly earlier messages of its port, in increasing order: [x] is
    written at its time, after what the drain writes of those, and leaves
    the queue. *)
Lemma drain_ahead_emits (c : Client) (A B : list Message) (x : Message)
      (buffer : port_buffer) :
  on_port p (_midi_send_queue c) = A ++ x :: B ->
  Forall (fun m => is_nframes (time m)) (A ++ [x]) ->
  StronglySorted time_lt (A ++ [x]) ->
  time x < n ->
  exists c' r B',
    Client_send_messages_for_port jack c p n (Some buffer)
    = (c', Some (emitted_now n A ++ (time x, data x) :: r))
    /\ on_port p (_midi_send_queue c') = kept_later n A ++ B'
    /\ Forall (fun e => In (snd e) (map data B)) r
    /\ incl (map data B') (map data B).
Proof.
  intros Hq Hwf Hs Hx.
  pose proof (on_port_ports p (_midi_send_queue c)) as Hports.
  rewrite Hq in Hports.
  apply Forall_app in Hports. destruct Hports as [HpA HpxB].
  pose proof (Forall_inv HpxB) as Hpx. simpl in Hpx.
  apply Forall_app in Hwf. destruct Hwf as [HwA Hwx].
  assert (HsA : StronglySorted time_lt A /\ Forall (fun m => time m < time x) A).
  { clear - Hs. induction A as [|a A IH]; simpl in *;
      [split; constructor|].
    inversion Hs as [|? ? Hs' Hall]; subst.
    destruct (IH Hs') as [I1 I2].
    apply Forall_app in Hall. destruct Hall as [HallA Hallx].
    split; [now constructor|]. constructor; [|exact I2].
    now inversion Hallx. }
  destruct HsA as [HsA HltA].
  assert (HwfA : Forall (fun m => port m = p /\ is_nframes (time m)) A).
  { rewrite Forall_forall in *. intros m Hm. split; auto. }
  rewrite Client_send_messages_for_port_loop.
  destruct (send_loop_on_port jack p n (_midi_send_queue c) [] 0 0)
    as (H1 & H2 & _).
  rewrite Hq in H1, H2.
  destruct (send_loop_ahead (x :: B) (time x) A HwfA HsA HltA [] 0 0)
    as (count' & last' & Hrun & Hc'); [intros; lia|].
  rewrite Hrun in H1, H2. cbn [fst snd app] in H1, H2.
  cbn [send_loop] in H1, H2. rewrite Hpx, Z.eqb_refl in H1, H2.
  assert (Hbump : ((0 <? count') && (time x <=? last')) = false).
  { destruct (0 <? count') eqn:Ec; [|reflexivity]. simpl.
    apply Z.ltb_lt in Ec. specialize (Hc' Ec). apply Z.leb_gt. lia. }
  rewrite Hbump in H1, H2.
  assert (E : (time x <? n) = true) by (apply Z.ltb_lt; lia).
  rewrite E, room in H1, H2.
  destruct (send_loop_appends jack p n B
              (emitted_now n A ++ [(time x, data x)]) (count' + 1) (time x))
    as (r & Er & Hr & Hk).
  eexists. exists r. eexists. split; [|split; [|split]].
  - rewrite H1, Er, <- app_assoc. reflexivity.
  - simpl. exact H2.
  - exact Hr.
  - exact Hk.
Qed.

End DrainAhead.

(** C3 (amended): a message [m] enqueued for frame [2 * n + k],
    [0 <= k < n], on a port of which the messages that stand before it in
    the queue ([l1]) are in strictly increasing order of time and all
    before it, whatever stands behind it ([l2]), and three successive
    drains of blocks of [n] frames. The first two drains write events of
    [l1], then events of messages behind [m], and leave [m] queued, its
    time lowered by [n] each time; the third writes the bytes of [m] at
    offset [k], after the events of [l1], and takes it off the queue. *)
Theorem two_blocks_ahead_leaves_on_third_drain (jack : Jack) (c : Client)
        (p : jack_port_t) (n k : Z) (m : Message) (l1 l2 : list Message)
        (buffer1 buffer2 buffer3 : port_buffer) :
  always_room jack ->
  is_nframes n ->
  on_port p (_midi_send_queue c) = l1 ++ m :: l2 ->
  Forall (fun x => is_nframes (time x)) (l1 ++ [m]) ->
  StronglySorted time_lt (l1 ++ [m]) ->
  time m = 2 * n + k ->
  0 <= k < n ->
  exists c1 c2 c3 r1 r2 r3 q1 q2 q3,
    Client_send_messages_for_port jack c p n (Some buffer1)
    = (c1, Some (emitted_now n l1 ++ r1))
    /\ on_port p (_midi_send_queue c1)
       = rebased n 1 l1 ++ set_time m (n + k) :: q1
    /\ Client_send_messages_for_port jack c1 p n (Some buffer2)
       = (c2, Some (emitted_now n (rebased n 1 l1) ++ r2))
    /\ on_port p (_midi_send_queue c2)
       = rebased n 2 l1 ++ set_time m k :: q2
    /\ Client_send_messages_for_port jack c2 p n (Some buffer3)
       = (c3, Some (emitted_now n (rebased n 2 l1) ++ (k, data m) :: r3))
    /\ on_port p (_midi_send_queue c3) = rebased n 3 l1 ++ q3
    /\ Forall (fun e => In (snd e) (map data l2)) (r1 ++ r2 ++ r3)
    /\ incl (map data q3) (map data l2).
Proof.
  intros Hroom Hn Hq Hwf Hs Ht Hk.
  destruct (drain_ahead_keeps jack p n Hn Hroom c l1 l2 m buffer1 Hq Hwf Hs)
    as (c1 & r1 & q1 & E1 & Q1 & R1 & K1 & W1 & S1); [lia|].
  replace (time m - n) with (n + k) in * by lia.
  destruct (drain_ahead_keeps jack p n Hn Hroom c1 _ _ _ buffer2 Q1 W1 S1)
    as (c2 & r2 & q2 & E2 & Q2 & R2 & K2 & W2 & S2); [simpl; lia|].
  simpl time in *. replace (n + k - n) with k in * by lia.
  destruct (drain_ahead_emits jack p n Hn Hroom c2 _ _ _ buffer3 Q2 W2 S2)
    as (c3 & r3 & q3 & E3 & Q3 & R3 & K3); [simpl; lia|].
  exists c1, c2, c3, r1, r2, r3, q1, q2, q3. unfold rebased. simpl.
  repeat split; try assumption.
  - rewrite !Forall_app. repeat split.
    + exact R1.
    + eapply Forall_impl; [|exact R2]. simpl. intros e He. now apply K1.
    + eapply Forall_impl; [|exact R3]. simpl. intros e He.
      now apply K1, K2.
  - intros d Hd. now apply K1, K2, K3.
Qed.

Lemma two_blocks_ahead_leaves_on_third_drain_witness :
  exists c1 c2 c3 r1 r2 r3 q1 q2 q3,
    Client_send_messages_for_port
      (roomy_jack 48000 (fun _ => JackPortIsOutput))
      (set_send_queue Client_new
         [mkMessage 7 3 [144; 60; 100]; mkMessage 9 1 [192; 5];
          mkMessage 7 1029 [144; 64; 100]; mkMessage 7 1029 [144; 67; 100];
          mkMessage 7 1000 [128; 60; 0]])
      7 512 (Some [])
    = (c1, Some (emitted_now 512 [mkMessage 7 3 [144; 60; 100]] ++ r1))
    /\ on_port 7 (_midi_send_queue c1)
       = rebased 512 1 [mkMessage 7 3 [144; 60; 100]]
         ++ set_time (mkMessage 7 1029 [144; 64; 100]) (512 + 5) :: q1
    /\ Client_send_messages_for_port
         (roomy_jack 48000 (fun _ => JackPortIsOutput)) c1 7 512 (Some [])
       = (c2, Some (emitted_now 512
                      (rebased 512 1 [mkMessage 7 3 [144; 60; 100]])
                    ++ r2))
    /\ on_port 7 (_midi_send_queue c2)
       = rebased 512 2 [mkMessage 7 3 [144; 60; 100]]
         ++ set_time (mkMessage 7 1029 [144; 64; 100]) 5 :: q2
    /\ Client_send_messages_for_port
         (roomy_jack 48000 (fun _ => JackPortIsOutput)) c2 7 512 (Some [])
       = (c3, Some (emitted_now 512
                      (rebased 512 2 [mkMessage 7 3 [144; 60; 100]])
                    ++ (5, data (mkMessage 7 1029 [144; 64; 100])) :: r3))
    /\ on_port 7 (_midi_send_queue c3)
       = rebased 512 3 [mkMessage 7 3 [144; 60; 100]] ++ q3
    /\ Forall (fun e =>
                 In (snd e)
                    (map data [mkMessage 7 1029 [144; 67; 100];
                               mkMessage 7 1000 [128; 60; 0]]))
              (r1 ++ r2 ++ r3)
    /\ incl (map data q3)
            (map data [mkMessage 7 1029 [144; 67; 100];
                       mkMessage 7 1000 [128; 60; 0]]).
Proof.
  apply (two_blocks_ahead_leaves_on_third_drain
           (roomy_jack 48000 (fun _ => JackPortIsOutput))
           (set_send_queue Client_new
              [mkMessage 7 3 [144; 60; 100]; mkMessage 9 1 [192; 5];
               mkMessage 7 1029 [144; 64; 100];
               mkMessage 7 1029 [144; 67; 100];
               mkMessage 7 1000 [128; 60; 0]])
           7 512 5 (mkMessage 7 1029 [144; 64; 100])
           [mkMessage 7 3 [144; 60; 100]]
           [mkMessage 7 1029 [144; 67; 100]; mkMessage 7 1000 [128; 60; 0]]).
  - intros b t n; reflexivity.
  - unfold is_nframes, NFRAMES_MODULUS; lia.
  - reflexivity.
  - unfold is_nframes, NFRAMES_MODULUS; repeat constructor; simpl; lia.
  - unfold time_lt; repeat constructor; simpl; lia.
  - reflexivity.
  - lia.
Defined.

(** ** C4: the receive queue *)

Lemma on_port_app (p : jack_port_t) (a b : list Message) :
  on_port p (a ++ b) = on_port p a ++ on_port p b.
Proof. apply filter_app. Qed.

Lemma receive_loop_app (p : jack_port_t) (start_frame : Z)
      (events : list fetch) :
  forall q, receive_loop p start_frame events q
            = q ++ receive_loop p start_frame events [].
Proof.
  induction events as [|e events IH]; intros q; simpl.
  - now rewrite app_nil_r.
  - destruct e as [[t bytes] [|]|]; auto.
    rewrite IH. rewrite (IH [_]). now rewrite <- app_assoc.
Qed.

(** The scan takes the first message of the port and nothing else. *)
Lemma receive_scan_some (p : jack_port_t) (q : list Message) :
  forall m rest,
    receive_scan p q = Some (m, rest) ->
    exists a b, q = a ++ m :: b /\ rest = a ++ b
                /\ on_port p a = [] /\ port m = p.
Proof.
  induction q as [|x q IH]; simpl; intros m rest H; [discriminate|].
  destruct (port x =? p) eqn:E.
  - inversion H; subst. exists [], rest. apply Z.eqb_eq in E. auto.
  - destruct (receive_scan p q) as [[found rest']|]; [|discriminate].
    inversion H; subst.
    destruct (IH m rest' eq_refl) as (a & b & -> & -> & Ha & Hm).
    exists (x :: a), b. simpl. rewrite E. auto.
Qed.

Lemma Client_activate_queues (jack : Jack) (c : Client) :
  _midi_send_queue (Client_activate jack c) = _midi_send_queue c
  /\ _midi_receive_queue (Client_activate jack c) = _midi_receive_queue c.
Proof.
  unfold Client_activate, Client_open.
  destruct (_client c =? NULL); simpl;
    repeat match goal with
           | |- context [if ?b then _ else _] => destruct b; simpl
           end; auto.
Qed.

(** A fill appends what it received and touches nothing else of the
    queue. *)
Lemma Client_receive_messages_for_port_queue (c : Client) (p : jack_port_t)
      (buffer : option (list fetch)) (start_frame : Z) :
  _midi_receive_queue
    (Client_receive_messages_for_port c p buffer start_frame)
  = _midi_receive_queue c ++ arrivals [Fill p buffer start_frame].
Proof.
  destruct buffer as [events|]; cbn [arrivals];
    [|simpl; now rewrite app_nil_r].
  rewrite app_nil_r, <- receive_loop_app.
  destruct events; reflexivity.
Qed.

(** A call of [Port_receive] either returns the oldest message of its port
    and takes it, and only it, off the queue, or returns no message and
    leaves the queue as it was. *)
Lemma Port_receive_cases (jack : Jack) (self : Port) (c : Client) :
  (exists a m b,
      fst (Port_receive jack self c)
      = Returned (Some (received (jack_get_sample_rate jack) m))
      /\ _midi_receive_queue c = a ++ m :: b
      /\ on_port (_port self) a = []
      /\ port m = _port self
      /\ _midi_receive_queue (snd (Port_receive jack self c)) = a ++ b)
  \/ ((forall x, fst (Port_receive jack self c) <> Returned (Some x))
      /\ _midi_receive_queue (snd (Port_receive jack self c))
         = _midi_receive_queue c).
Proof.
  unfold Port_receive.
  destruct (negb (_is_mine self));
    [right; split; [intros x; discriminate | reflexivity]|].
  destruct (Z.land (jack_port_flags jack (_port self)) JackPortIsInput =? 0);
    [right; split; [intros x; discriminate | reflexivity]|].
  destruct (Client_activate_queues jack c) as [_ Hq].
  destruct (_midi_receive_queue (Client_activate jack c)) as [|x q] eqn:E;
    [right; split; [intros y; discriminate | simpl; congruence]|].
  destruct (_client (Client_activate jack c) =? NULL);
    [right; split; [intros y; discriminate | simpl; congruence]|].
  destruct (receive_scan (_port self) (x :: q)) as [[m rest]|] eqn:Es;
    [|right; split; [intros y; discriminate | simpl; congruence]].
  left. destruct (receive_scan_some _ _ _ _ Es) as (a & b & Hab & -> & Ha & Hm).
  exists a, m, b. simpl. repeat split; auto. congruence.
Qed.

(** Whatever the interleaving of fills and pops, on whatever ports, no
    message of a port is lost or made up: what the pops returned to port
    [p], followed by what is still queued for [p], is what was queued for
    [p] at the start followed by what the fills appended for [p]. And a pop
    that returns a message has taken the oldest queued message of its
    port, and nothing else, off the queue. *)
Lemma run_receive_conserves_arrivals (jack : Jack)
      (ops : list receive_op) (c : Client) (p : jack_port_t) :
  map (received (jack_get_sample_rate jack))
      (on_port p (_midi_receive_queue c ++ arrivals ops))
  = popped_by p (fst (run_receive jack ops c))
    ++ map (received (jack_get_sample_rate jack))
           (on_port p (_midi_receive_queue (snd (run_receive jack ops c))))
  /\ (forall (self : Port) (x : list Z * Q) (c' : Client),
         Port_receive jack self c = (Returned (Some x), c') ->
         exists a m b,
           _midi_receive_queue c = a ++ m :: b
           /\ on_port (_port self) a = []
           /\ port m = _port self
           /\ x = received (jack_get_sample_rate jack) m
           /\ _midi_receive_queue c' = a ++ b).
Proof.
  split.
  - revert c. induction ops as [|op ops IH]; intros c.
    + simpl. now rewrite app_nil_r.
    + destruct op as [p' buffer start_frame | self].
      * cbn [run_receive]. rewrite <- IH.
        rewrite Client_receive_messages_for_port_queue.
        rewrite <- app_assoc. do 3 f_equal.
        destruct buffer as [events|]; simpl; [|reflexivity].
        now rewrite app_nil_r.
      * cbn [run_receive arrivals].
        specialize (IH (snd (Port_receive jack self c))).
        destruct (Port_receive_cases jack self c)
          as [(a & m & b & Hr & Hq & Ha & Hm & Hq') | [Hr Hq']].
        -- destruct (Port_receive jack self c) as [r c1]. simpl in *.
           destruct (run_receive jack ops c1) as [popped c2]. simpl in *.
           subst r. rewrite Hq' in IH. rewrite Hq.
           unfold popped_by in *. simpl.
           rewrite <- app_assoc in *. simpl.
           rewrite on_port_app in *. simpl. rewrite Hm.
           destruct (_port self =? p) eqn:E.
           ++ apply Z.eqb_eq in E. subst p. rewrite Ha in *. simpl in *.
              rewrite IH. reflexivity.
           ++ exact IH.
        -- destruct (Port_receive jack self c) as [r c1]. simpl in *.
           destruct (run_receive jack ops c1) as [popped c2]. simpl in *.
           rewrite Hq' in IH. rewrite IH.
           destruct r as [[x|]| |]; try reflexivity.
           exfalso. exact (Hr x eq_refl).
  - intros self x c' H.
    destruct (Port_receive_cases jack self c)
      as [(a & m & b & Hr & Hq & Ha & Hm & Hq') | [Hr _]];
      rewrite H in *; simpl in *.
    + exists a, m, b. inversion Hr; subst. auto.
    + exfalso. exact (Hr x eq_refl).
Qed.

(** What a fill appends: the events of the buffer that were fetched and
    allocated, in the order of the buffer, each stamped with its port and
    the frame of the transport. *)
Lemma receive_loop_delivered (p : jack_port_t) (start_frame : Z)
      (events : list fetch) :
  forall q, receive_loop p start_frame events q
            = q ++ map (stamp p start_frame) (delivered events).
Proof.
  induction events as [|e events IH]; intros q; simpl.
  - now rewrite app_nil_r.
  - destruct e as [[t bytes] [|]|]; simpl; auto.
    rewrite IH, <- app_assoc. reflexivity.
Qed.

Lemma set_send_queue_same (c : Client) :
  set_send_queue c (_midi_send_queue c) = c.
Proof. destruct c; reflexivity. Qed.

Lemma set_receive_queue_same (c : Client) :
  set_receive_queue c (_midi_receive_queue c) = c.
Proof. destruct c; reflexivity. Qed.

Lemma receive_scan_none (p : jack_port_t) (q : list Message) :
  on_port p q = [] -> receive_scan p q = None.
Proof.
  induction q as [|m q IH]; simpl; intros H; [reflexivity|].
  destruct (port m =? p); [discriminate|]. now rewrite (IH H).
Qed.

Lemma Client_receive_messages_for_port_filled (c : Client) (f : fill) :
  Client_receive_messages_for_port c (fill_port f) (fill_buffer f)
                                   (fill_start f)
  = set_receive_queue c (_midi_receive_queue c ++ filled f).
Proof.
  destruct f as [p [events|] s]; unfold filled; simpl.
  - destruct events as [|e events].
    + simpl. rewrite app_nil_r. symmetry. apply set_receive_queue_same.
    + now rewrite receive_loop_delivered.
  - rewrite app_nil_r. symmetry. apply set_receive_queue_same.
Qed.

Lemma fill_all_filled (fills : list fill) :
  forall c,
    fill_all fills c
    = set_receive_queue c
        (_midi_receive_queue c ++ List.concat (map filled fills)).
Proof.
  unfold fill_all.
  induction fills as [|f fills IH]; intros c; simpl.
  - rewrite app_nil_r. symmetry. apply set_receive_queue_same.
  - rewrite IH, Client_receive_messages_for_port_filled. simpl.
    now rewrite <- app_assoc.
Qed.

(** [Client_activate] leaves an active client with a handle as it is. *)
Lemma Client_activate_active (jack : Jack) (c : Client) :
  _client c <> NULL -> is_active c = true -> Client_activate jack c = c.
Proof.
  intros Hopen Hact. unfold Client_activate, Client_open.
  apply Z.eqb_neq in Hopen. now rewrite Hopen, Hopen, Hact.
Qed.

(** The scan goes past the messages of other ports and stops at the first
    message of its port. *)
Lemma receive_scan_oldest (p : jack_port_t) (a b : list Message)
      (m : Message) :
  on_port p a = [] -> port m = p ->
  receive_scan p (a ++ m :: b) = Some (m, a ++ b).
Proof.
  intros Ha Hm. induction a as [|x a IH]; simpl.
  - now rewrite Hm, Z.eqb_refl.
  - simpl in Ha. destruct (port x =? p); [discriminate|].
    now rewrite (IH Ha).
Qed.

Lemma on_port_first (p : jack_port_t) (q : list Message) :
  forall m l,
    on_port p q = m :: l ->
    exists a b, q = a ++ m :: b /\ on_port p a = [] /\ port m = p
                /\ on_port p b = l.
Proof.
  induction q as [|x q IH]; simpl; intros m l H; [discriminate|].
  destruct (port x =? p) eqn:E.
  - inversion H; subst. exists [], q. apply Z.eqb_eq in E. auto.
  - destruct (IH m l H) as (a & b & -> & Ha & Hm & Hb).
    exists (x :: a), b. simpl. rewrite E. auto.
Qed.

Section Pops.

Variable jack : Jack.
Variable self : Port.

Hypothesis mine : _is_mine self = true.
Hypothesis input :
  Z.land (jack_port_flags jack (_port self)) JackPortIsInput <> 0.

(** A pop with a message of the port queued returns the oldest one and
    unlinks it, whatever is queued around it. *)
Lemma Port_receive_oldest (c : Client) (a b : list Message) (m : Message) :
  _client c <> NULL ->
  is_active c = true ->
  _midi_receive_queue c = a ++ m :: b ->
  on_port (_port self) a = [] ->
  port m = _port self ->
  Port_receive jack self c
  = (Returned
       (Some (data m,
              nframes_to_seconds (time m) (jack_get_sample_rate jack))),
     set_receive_queue c (a ++ b)).
Proof.
  intros Hopen Hact Hq Ha Hm. unfold Port_receive.
  rewrite mine. cbn [negb].
  pose proof input as Hin. apply Z.eqb_neq in Hin. rewrite Hin.
  rewrite (Client_activate_active jack c Hopen Hact), Hq.
  apply Z.eqb_neq in Hopen. rewrite Hopen.
  pose proof (receive_scan_oldest (_port self) a b m Ha Hm) as Hscan.
  destruct (a ++ m :: b) as [|x q]; [discriminate|].
  now rewrite Hscan.
Qed.

(** A pop with no message of the port queued returns [None] and changes
    nothing. *)
Lemma Port_receive_nothing (c : Client) :
  _client c <> NULL ->
  is_active c = true ->
  on_port (_port self) (_midi_receive_queue c) = [] ->
  Port_receive jack self c = (Returned None, c).
Proof.
  intros Hopen Hact Hq. unfold Port_receive.
  rewrite mine. cbn [negb].
  pose proof input as Hin. apply Z.eqb_neq in Hin. rewrite Hin.
  rewrite (Client_activate_active jack c Hopen Hact).
  apply Z.eqb_neq in Hopen. rewrite Hopen.
  pose proof (receive_scan_none _ _ Hq) as Hscan.
  destruct (_midi_receive_queue c) as [|x q]; [reflexivity|].
  now rewrite Hscan.
Qed.

(** Pops in a row return the messages of the port from the oldest on, then
    [None], and leave the later ones and those of the other ports. *)
Lemma receive_all_oldest (k : nat) :
  forall c,
    _client c <> NULL ->
    is_active c = true ->
    fst (receive_all jack self k c)
    = map (fun m =>
             Returned
               (Some (data m,
                      nframes_to_seconds (time m)
                                         (jack_get_sample_rate jack))))
          (firstn k (on_port (_port self) (_midi_receive_queue c)))
      ++ repeat (Returned None)
                (k - List.length
                       (on_port (_port self) (_midi_receive_queue c)))
    /\ on_port (_port self)
               (_midi_receive_queue (snd (receive_all jack self k c)))
       = skipn k (on_port (_port self) (_midi_receive_queue c))
    /\ off_port (_port self)
                (_midi_receive_queue (snd (receive_all jack self k c)))
       = off_port (_port self) (_midi_receive_queue c).
Proof.
  induction k as [|k IH]; intros c Hopen Hact; [simpl; auto|].
  cbn [receive_all].
  destruct (on_port (_port self) (_midi_receive_queue c)) as [|m l] eqn:Hq.
  - rewrite (Port_receive_nothing c Hopen Hact Hq).
    destruct (IH c Hopen Hact) as (I1 & I2 & I3).
    destruct (receive_all jack self k c) as [rs c']. simpl in *.
    rewrite Hq in *. rewrite firstn_nil in I1. simpl in I1.
    rewrite Nat.sub_0_r in I1. rewrite skipn_nil in I2.
    subst rs. auto.
  - destruct (on_port_first _ _ _ _ Hq) as (a & b & Hab & Ha & Hm & Hb).
    rewrite (Port_receive_oldest c a b m Hopen Hact Hab Ha Hm).
    destruct (IH (set_receive_queue c (a ++ b)) Hopen Hact) as (I1 & I2 & I3).
    destruct (receive_all jack self k (set_receive_queue c (a ++ b)))
      as [rs c']. simpl in *.
    assert (Hon : on_port (_port self) (a ++ b) = l).
    { unfold on_port in *. now rewrite filter_app, Ha, Hb. }
    assert (Hoff : off_port (_port self) (a ++ b)
                   = off_port (_port self) (_midi_receive_queue c)).
    { rewrite Hab. unfold off_port. rewrite !filter_app. simpl.
      apply Z.eqb_eq in Hm. now rewrite Hm. }
    rewrite Hon in I1, I2. rewrite Hoff in I3. subst rs. auto.
Qed.

End Pops.

(** C4: fills, on whatever ports and in whatever interleaving, append
    their events to the receive queue in the order they come, each stamped
    with its port and the transport frame; a pop for a port of an active
    client with a message of the port queued returns the oldest such
    message, whatever is queued around it for other ports, and takes it,
    and only it, off the queue; a pop with none queued returns [None]; so
    [k] pops in a row return the first [k] messages of the port in their
    order of arrival ([None] once they are out) and leave the later ones
    and those of the other ports queued. *)
Theorem pops_return_port_messages_in_arrival_order (jack : Jack)
        (c : Client) (fills : list fill) (self : Port) :
  _is_mine self = true ->
  Z.land (jack_port_flags jack (_port self)) JackPortIsInput <> 0 ->
  _client c <> NULL ->
  is_active c = true ->
  fill_all fills c
  = set_receive_queue c
      (_midi_receive_queue c ++ List.concat (map filled fills))
  /\ (forall a m b,
         _midi_receive_queue c ++ List.concat (map filled fills)
         = a ++ m :: b ->
         on_port (_port self) a = [] ->
         port m = _port self ->
         Port_receive jack self (fill_all fills c)
         = (Returned
              (Some (data m,
                     nframes_to_seconds (time m)
                                        (jack_get_sample_rate jack))),
            set_receive_queue c (a ++ b)))
  /\ (on_port (_port self)
              (_midi_receive_queue c ++ List.concat (map filled fills)) = [] ->
      Port_receive jack self (fill_all fills c)
      = (Returned None, fill_all fills c))
  /\ (forall k,
         fst (receive_all jack self k (fill_all fills c))
         = map (fun m =>
                  Returned
                    (Some (data m,
                           nframes_to_seconds (time m)
                                              (jack_get_sample_rate jack))))
               (firstn k
                  (on_port (_port self)
                     (_midi_receive_queue c
                      ++ List.concat (map filled fills))))
           ++ repeat (Returned None)
                     (k - List.length
                            (on_port (_port self)
                               (_midi_receive_queue c
                                ++ List.concat (map filled fills))))
         /\ on_port (_port self)
                    (_midi_receive_queue
                       (snd (receive_all jack self k (fill_all fills c))))
            = skipn k
                (on_port (_port self)
                   (_midi_receive_queue c ++ List.concat (map filled fills)))
         /\ off_port (_port self)
                     (_midi_receive_queue
                        (snd (receive_all jack self k (fill_all fills c))))
            = off_port (_port self)
                (_midi_receive_queue c ++ List.concat (map filled fills))).
Proof.
  intros Hmine Hin Hopen Hact.
  rewrite (fill_all_filled fills c).
  set (Q := _midi_receive_queue c ++ List.concat (map filled fills)).
  split; [reflexivity|]. split; [|split].
  - intros a m b Hab Ha Hm.
    now rewrite (Port_receive_oldest jack self Hmine Hin
                   (set_receive_queue c Q) a b m Hopen Hact Hab Ha Hm).
  - intros Hq.
    now apply (Port_receive_nothing jack self Hmine Hin
                 (set_receive_queue c Q) Hopen Hact).
  - intros k.
    exact (receive_all_oldest jack self Hmine Hin k (set_receive_queue c Q)
             Hopen Hact).
Qed.

Lemma pops_return_port_messages_in_arrival_order_witness :
  fill_all [mkFill 9 (Some [Fetched (100, [144; 64; 127]) true]) 48000;
            mkFill 8 (Some [Fetched (3, [192; 5]) true]) 48000;
            mkFill 9 (Some [FetchFailed; Fetched (7, [128; 64; 0]) true])
                   48512]
           (mkClient true 1 0 [] [] 2 [9; 8] [])
  = set_receive_queue (mkClient true 1 0 [] [] 2 [9; 8] [])
      [mkMessage 9 48100 [144; 64; 127]; mkMessage 8 48003 [192; 5];
       mkMessage 9 48519 [128; 64; 0]]
  /\ fst (receive_all (roomy_jack 48000 (fun _ => JackPortIsInput))
                      (mkPort 9 true) 3
                      (fill_all
                         [mkFill 9 (Some [Fetched (100, [144; 64; 127]) true])
                                 48000;
                          mkFill 8 (Some [Fetched (3, [192; 5]) true]) 48000;
                          mkFill 9
                                 (Some [FetchFailed;
                                        Fetched (7, [128; 64; 0]) true])
                                 48512]
                         (mkClient true 1 0 [] [] 2 [9; 8] [])))
     = [Returned (Some ([144; 64; 127], nframes_to_seconds 48100 48000));
        Returned (Some ([128; 64; 0], nframes_to_seconds 48519 48000));
        Returned None].
Proof.
  destruct (pops_return_port_messages_in_arrival_order
              (roomy_jack 48000 (fun _ => JackPortIsInput))
              (mkClient true 1 0 [] [] 2 [9; 8] [])
              [mkFill 9 (Some [Fetched (100, [144; 64; 127]) true]) 48000;
               mkFill 8 (Some [Fetched (3, [192; 5]) true]) 48000;
               mkFill 9 (Some [FetchFailed; Fetched (7, [128; 64; 0]) true])
                      48512]
              (mkPort 9 true))
    as (H1 & _ & _ & H4).
  - reflexivity.
  - vm_compute; discriminate.
  - vm_compute; discriminate.
  - reflexivity.
  - split.
    + exact H1.
    + exact (proj1 (H4 3%nat)).
Defined.

(** ** [Port_send], case by case *)






(** A client with a handle that is active, or of which the activation
    succeeds, comes out of [Client_activate] with no exception set. *)
Lemma Client_activate_error_none (jack : Jack) (c : Client) :
  _client c <> NULL ->
  is_active c = true \/ jack_activate jack = 0 ->
  Client_activate_error jack c = None.
Proof.
  intros Hopen Hact. apply Z.eqb_neq in Hopen.
  unfold Client_activate_error, Client_open_error, Client_open.
  rewrite Hopen. simpl. rewrite Hopen.
  destruct (is_active c); [reflexivity|].
  destruct Hact as [Hact|Hact]; [discriminate|]. now rewrite Hact.
Qed.

(** A call of [Port_send] either links one message, made of the port, the
    converted time and the bytes of the payload, into the send queue, and
    then returns, or is a [SystemError] when [Client_activate] left an
    exception set; or it returns no value and leaves both queues as they
    were. *)
Lemma Port_send_cases (jack : Jack) (malloc_ok : bool) (self : Port)
      (c : Client) (payload : PyObject) (seconds : Q) :
  (exists items t bytes r,
      payload = PySequence items
      /\ malloc_ok = true
      /\ seconds_to_nframes seconds (jack_get_sample_rate jack) = Some t
      /\ send_bytes (Client_activate_error jack c) items = Returned bytes
      /\ Port_send jack malloc_ok self c payload seconds
         = (r,
            set_send_queue (Client_activate jack c)
              (send_queue_insert (mkMessage (_port self) t bytes)
                                 (_midi_send_queue c)))
      /\ (r = Returned tt /\ Client_activate_error jack c = None
          \/ r = Raised SystemError "returned a result with an exception set"
             /\ Client_activate_error jack c <> None))
  \/ (fst (Port_send jack malloc_ok self c payload seconds) <> Returned tt
      /\ _midi_send_queue (snd (Port_send jack malloc_ok self c payload
                                          seconds))
         = _midi_send_queue c
      /\ _midi_receive_queue (snd (Port_send jack malloc_ok self c payload
                                             seconds))
         = _midi_receive_queue c).
Proof.
  destruct (Client_activate_queues jack c) as [Hs Hr].
  unfold Port_send.
  destruct payload as [items|];
    [|right; repeat split; simpl; auto; discriminate].
  destruct (negb (_is_mine self));
    [right; repeat split; simpl; auto; discriminate|].
  destruct (Z.land (jack_port_flags jack (_port self)) JackPortIsOutput =? 0);
    [right; repeat split; simpl; auto; discriminate|].
  destruct (_client (Client_activate jack c) =? NULL);
    [right; repeat split; simpl; auto; discriminate|].
  destruct malloc_ok; simpl;
    [|right; repeat split; simpl; auto; discriminate].
  destruct (seconds_to_nframes seconds (jack_get_sample_rate jack))
    as [t|] eqn:Et;
    [|right; repeat split; simpl; auto; discriminate].
  destruct (send_bytes (Client_activate_error jack c) items)
    as [bytes|e s|] eqn:Eb;
    [|right; repeat split; simpl; auto; discriminate ..].
  left. rewrite Hs.
  destruct (Client_activate_error jack c) as [[e s]|] eqn:Ep.
  - exists items, t, bytes,
      (Raised SystemError "returned a result with an exception set").
    repeat split; try assumption; try reflexivity.
    right. split; [reflexivity | discriminate].
  - exists items, t, bytes, (Returned tt).
    repeat split; try assumption; try reflexivity.
    left. split; reflexivity.
Qed.

(** ** C5: negative times *)

(** The transport setter clamps: a negative time sets the transport where
    time [0] does. *)
Lemma Transport_set_time_clamps (jack : Jack) (c : Client) (value : Q) :
  (value < 0)%Q ->
  Transport_set_time jack c value = Transport_set_time jack c 0%Q.
Proof.
  intros H. unfold Transport_set_time, clamp_time, Qlt_bool.
  replace (Qle_bool 0 value) with false; [reflexivity|].
  symmetry. apply not_true_is_false. intros Hle.
  apply Qle_bool_iff in Hle. apply Qle_not_lt in Hle. contradiction.
Qed.

(** C5, at [Port.send([0x90, 0x40, 0x7F], -1.0)] with 48000 frames per
    second: [Port_send] has no guard, so it converts [-48000.0] to
    [jack_nframes_t], which has no defined result, where time [0.0] queues
    the message for frame [0]; [Transport_set_time] asks for frame [0] for
    both. *)
Theorem Port_send_negative_time_not_clamped :
  seconds_to_nframes (-1 # 1) 48000 = None
  /\ fst (Port_send (roomy_jack 48000 (fun _ => JackPortIsOutput)) true
                    (mkPort 7 true) Client_new
                    (PySequence [PyLong 144; PyLong 64; PyLong 127])
                    (-1 # 1))
     = Undefined
  /\ _midi_send_queue
       (snd (Port_send (roomy_jack 48000 (fun _ => JackPortIsOutput)) true
                       (mkPort 7 true) Client_new
                       (PySequence [PyLong 144; PyLong 64; PyLong 127])
                       (-1 # 1)))
     = []
  /\ _midi_send_queue
       (snd (Port_send (roomy_jack 48000 (fun _ => JackPortIsOutput)) true
                       (mkPort 7 true) Client_new
                       (PySequence [PyLong 144; PyLong 64; PyLong 127])
                       0%Q))
     = [mkMessage 7 0 [144; 64; 127]]
  /\ fst (Transport_set_time (roomy_jack 48000 (fun _ => JackPortIsOutput))
                             Client_new (-1 # 1))
     = Returned 0
  /\ fst (Transport_set_time (roomy_jack 48000 (fun _ => JackPortIsOutput))
                             Client_new 0%Q)
     = Returned 0.
Proof. repeat split; vm_compute; reflexivity. Qed.

(** ** C6: a port over the limit *)

Lemma on_port_off_port (p p' : jack_port_t) (q : list Message) :
  p <> p' -> on_port p (off_port p' q) = on_port p q.
Proof.
  intros Hne. induction q as [|m q IH]; simpl; [reflexivity|].
  destruct (port m =? p') eqn:E'; simpl.
  - apply Z.eqb_eq in E'.
    assert (E : (port m =? p) = false) by (apply Z.eqb_neq; congruence).
    now rewrite E.
  - now rewrite IH.
Qed.

(** A drain for port [p'] leaves the messages of every other port. *)
Lemma Client_send_messages_for_port_other (jack : Jack) (c : Client)
      (p p' : jack_port_t) (n : Z) (buffer : option port_buffer) :
  p <> p' ->
  let c' := fst (Client_send_messages_for_port jack c p' n buffer) in
  on_port p (_midi_send_queue c') = on_port p (_midi_send_queue c)
  /\ _midi_receive_queue c' = _midi_receive_queue c
  /\ _receive_port_count c' = _receive_port_count c
  /\ _receive_ports c' = _receive_ports c.
Proof.
  intros Hne. destruct buffer as [b|]; [|simpl; auto].
  rewrite Client_send_messages_for_port_loop. simpl.
  repeat split.
  destruct (send_loop_on_port jack p' n (_midi_send_queue c) [] 0 0)
    as (_ & _ & H).
  rewrite <- (on_port_off_port p p' _ Hne), H.
  now apply on_port_off_port.
Qed.

Lemma process_send_other (jack : Jack) (blk : Block) (p : jack_port_t)
      (ports : list jack_port_t) :
  ~ In p ports ->
  forall c,
    on_port p (_midi_send_queue (fst (process_send jack blk ports c)))
    = on_port p (_midi_send_queue c)
    /\ _midi_receive_queue (fst (process_send jack blk ports c))
       = _midi_receive_queue c
    /\ _receive_port_count (fst (process_send jack blk ports c))
       = _receive_port_count c
    /\ _receive_ports (fst (process_send jack blk ports c))
       = _receive_ports c
    /\ map fst (snd (process_send jack blk ports c)) = ports.
Proof.
  induction ports as [|p' ports IH]; intros Hnot c; simpl; [auto 6|].
  assert (Hne : p <> p') by (intros ->; apply Hnot; now left).
  assert (Hnot' : ~ In p ports) by (intros H; apply Hnot; now right).
  pose proof (Client_send_messages_for_port_other jack c p p'
                (block_nframes blk) (write_buffer blk p') Hne) as Hstep.
  destruct (Client_send_messages_for_port jack c p' (block_nframes blk)
                                          (write_buffer blk p'))
    as [c1 b].
  simpl in Hstep. destruct Hstep as (H1 & H2 & H3 & H4).
  specialize (IH Hnot' c1).
  destruct (process_send jack blk ports c1) as [c2 bs]. simpl in *.
  destruct IH as (I1 & I2 & I3 & I4 & I5).
  repeat split; congruence.
Qed.

Lemma receive_loop_port (p' : jack_port_t) (start_frame : Z)
      (events : list fetch) :
  forall q, Forall (fun m => port m = p') q ->
            Forall (fun m => port m = p')
                   (receive_loop p' start_frame events q).
Proof.
  induction events as [|e events IH]; intros q Hq; simpl; [exact Hq|].
  destruct e as [[t bytes] [|]|]; auto.
  apply IH, Forall_app. split; [exact Hq | repeat constructor].
Qed.

Lemma process_receive_other (blk : Block) (p : jack_port_t)
      (ports : list jack_port_t) :
  ~ In p ports ->
  forall c,
    on_port p (_midi_receive_queue (process_receive blk ports c))
    = on_port p (_midi_receive_queue c)
    /\ _midi_send_queue (process_receive blk ports c) = _midi_send_queue c.
Proof.
  induction ports as [|p' ports IH]; intros Hnot c; simpl; [auto|].
  assert (Hne : p' <> p) by (intros ->; apply Hnot; now left).
  assert (Hnot' : ~ In p ports) by (intros H; apply Hnot; now right).
  destruct (IH Hnot' (Client_receive_messages_for_port
                        c p' (read_buffer blk p') (transport_frame blk)))
    as [H1 H2].
  rewrite H1, H2, Client_receive_messages_for_port_queue, on_port_app.
  split.
  - rewrite <- (app_nil_r (on_port p (_midi_receive_queue c))) at 2.
    f_equal. apply filter_none.
    destruct (read_buffer blk p') as [events|]; simpl; [|constructor].
    rewrite app_nil_r.
    eapply Forall_impl;
      [|apply (receive_loop_port p' (transport_frame blk) events []);
        constructor].
    simpl. intros m Hm. apply Z.eqb_neq. congruence.
  - destruct (read_buffer blk p') as [[|e events]|]; reflexivity.
Qed.

(** C6, as stated, fails: with 256 input ports managed already,
    [Port_init] for one more input port returns [0] and raises nothing; it
    warns and leaves the client as it was. *)
Lemma Port_init_at_limit_succeeds :
  let c := mkClient true 1 0 (repeat NULL 256) []
                    256 (map Z.of_nat (seq 1 256)) [] in
  let r := Port_init (roomy_jack 48000 (fun _ => JackPortIsInput))
                     NULL 1000 c JackPortIsInput in
  init_result r = 0 /\ init_raised r = None
  /\ init_warnings r = [too_many_ports]
  /\ init_client r = c /\ init_port r = mkPort 1000 true.
Proof. vm_compute. repeat split; reflexivity. Qed.

(** C6 (amended): creating a port with the input flag when
    [MAX_PORTS_PER_CLIENT] input ports are managed (or with the output flag
    and not the input flag when as many output ports are) does not fail:
    [Port_init] returns [0] with a warning and the port, registered with
    the server, is not stored with the client. Such a port is unmanaged:
    the process callback writes no buffer for it and leaves what is queued
    for it in both queues. *)
Theorem Port_init_over_limit_unmanaged (jack : Jack) (c : Client)
        (p : jack_port_t) (flags : Z) (blk : Block) :
  _client (Client_open jack c) <> NULL ->
  p <> NULL ->
  (Z.land flags JackPortIsInput <> 0
   /\ MAX_PORTS_PER_CLIENT <= _receive_port_count c)
  \/ (Z.land flags JackPortIsInput = 0
      /\ Z.land flags JackPortIsOutput <> 0
      /\ MAX_PORTS_PER_CLIENT <= _send_port_count c) ->
  ~ In p (managed_ports (_send_port_count c) (_send_ports c)) ->
  ~ In p (managed_ports (_receive_port_count c) (_receive_ports c)) ->
  init_result (Port_init jack NULL p c flags) = 0
  /\ init_raised (Port_init jack NULL p c flags) = None
  /\ init_warnings (Port_init jack NULL p c flags) = [too_many_ports]
  /\ init_port (Port_init jack NULL p c flags) = mkPort p true
  /\ init_client (Port_init jack NULL p c flags) = Client_open jack c
  /\ match Client_process jack blk
             (init_client (Port_init jack NULL p c flags)) with
     | (status, c', out) =>
         status = 0
         /\ ~ In p (map fst out)
         /\ on_port p (_midi_send_queue c') = on_port p (_midi_send_queue c)
         /\ on_port p (_midi_receive_queue c')
            = on_port p (_midi_receive_queue c)
     end.
Proof.
  intros Hopen Hp Hlimit Hs Hr.
  assert (Hinit : Port_init jack NULL p c flags
                  = mkPortInit 0 None [too_many_ports] (Client_open jack c)
                               (mkPort p true)).
  { unfold Port_init.
    apply Z.eqb_neq in Hopen. rewrite Hopen. simpl.
    assert (Hfields : _receive_port_count (Client_open jack c)
                      = _receive_port_count c
                      /\ _send_port_count (Client_open jack c)
                         = _send_port_count c).
    { unfold Client_open. destruct (_client c =? NULL); auto. }
    destruct Hfields as [Hrc Hsc].
    unfold manage_port. rewrite Hrc, Hsc.
    apply Z.eqb_neq in Hp. rewrite Hp.
    destruct Hlimit as [[Hin Hfull] | (Hin & Hout & Hfull)].
    - apply Z.eqb_neq in Hin. apply Z.leb_le in Hfull.
      rewrite Hin, Hfull. reflexivity.
    - apply Z.eqb_neq in Hout. apply Z.leb_le in Hfull.
      rewrite Hin, Hout, Hfull. reflexivity. }
  rewrite Hinit. simpl. repeat split.
  assert (Hsame : _send_port_count (Client_open jack c) = _send_port_count c
                  /\ _send_ports (Client_open jack c) = _send_ports c
                  /\ _receive_port_count (Client_open jack c)
                     = _receive_port_count c
                  /\ _receive_ports (Client_open jack c) = _receive_ports c
                  /\ _midi_send_queue (Client_open jack c)
                     = _midi_send_queue c
                  /\ _midi_receive_queue (Client_open jack c)
                     = _midi_receive_queue c).
  { unfold Client_open. destruct (_client c =? NULL); auto 7. }
  destruct Hsame as (A1 & A2 & A3 & A4 & A5 & A6).
  unfold Client_process. rewrite A1, A2.
  destruct (process_send_other jack blk p _ Hs (Client_open jack c))
    as (S1 & S2 & S3 & S4 & S5).
  destruct (process_send jack blk
              (managed_ports (_send_port_count c) (_send_ports c))
              (Client_open jack c)) as [c1 out].
  simpl in *. rewrite S3, S4, A3, A4.
  destruct (process_receive_other blk p _ Hr c1) as [R1 R2].
  repeat split; try congruence.
Qed.

Lemma Port_init_over_limit_unmanaged_witness :
  init_result
    (Port_init (roomy_jack 48000 (fun _ => JackPortIsInput)) NULL 1000
       (mkClient true 1 0 (repeat NULL 256) []
                 256 (map Z.of_nat (seq 1 256)) [mkMessage 1000 5 [144]])
       JackPortIsInput) = 0
  /\ init_raised
       (Port_init (roomy_jack 48000 (fun _ => JackPortIsInput)) NULL 1000
          (mkClient true 1 0 (repeat NULL 256) []
                    256 (map Z.of_nat (seq 1 256)) [mkMessage 1000 5 [144]])
          JackPortIsInput) = None
  /\ init_warnings
       (Port_init (roomy_jack 48000 (fun _ => JackPortIsInput)) NULL 1000
          (mkClient true 1 0 (repeat NULL 256) []
                    256 (map Z.of_nat (seq 1 256)) [mkMessage 1000 5 [144]])
          JackPortIsInput) = [too_many_ports]
  /\ init_port
       (Port_init (roomy_jack 48000 (fun _ => JackPortIsInput)) NULL 1000
          (mkClient true 1 0 (repeat NULL 256) []
                    256 (map Z.of_nat (seq 1 256)) [mkMessage 1000 5 [144]])
          JackPortIsInput) = mkPort 1000 true
  /\ init_client
       (Port_init (roomy_jack 48000 (fun _ => JackPortIsInput)) NULL 1000
          (mkClient true 1 0 (repeat NULL 256) []
                    256 (map Z.of_nat (seq 1 256)) [mkMessage 1000 5 [144]])
          JackPortIsInput)
     = Client_open (roomy_jack 48000 (fun _ => JackPortIsInput))
         (mkClient true 1 0 (repeat NULL 256) []
                   256 (map Z.of_nat (seq 1 256)) [mkMessage 1000 5 [144]])
  /\ match Client_process (roomy_jack 48000 (fun _ => JackPortIsInput))
             (mkBlock 512 (fun _ => Some [])
                      (fun _ => Some [Fetched (3, [128]) true]) 48000)
             (init_client
                (Port_init (roomy_jack 48000 (fun _ => JackPortIsInput))
                   NULL 1000
                   (mkClient true 1 0 (repeat NULL 256) []
                             256 (map Z.of_nat (seq 1 256))
                             [mkMessage 1000 5 [144]])
                   JackPortIsInput)) with
     | (status, c', out) =>
         status = 0
         /\ ~ In 1000 (map fst out)
         /\ on_port 1000 (_midi_send_queue c')
            = on_port 1000
                (_midi_send_queue
                   (mkClient true 1 0 (repeat NULL 256) []
                             256 (map Z.of_nat (seq 1 256))
                             [mkMessage 1000 5 [144]]))
         /\ on_port 1000 (_midi_receive_queue c')
            = on_port 1000
                (_midi_receive_queue
                   (mkClient true 1 0 (repeat NULL 256) []
                             256 (map Z.of_nat (seq 1 256))
                             [mkMessage 1000 5 [144]]))
     end.
Proof.
  apply (Port_init_over_limit_unmanaged
           (roomy_jack 48000 (fun _ => JackPortIsInput))
           (mkClient true 1 0 (repeat NULL 256) []
                     256 (map Z.of_nat (seq 1 256)) [mkMessage 1000 5 [144]])
           1000 JackPortIsInput
           (mkBlock 512 (fun _ => Some [])
                    (fun _ => Some [Fetched (3, [128]) true]) 48000)).
  - vm_compute; discriminate.
  - vm_compute; discriminate.
  - left. split; [vm_compute; discriminate | vm_compute; discriminate].
  - simpl. tauto.
  - intros H. vm_compute in H.
    repeat (destruct H as [H|H]; [discriminate H|]). exact H.
Defined.

(** ** C7: a failed enqueue *)

(** The returns of [Port_send] that raise with no exception left set by
    [Client_activate] come before the queue is touched. *)
Lemma Port_send_raised_before_splice (jack : Jack) (malloc_ok : bool)
      (self : Port) (c : Client) (payload : PyObject) (seconds : Q) :
  Client_activate_error jack c = None ->
  is_raised (fst (Port_send jack malloc_ok self c payload seconds)) = true ->
  _midi_send_queue (snd (Port_send jack malloc_ok self c payload seconds))
  = _midi_send_queue c
  /\ _midi_receive_queue
       (snd (Port_send jack malloc_ok self c payload seconds))
     = _midi_receive_queue c.
Proof.
  intros Hnone Hraised.
  destruct (Port_send_cases jack malloc_ok self c payload seconds)
    as [(items & t & bytes & r & _ & _ & _ & _ & E & [[Hr _]|[_ Hp]])
       | (_ & Hs & Hr)].
  - rewrite E, Hr in Hraised. discriminate.
  - contradiction.
  - split; assumption.
Qed.

(** C7, at [Port.send([0x90, 0x40, 0x7F], 0.0)] on an output port made by
    jackpatch, of a client that is open and not active, when
    [jack_activate] fails: [Port_send] drops the result of
    [Client_activate], links the message into the queue, which was empty,
    and gets to [Py_RETURN_NONE] with the [JackError] of the activation
    still set, which is a [SystemError] for the caller: the call fails and
    the queue is not as it was. A failing [malloc] in the same call raises
    before the queue is touched. *)
Theorem Port_send_failed_activation_still_queues :
  _client (init_client
             (Port_init (unwilling_jack (-1) 48000 (fun _ => JackPortIsOutput))
                        NULL 7 Client_new JackPortIsOutput)) = 1
  /\ is_active
       (init_client
          (Port_init (unwilling_jack (-1) 48000 (fun _ => JackPortIsOutput))
                     NULL 7 Client_new JackPortIsOutput)) = false
  /\ _midi_send_queue
       (init_client
          (Port_init (unwilling_jack (-1) 48000 (fun _ => JackPortIsOutput))
                     NULL 7 Client_new JackPortIsOutput)) = []
  /\ Client_activate_error
       (unwilling_jack (-1) 48000 (fun _ => JackPortIsOutput))
       (init_client
          (Port_init (unwilling_jack (-1) 48000 (fun _ => JackPortIsOutput))
                     NULL 7 Client_new JackPortIsOutput))
     = Some (JackError, "Failed to activate the JACK client"%string)
  /\ Port_send (unwilling_jack (-1) 48000 (fun _ => JackPortIsOutput)) true
               (mkPort 7 true)
               (init_client
                  (Port_init
                     (unwilling_jack (-1) 48000 (fun _ => JackPortIsOutput))
                     NULL 7 Client_new JackPortIsOutput))
               (PySequence [PyLong 144; PyLong 64; PyLong 127]) 0%Q
     = (Raised SystemError "returned a result with an exception set",
        set_send_queue
          (init_client
             (Port_init
                (unwilling_jack (-1) 48000 (fun _ => JackPortIsOutput))
                NULL 7 Client_new JackPortIsOutput))
          [mkMessage 7 0 [144; 64; 127]])
  /\ Port_send (unwilling_jack (-1) 48000 (fun _ => JackPortIsOutput)) false
               (mkPort 7 true)
               (init_client
                  (Port_init
                     (unwilling_jack (-1) 48000 (fun _ => JackPortIsOutput))
                     NULL 7 Client_new JackPortIsOutput))
               (PySequence [PyLong 144; PyLong 64; PyLong 127]) 0%Q
     = (Raised JackError "Failed to allocate memory for MIDI data",
        init_client
          (Port_init (unwilling_jack (-1) 48000 (fun _ => JackPortIsOutput))
                     NULL 7 Client_new JackPortIsOutput)).
Proof. repeat split; vm_compute; reflexivity. Qed.

(** ** C9: the wrong direction *)

(** C9: [Port_send] on a port without the output flag and [Port_receive]
    on a port without the input flag raise, and the client, with both its
    queues, is what it was before the call. *)
Theorem wrong_direction_rejected_before_queues (jack : Jack)
        (malloc_ok : bool) (self : Port) (c : Client) (payload : PyObject)
        (seconds : Q) :
  (Z.land (jack_port_flags jack (_port self)) JackPortIsOutput = 0 ->
   is_raised (fst (Port_send jack malloc_ok self c payload seconds)) = true
   /\ snd (Port_send jack malloc_ok self c payload seconds) = c)
  /\ (Z.land (jack_port_flags jack (_port self)) JackPortIsInput = 0 ->
      is_raised (fst (Port_receive jack self c)) = true
      /\ snd (Port_receive jack self c) = c).
Proof.
  split; intros Hflag.
  - unfold Port_send. destruct payload as [items|]; [|split; reflexivity].
    destruct (negb (_is_mine self)); [split; reflexivity|].
    rewrite Hflag. split; reflexivity.
  - unfold Port_receive.
    destruct (negb (_is_mine self)); [split; reflexivity|].
    rewrite Hflag. split; reflexivity.
Qed.

Lemma wrong_direction_rejected_before_queues_witness :
  (is_raised
     (fst (Port_send (roomy_jack 48000 (fun _ => JackPortIsInput)) true
                     (mkPort 7 true)
                     (set_send_queue Client_new [mkMessage 8 3 [144; 60; 1]])
                     (PySequence [PyLong 128; PyLong 60; PyLong 0]) 0%Q))
   = true
   /\ snd (Port_send (roomy_jack 48000 (fun _ => JackPortIsInput)) true
                     (mkPort 7 true)
                     (set_send_queue Client_new [mkMessage 8 3 [144; 60; 1]])
                     (PySequence [PyLong 128; PyLong 60; PyLong 0]) 0%Q)
      = set_send_queue Client_new [mkMessage 8 3 [144; 60; 1]])
  /\ (is_raised
        (fst (Port_receive (roomy_jack 48000 (fun _ => JackPortIsOutput))
                           (mkPort 7 true)
                           (set_receive_queue Client_new
                              [mkMessage 7 48100 [144; 60; 1]])))
      = true
      /\ snd (Port_receive (roomy_jack 48000 (fun _ => JackPortIsOutput))
                           (mkPort 7 true)
                           (set_receive_queue Client_new
                              [mkMessage 7 48100 [144; 60; 1]]))
         = set_receive_queue Client_new [mkMessage 7 48100 [144; 60; 1]]).
Proof.
  split.
  - apply (proj1 (wrong_direction_rejected_before_queues
                    (roomy_jack 48000 (fun _ => JackPortIsInput)) true
                    (mkPort 7 true)
                    (set_send_queue Client_new [mkMessage 8 3 [144; 60; 1]])
                    (PySequence [PyLong 128; PyLong 60; PyLong 0]) 0%Q)).
    reflexivity.
  - apply (proj2 (wrong_direction_rejected_before_queues
                    (roomy_jack 48000 (fun _ => JackPortIsOutput)) true
                    (mkPort 7 true)
                    (set_receive_queue Client_new
                       [mkMessage 7 48100 [144; 60; 1]])
                    (PySequence []) 0%Q)).
    reflexivity.
Defined.

(** ** C10: the bytes of a message *)




(** ** Rounding to the nearest double *)

Lemma pow2_pos (e : Z) : (0 < pow2 e)%Q.
Proof. apply Qpower_0_lt. reflexivity. Qed.

Lemma pow2_plus (a b : Z) : (pow2 (a + b) == pow2 a * pow2 b)%Q.
Proof. apply Qpower_plus. discriminate. Qed.

Lemma pow2_le (a b : Z) : a <= b -> (pow2 a <= pow2 b)%Q.
Proof. intros H. apply Qpower_le_compat_l; [exact H | discriminate]. Qed.

Lemma pow2_Z (e : Z) : 0 <= e -> (pow2 e == inject_Z (2 ^ e))%Q.
Proof. intros H. unfold pow2. now rewrite Zpower_Qpower. Qed.

Lemma pow2_opp (e : Z) : (pow2 (- e) * pow2 e == 1)%Q.
Proof. rewrite <- pow2_plus. replace (- e + e) with 0 by lia. reflexivity. Qed.

(** [ilog2] does not overshoot. *)
Lemma ilog2_le (x : Q) : (0 < x)%Q -> (pow2 (ilog2 x) <= x)%Q.
Proof.
  intros Hx. unfold ilog2.
  destruct (Qle_bool (pow2 (Z.log2 (Qnum x) - Z.log2 (Z.pos (Qden x)))) x)
    eqn:E; [now apply Qle_bool_iff|].
  destruct x as [n d]. cbn [Qnum Qden].
  assert (Hn : 0 < n) by (unfold Qlt in Hx; simpl in Hx; lia).
  pose proof (Z.log2_nonneg n) as Ha0.
  pose proof (Z.log2_nonneg (Z.pos d)) as Hb0.
  pose proof (Z.log2_spec n Hn) as [Ha _].
  pose proof (Z.log2_spec (Z.pos d) (Pos2Z.is_pos d)) as [_ Hb].
  set (a := Z.log2 n) in *. set (b := Z.log2 (Z.pos d)) in *.
  assert (HA : (pow2 a <= inject_Z n)%Q).
  { rewrite pow2_Z by assumption. now rewrite <- Zle_Qle. }
  assert (HB : (inject_Z (Z.pos d) <= pow2 (b + 1))%Q).
  { rewrite pow2_Z by lia. rewrite <- Zle_Qle. unfold Z.succ in Hb. lia. }
  rewrite (Qmake_Qdiv n d).
  apply Qle_shift_div_l; [reflexivity|].
  eapply Qle_trans; [|exact HA].
  replace a with ((a - b - 1) + (b + 1)) at 2 by lia. rewrite pow2_plus.
  apply Qmult_le_l; [apply pow2_pos | exact HB].
Qed.

Lemma round_half_even_bounds (y : Q) :
  (inject_Z (round_half_even y) - (1 # 2) <= y)%Q
  /\ (y <= inject_Z (round_half_even y) + (1 # 2))%Q
  /\ Qfloor y <= round_half_even y <= Qfloor y + 1
  /\ ((y == inject_Z (Qfloor y))%Q -> round_half_even y = Qfloor y).
Proof.
  pose proof (Qfloor_le y) as Hlo. pose proof (Qlt_floor y) as Hhi.
  rewrite inject_Z_plus in Hhi. change (inject_Z 1) with 1%Q in Hhi.
  unfold round_half_even.
  destruct (y - inject_Z (Qfloor y) ?= 1 # 2)%Q eqn:C.
  - apply Qeq_alt in C.
    destruct (Z.even (Qfloor y));
      rewrite ?inject_Z_plus; change (inject_Z 1) with 1%Q;
      repeat split; intros; try lra; try lia.
  - apply Qlt_alt in C. repeat split; intros; try lra; try lia.
  - apply Qgt_alt in C. rewrite inject_Z_plus. change (inject_Z 1) with 1%Q.
    repeat split; intros; try lra; try lia.
Qed.

Lemma round_half_even_ge (y : Q) (j : Z) :
  (inject_Z j <= y)%Q -> j <= round_half_even y.
Proof.
  intros H. destruct (round_half_even_bounds y) as (_ & _ & [Hk _] & _).
  apply Qfloor_resp_le in H. rewrite Qfloor_Z in H. lia.
Qed.

Lemma round_half_even_le (y : Q) (j : Z) :
  (y <= inject_Z j)%Q -> round_half_even y <= j.
Proof.
  intros H. destruct (round_half_even_bounds y) as (_ & _ & [_ Hk] & Hint).
  pose proof (Qfloor_le y) as Hlo.
  destruct (Qlt_le_dec (inject_Z (Qfloor y)) y) as [Hlt|Hge].
  - assert (Hj : Qfloor y < j).
    { rewrite Zlt_Qlt. eapply Qlt_le_trans; eassumption. }
    lia.
  - rewrite Hint by (apply Qle_antisym; assumption).
    rewrite Zle_Qle. eapply Qle_trans; eassumption.
Qed.

Lemma round_double_0 : round_double 0 = 0%Q.
Proof. reflexivity. Qed.

Lemma round_double_unfold (x : Q) :
  ~ (x == 0)%Q ->
  round_double x
  = (inject_Z (round_half_even (x / pow2 (ulp_exponent x)))
     * pow2 (ulp_exponent x))%Q.
Proof.
  intros H. unfold round_double.
  destruct (Qeq_bool x 0) eqn:E; [|reflexivity].
  apply Qeq_bool_iff in E. contradiction.
Qed.

(** The rounding error is at most half the spacing of the doubles around
    [x]. *)
Lemma round_double_error (x : Q) :
  ~ (x == 0)%Q ->
  (round_double x - pow2 (ulp_exponent x) * (1 # 2) <= x)%Q
  /\ (x <= round_double x + pow2 (ulp_exponent x) * (1 # 2))%Q.
Proof.
  intros H. rewrite (round_double_unfold x H).
  set (u := pow2 (ulp_exponent x)).
  assert (Hu : (0 < u)%Q) by apply pow2_pos.
  destruct (round_half_even_bounds (x / u)) as (H1 & H2 & _).
  set (m := inject_Z (round_half_even (x / u))) in *.
  assert (E : (x / u * u == x)%Q) by (field; lra).
  split.
  - apply Qle_trans with ((m - (1 # 2)) * u)%Q; [ring_simplify; lra|].
    apply Qle_trans with (x / u * u)%Q; [|rewrite E; lra].
    apply Qmult_le_compat_r; [exact H1 | lra].
  - apply Qle_trans with ((m + (1 # 2)) * u)%Q; [|ring_simplify; lra].
    apply Qle_trans with (x / u * u)%Q; [rewrite E; lra|].
    apply Qmult_le_compat_r; [exact H2 | lra].
Qed.

Lemma ilog2_Qabs (x : Q) : (0 <= x)%Q -> ilog2 (Qabs x) = ilog2 x.
Proof.
  destruct x as [n d]. unfold Qle. simpl. intros H.
  rewrite Z.abs_eq by lia. reflexivity.
Qed.

(** On the normal doubles the error is at most [2 ^ -53] of the value. *)
Lemma round_double_relative (x : Q) :
  (pow2 DBL_MIN_EXP <= x)%Q ->
  (round_double x - x * pow2 (-53) <= x)%Q
  /\ (x <= round_double x + x * pow2 (-53))%Q.
Proof.
  intros Hn.
  assert (Hx : (0 < x)%Q).
  { eapply Qlt_le_trans; [apply pow2_pos | exact Hn]. }
  assert (Hnz : ~ (x == 0)%Q) by lra.
  destruct (round_double_error x Hnz) as [H1 H2].
  assert (Hu : (pow2 (ulp_exponent x) <= x * pow2 (-52))%Q).
  { unfold ulp_exponent. rewrite (ilog2_Qabs x) by lra.
    pose proof (ilog2_le x Hx) as He.
    assert (Hm : (pow2 (Z.max (ilog2 x) DBL_MIN_EXP) <= x)%Q).
    { destruct (Z.max_spec (ilog2 x) DBL_MIN_EXP) as [[_ ->]|[_ ->]];
        assumption. }
    unfold DBL_MANT_BITS.
    replace (Z.max (ilog2 x) DBL_MIN_EXP - 52)
      with (Z.max (ilog2 x) DBL_MIN_EXP + -52) by lia.
    rewrite pow2_plus.
    apply Qmult_le_compat_r; [exact Hm|]. apply Qlt_le_weak, pow2_pos. }
  assert (E : (pow2 (-52) * (1 # 2) == pow2 (-53))%Q) by reflexivity.
  assert (Hh : (pow2 (ulp_exponent x) * (1 # 2) <= x * pow2 (-53))%Q).
  { rewrite <- E, Qmult_assoc. apply Qmult_le_compat_r; [exact Hu | lra]. }
  split; lra.
Qed.

(** Where the doubles are no further apart than the integers, rounding
    does not cross an integer. *)
Lemma round_double_ge_int (x : Q) (j : Z) :
  ~ (x == 0)%Q ->
  ulp_exponent x <= 0 ->
  (inject_Z j <= x)%Q -> (inject_Z j <= round_double x)%Q.
Proof.
  intros Hnz Hq Hj. rewrite (round_double_unfold x Hnz).
  set (q := ulp_exponent x) in *.
  assert (Hu : (0 < pow2 q)%Q) by apply pow2_pos.
  assert (EJ : (inject_Z (j * 2 ^ (- q)) * pow2 q == inject_Z j)%Q).
  { rewrite inject_Z_mult, <- pow2_Z by lia.
    rewrite <- Qmult_assoc, pow2_opp. ring. }
  rewrite <- EJ. apply Qmult_le_compat_r; [|lra].
  rewrite <- Zle_Qle. apply round_half_even_ge.
  apply Qle_shift_div_l; [exact Hu|]. now rewrite EJ.
Qed.

Lemma round_double_le_int (x : Q) (j : Z) :
  ~ (x == 0)%Q ->
  ulp_exponent x <= 0 ->
  (x <= inject_Z j)%Q -> (round_double x <= inject_Z j)%Q.
Proof.
  intros Hnz Hq Hj. rewrite (round_double_unfold x Hnz).
  set (q := ulp_exponent x) in *.
  assert (Hu : (0 < pow2 q)%Q) by apply pow2_pos.
  assert (EJ : (inject_Z (j * 2 ^ (- q)) * pow2 q == inject_Z j)%Q).
  { rewrite inject_Z_mult, <- pow2_Z by lia.
    rewrite <- Qmult_assoc, pow2_opp. ring. }
  rewrite <- EJ. apply Qmult_le_compat_r; [|lra].
  rewrite <- Zle_Qle. apply round_half_even_le.
  apply Qle_shift_div_r; [exact Hu|]. now rewrite EJ.
Qed.

(** A positive number of which the double is below [2 ^ 53] lies where the
    doubles are no further apart than the integers. *)
Lemma round_double_small (x : Q) :
  (0 < x)%Q ->
  (round_double x < pow2 53)%Q ->
  ulp_exponent x <= 0.
Proof.
  intros Hx Hr.
  destruct (Z_le_gt_dec (ulp_exponent x) 0) as [H|H]; [exact H|exfalso].
  assert (Hnz : ~ (x == 0)%Q) by lra.
  rewrite (round_double_unfold x Hnz) in Hr.
  revert H Hr. unfold ulp_exponent. rewrite (ilog2_Qabs x) by lra.
  unfold DBL_MIN_EXP, DBL_MANT_BITS. intros H Hr.
  assert (Hmax : Z.max (ilog2 x) (-1022) = ilog2 x) by lia.
  rewrite Hmax in *.
  set (q := ilog2 x - 52) in *.
  assert (Hu : (0 < pow2 q)%Q) by apply pow2_pos.
  pose proof (ilog2_le x Hx) as He.
  assert (Hm : 2 ^ 52 <= round_half_even (x / pow2 q)).
  { apply round_half_even_ge. apply Qle_shift_div_l; [exact Hu|].
    rewrite <- pow2_Z by lia. rewrite <- pow2_plus.
    replace (52 + q) with (ilog2 x) by (unfold q; lia). exact He. }
  apply (Qlt_irrefl (pow2 53)).
  eapply Qle_lt_trans; [|exact Hr].
  replace 53 with (52 + 1) by lia. rewrite pow2_plus.
  apply Qle_trans with (inject_Z (2 ^ 52) * pow2 q)%Q.
  - rewrite <- pow2_Z by lia. apply Qmult_le_l; [apply pow2_pos|].
    apply pow2_le. lia.
  - apply Qmult_le_compat_r; [|lra]. now rewrite <- Zle_Qle.
Qed.

(** The conversion to frames gives frame counts only. *)
Lemma double_to_nframes_range (x : Q) (t : Z) :
  double_to_nframes x = Some t -> is_nframes t.
Proof.
  unfold double_to_nframes.
  destruct ((0 <=? Qtruncate x) && (Qtruncate x <? NFRAMES_MODULUS)) eqn:E;
    [|discriminate].
  intros H. inversion H; subst. apply andb_true_iff in E.
  destruct E as [A B]. apply Z.leb_le in A. apply Z.ltb_lt in B.
  split; assumption.
Qed.

Lemma Qtruncate_floor (x : Q) : (0 <= x)%Q -> Qtruncate x = Qfloor x.
Proof.
  destruct x as [num den]. unfold Qle, Qtruncate, Qfloor. simpl.
  intros H. apply Z.quot_div_nonneg; lia.
Qed.

Lemma round_double_zero (x : Q) : (x == 0)%Q -> round_double x = 0%Q.
Proof.
  intros H. unfold round_double. apply Qeq_bool_iff in H. now rewrite H.
Qed.

(** The frames of a product and the time they convert back to. *)
Lemma frames_of_product (s : Q) (r : Z) (p : Q) :
  (p == s * inject_Z r)%Q ->
  (0 <= s)%Q ->
  0 < r < NFRAMES_MODULUS ->
  (round_double p < inject_Z NFRAMES_MODULUS)%Q ->
  exists f,
    double_to_nframes (round_double p) = Some f
    /\ (inject_Z f - 1 < s * inject_Z r)%Q
    /\ (s * inject_Z r < inject_Z f + 1)%Q
    /\ (s - 1 / inject_Z r - rounding_slack f r < nframes_to_seconds f r)%Q
    /\ (nframes_to_seconds f r < s + 1 / inject_Z r + rounding_slack f r)%Q.
Proof.
  intros Hp Hs Hr Hmax.
  assert (HR : (0 < inject_Z r)%Q).
  { change 0%Q with (inject_Z 0). rewrite <- Zlt_Qlt. lia. }
  assert (Hp0 : (0 <= p)%Q).
  { rewrite Hp. apply Qmult_le_0_compat; lra. }
  (* the rounded product lies between the integers around the product *)
  assert (Hbr : (inject_Z (Qfloor p) <= round_double p)%Q
                /\ (round_double p <= inject_Z (Qceiling p))%Q).
  { destruct (Qeq_dec p 0) as [Hz|Hnz].
    - rewrite (round_double_zero p Hz).
      assert (Hf : Qfloor p = 0).
      { rewrite <- (Qfloor_Z 0). apply Z.le_antisymm; apply Qfloor_resp_le;
          rewrite Hz; apply Qle_refl. }
      assert (Hc : Qceiling p = 0).
      { rewrite <- (Qceiling_Z 0). apply Z.le_antisymm; apply Qceiling_resp_le;
          rewrite Hz; apply Qle_refl. }
      rewrite Hf, Hc. split; apply Qle_refl.
    - assert (Hq : ulp_exponent p <= 0).
      { apply round_double_small; [lra|].
        eapply Qlt_le_trans; [exact Hmax|].
        unfold NFRAMES_MODULUS. rewrite <- pow2_Z by lia.
        apply pow2_le. lia. }
      split.
      + apply round_double_ge_int; auto. apply Qfloor_le.
      + apply round_double_le_int; auto. apply Qle_ceiling. }
  destruct Hbr as [Hlo Hhi].
  assert (HP0 : (0 <= round_double p)%Q).
  { eapply Qle_trans; [|exact Hlo]. change 0%Q with (inject_Z 0).
    rewrite <- Zle_Qle, <- (Qfloor_Z 0). now apply Qfloor_resp_le. }
  remember (Qfloor (round_double p)) as f eqn:Ef.
  assert (Hf0 : 0 <= f).
  { rewrite Ef, <- (Qfloor_Z 0). now apply Qfloor_resp_le. }
  assert (HfP : (inject_Z f <= round_double p)%Q)
    by (rewrite Ef; apply Qfloor_le).
  assert (Hfmax : f < NFRAMES_MODULUS).
  { rewrite Zlt_Qlt. eapply Qle_lt_trans; eassumption. }
  assert (Hflo : (inject_Z f - 1 < p)%Q).
  { assert (H' : (inject_Z (Qceiling p) - 1 < p)%Q).
    { change (inject_Z (Qceiling p) - 1)%Q
        with (inject_Z (Qceiling p) + inject_Z (-1))%Q.
      rewrite <- inject_Z_plus. apply Qceiling_lt. }
    lra. }
  assert (Hfhi : (p < inject_Z f + 1)%Q).
  { assert (H : Qfloor p <= f).
    { rewrite Ef, <- (Qfloor_Z (Qfloor p)). now apply Qfloor_resp_le. }
    rewrite Zle_Qle in H. pose proof (Qlt_floor p) as H'.
    rewrite inject_Z_plus in H'. change (inject_Z 1) with 1%Q in H'. lra. }
  exists f. split; [|split; [|split]].
  - unfold double_to_nframes. rewrite (Qtruncate_floor _ HP0), <- Ef.
    apply Z.leb_le in Hf0. apply Z.ltb_lt in Hfmax. now rewrite Hf0, Hfmax.
  - rewrite <- Hp. exact Hflo.
  - rewrite <- Hp. exact Hfhi.
  - (* the time the frames convert back to *)
    remember (inject_Z f / inject_Z r)%Q as x eqn:Ex.
    assert (Hx1 : (x - 1 / inject_Z r < s)%Q).
    { setoid_replace (x - 1 / inject_Z r)%Q
        with ((inject_Z f - 1) / inject_Z r)%Q by (rewrite Ex; field; lra).
      apply Qlt_shift_div_r; [exact HR|]. now rewrite <- Hp. }
    assert (Hx2 : (s < x + 1 / inject_Z r)%Q).
    { setoid_replace (x + 1 / inject_Z r)%Q
        with ((inject_Z f + 1) / inject_Z r)%Q by (rewrite Ex; field; lra).
      apply Qlt_shift_div_l; [exact HR|]. now rewrite <- Hp. }
    unfold nframes_to_seconds, rounding_slack. rewrite <- Ex.
    destruct (Z.eq_dec f 0) as [Hz|Hnz].
    + assert (Hx0 : (x == 0)%Q) by (rewrite Ex, Hz; field; lra).
      rewrite (round_double_zero x Hx0). rewrite Hx0 in *. split; lra.
    + assert (Hn : (pow2 DBL_MIN_EXP <= x)%Q).
      { apply Qle_trans with (pow2 (-32)).
        - apply pow2_le. unfold DBL_MIN_EXP. lia.
        - rewrite Ex. apply Qle_shift_div_l; [exact HR|].
          apply Qle_trans with (pow2 (-32) * inject_Z (2 ^ 32))%Q.
          + apply Qmult_le_l; [apply pow2_pos|].
            rewrite <- Zle_Qle. unfold NFRAMES_MODULUS in Hr. lia.
          + setoid_replace (pow2 (-32) * inject_Z (2 ^ 32))%Q with 1%Q
              by reflexivity.
            change 1%Q with (inject_Z 1). rewrite <- Zle_Qle. lia. }
      destruct (round_double_relative x Hn) as [E1 E2]. split; lra.
Qed.

(** ** C8: seconds to frames and back *)

(** C8, as stated, fails in two ways. Past what [jack_nframes_t] counts:
    100000 seconds at 48000 frames per second are 4800000000 frames, which
    the conversion of [Port_send] cannot give, and even the largest frame
    count converts back to a time more than one sample period before. And
    by the rounding of the doubles: for the double nearest to 1.31625
    (5927863009526415 / 2 ^ 52) at 48000 frames per second the product
    rounds below 63180, the frames are 63179, and 63179 / 48000 rounds
    down to a double that is more than one sample period before the
    time. *)
Lemma round_trip_misses_sample_period :
  seconds_to_nframes (100000 # 1) 48000 = None
  /\ (nframes_to_seconds (NFRAMES_MODULUS - 1) 48000 + (1 # 48000)
      < 100000 # 1)%Q
  /\ seconds_to_nframes (5927863009526415 # 4503599627370496) 48000
     = Some 63179
  /\ (nframes_to_seconds 63179 48000 + (1 # 48000)
      < 5927863009526415 # 4503599627370496)%Q.
Proof. repeat split; vm_compute; reflexivity. Qed.

(** C8 (amended): for every time [s >= 0] and sample rate [r] (a
    [jack_nframes_t] that is not [0]) of which the product, rounded to a
    double, is less than [2 ^ 32], the conversion of [Port_send] gives a
    frame count [f] less than one frame away from [s * r], and the
    conversion of [Port_receive] takes [f] back to a time that differs
    from [s] by less than one sample period ([1 / r]) plus the rounding
    error of its division, at most [2 ^ -53] of [f / r]. *)
Theorem seconds_round_trip (s : Q) (r : Z) :
  (0 <= s)%Q ->
  0 < r < NFRAMES_MODULUS ->
  (round_double (s * inject_Z r) < inject_Z NFRAMES_MODULUS)%Q ->
  exists f,
    seconds_to_nframes s r = Some f
    /\ (inject_Z f - 1 < s * inject_Z r)%Q
    /\ (s * inject_Z r < inject_Z f + 1)%Q
    /\ (s - 1 / inject_Z r - rounding_slack f r < nframes_to_seconds f r)%Q
    /\ (nframes_to_seconds f r < s + 1 / inject_Z r + rounding_slack f r)%Q.
Proof.
  intros Hs Hr Hmax. unfold seconds_to_nframes.
  apply (frames_of_product s r (s * inject_Z r)); auto. apply Qeq_refl.
Qed.

Lemma seconds_round_trip_witness :
  exists f,
    seconds_to_nframes (5927863009526415 # 4503599627370496) 48000 = Some f
    /\ (inject_Z f - 1
        < (5927863009526415 # 4503599627370496) * inject_Z 48000)%Q
    /\ ((5927863009526415 # 4503599627370496) * inject_Z 48000
        < inject_Z f + 1)%Q
    /\ ((5927863009526415 # 4503599627370496) - 1 / inject_Z 48000
        - rounding_slack f 48000 < nframes_to_seconds f 48000)%Q
    /\ (nframes_to_seconds f 48000
        < (5927863009526415 # 4503599627370496) + 1 / inject_Z 48000
          + rounding_slack f 48000)%Q.
Proof.
  apply (seconds_round_trip (5927863009526415 # 4503599627370496) 48000).
  - vm_compute; discriminate.
  - unfold NFRAMES_MODULUS; lia.
  - vm_compute; reflexivity.
Defined.

(** * Beyond the claims *)

(** ** Where [Port_send] links a message *)

(** In a queue sorted by time, the scan stops after every message of at
    most the new time and before every later one. *)
Lemma send_queue_scan_stable (m : Message) (q : list Message) :
  StronglySorted time_le q ->
  send_queue_scan m q
  = filter (fun x => time x <=? time m) q
    ++ m :: filter (fun x => time m <? time x) q.
Proof.
  induction 1 as [|c next Hs IH Hall]; simpl; [reflexivity|].
  destruct (time m <? time c) eqn:E.
  - apply Z.ltb_lt in E.
    assert (Hle : (time c <=? time m) = false) by (apply Z.leb_gt; lia).
    rewrite Hle.
    rewrite filter_none, filter_all; [reflexivity| |];
      (eapply Forall_impl; [|exact Hall]); unfold time_le; simpl; intros x Hx.
    + apply Z.ltb_lt. lia.
    + apply Z.leb_gt. lia.
  - apply Z.ltb_ge in E.
    assert (Hle : (time c <=? time m) = true) by (apply Z.leb_le; lia).
    rewrite Hle, IH. reflexivity.
Qed.

(** X1: a call of [Port_send] that returns on a send queue sorted by time
    leaves it sorted, with the new message after every queued message of at
    most its time, those of the same time included, and before every later
    one; the queued messages keep their order. *)
Theorem Port_send_sorted_after_equal_times (jack : Jack) (malloc_ok : bool)
        (self : Port) (c c' : Client) (payload : PyObject) (seconds : Q) :
  StronglySorted time_le (_midi_send_queue c) ->
  Port_send jack malloc_ok self c payload seconds = (Returned tt, c') ->
  exists t bytes,
    seconds_to_nframes seconds (jack_get_sample_rate jack) = Some t
    /\ _midi_send_queue c'
       = filter (fun x => time x <=? t) (_midi_send_queue c)
         ++ mkMessage (_port self) t bytes
         :: filter (fun x => t <? time x) (_midi_send_queue c)
    /\ StronglySorted time_le (_midi_send_queue c').
Proof.
  intros Hs H.
  destruct (Port_send_cases jack malloc_ok self c payload seconds)
    as [(items & t & bytes & r & _ & _ & Ht & _ & E & _) | (Hne & _)].
  - rewrite E in H. inversion H as [[Hr Hc]]. exists t, bytes.
    simpl _midi_send_queue. rewrite send_queue_insert_scan.
    split; [exact Ht|]. split.
    + apply (send_queue_scan_stable (mkMessage (_port self) t bytes) _ Hs).
    + now apply send_queue_scan_sorted.
  - rewrite H in Hne. exfalso. now apply Hne.
Qed.

Lemma Port_send_sorted_after_equal_times_witness :
  exists t bytes,
    seconds_to_nframes (1 # 100) 48000 = Some t
    /\ _midi_send_queue
         (set_send_queue
            (Client_activate (roomy_jack 48000 (fun _ => JackPortIsOutput))
               (set_send_queue Client_new
                  [mkMessage 7 100 [1]; mkMessage 9 480 [2];
                   mkMessage 7 480 [3]; mkMessage 7 900 [4]]))
            (send_queue_insert (mkMessage 7 480 [144; 60; 100])
               [mkMessage 7 100 [1]; mkMessage 9 480 [2];
                mkMessage 7 480 [3]; mkMessage 7 900 [4]]))
       = filter (fun x => time x <=? t)
                [mkMessage 7 100 [1]; mkMessage 9 480 [2];
                 mkMessage 7 480 [3]; mkMessage 7 900 [4]]
         ++ mkMessage 7 t bytes
         :: filter (fun x => t <? time x)
                   [mkMessage 7 100 [1]; mkMessage 9 480 [2];
                    mkMessage 7 480 [3]; mkMessage 7 900 [4]]
    /\ StronglySorted time_le
         (_midi_send_queue
            (set_send_queue
               (Client_activate (roomy_jack 48000 (fun _ => JackPortIsOutput))
                  (set_send_queue Client_new
                     [mkMessage 7 100 [1]; mkMessage 9 480 [2];
                      mkMessage 7 480 [3]; mkMessage 7 900 [4]]))
               (send_queue_insert (mkMessage 7 480 [144; 60; 100])
                  [mkMessage 7 100 [1]; mkMessage 9 480 [2];
                   mkMessage 7 480 [3]; mkMessage 7 900 [4]]))).
Proof.
  apply (Port_send_sorted_after_equal_times
           (roomy_jack 48000 (fun _ => JackPortIsOutput)) true
           (mkPort 7 true)
           (set_send_queue Client_new
              [mkMessage 7 100 [1]; mkMessage 9 480 [2];
               mkMessage 7 480 [3]; mkMessage 7 900 [4]])
           _ (PySequence [PyLong 144; PyLong 60; PyLong 100]) (1 # 100)).
  - unfold time_le. repeat constructor; simpl; lia.
  - vm_compute. reflexivity.
Defined.

(** ** What a drain leaves alone, and the bounds it keeps *)

Lemma same_registry_set_send_queue (c : Client) (q : list Message) :
  same_registry c (set_send_queue c q).
Proof. unfold same_registry. simpl. auto 7. Qed.

Lemma same_registry_refl (c : Client) : same_registry c c.
Proof. unfold same_registry. auto 7. Qed.

Lemma same_registry_trans (a b c : Client) :
  same_registry a b -> same_registry b c -> same_registry a c.
Proof.
  unfold same_registry.
  intros (A1 & A2 & A3 & A4 & A5 & A6) (B1 & B2 & B3 & B4 & B5 & B6).
  repeat split; congruence.
Qed.

(** X2: whatever the queue, the block size and the buffer, a drain for one
    port leaves the messages of every other port in the send queue, in
    their order and with their times, and touches neither the receive queue
    nor the ports of the client. *)
Theorem drain_leaves_other_ports (jack : Jack) (c : Client)
        (p : jack_port_t) (n : Z) (buffer : option port_buffer) :
  off_port p (_midi_send_queue
                (fst (Client_send_messages_for_port jack c p n buffer)))
  = off_port p (_midi_send_queue c)
  /\ _midi_receive_queue
       (fst (Client_send_messages_for_port jack c p n buffer))
     = _midi_receive_queue c
  /\ same_registry c (fst (Client_send_messages_for_port jack c p n buffer)).
Proof.
  destruct buffer as [b|]; [|simpl; auto using same_registry_refl].
  rewrite Client_send_messages_for_port_loop. simpl fst.
  destruct (send_loop_on_port jack p n (_midi_send_queue c) [] 0 0)
    as (_ & _ & H).
  split; [exact H|]. split; [reflexivity|].
  apply same_registry_set_send_queue.
Qed.

Lemma wrap32_range (z : Z) : is_nframes (wrap32 z).
Proof.
  unfold is_nframes, wrap32, NFRAMES_MODULUS. apply Z.mod_pos_bound. lia.
Qed.

Lemma drain_time_range (count last : Z) (m : Message) :
  is_nframes (time m) -> is_nframes (drain_time count last m).
Proof.
  intros H. unfold drain_time.
  destruct ((0 <? count) && (time m <=? last)); [apply wrap32_range | exact H].
Qed.

(** The loop writes offsets of the block only and leaves frame counts in
    the queue. *)
Lemma send_loop_bounds (jack : Jack) (p : jack_port_t) (n : Z)
      (q : list Message) :
  Forall (fun m => is_nframes (time m)) q ->
  forall buffer count last,
    Forall (fun e => 0 <= fst e < n) buffer ->
    Forall (fun e => 0 <= fst e < n)
           (fst (send_loop jack p n q buffer count last))
    /\ Forall (fun m => is_nframes (time m))
              (snd (send_loop jack p n q buffer count last)).
Proof.
  induction 1 as [|m next Hm Hnext IH]; intros buffer count last Hb; simpl;
    [split; [exact Hb | constructor]|].
  destruct (port m =? p).
  - fold (drain_time count last m).
    pose proof (drain_time_range count last m Hm) as Ht.
    destruct (drain_time count last m <? n) eqn:E.
    + apply IH.
      destruct (jack_midi_event_reserve jack buffer _ (data_size m));
        [|exact Hb].
      apply Forall_app. split; [exact Hb|].
      repeat constructor; simpl; [apply Ht | now apply Z.ltb_lt].
    + destruct (IH buffer count last Hb) as [H1 H2].
      destruct (send_loop jack p n next buffer count last). simpl in *.
      split; [exact H1|]. constructor; [apply wrap32_range | exact H2].
  - destruct (IH buffer count last Hb) as [H1 H2].
    destruct (send_loop jack p n next buffer count last). simpl in *.
    split; [exact H1|]. constructor; assumption.
Qed.

(** X3: on a send queue whose times are frame counts (32-bit unsigned), a
    drain writes events at offsets of the block only, from [0] to
    [nframes - 1], and every time it leaves in the queue is a frame count
    again; [Port_send] keeps the queue such whatever it is given. *)
Theorem drain_offsets_in_block (jack : Jack) (c : Client) (p : jack_port_t)
        (n : Z) (buffer : option port_buffer) :
  Forall (fun m => is_nframes (time m)) (_midi_send_queue c) ->
  Forall (fun m => is_nframes (time m))
         (_midi_send_queue
            (fst (Client_send_messages_for_port jack c p n buffer)))
  /\ (forall events,
         snd (Client_send_messages_for_port jack c p n buffer) = Some events ->
         Forall (fun e => 0 <= fst e < n) events)
  /\ (forall malloc_ok self payload seconds,
         Forall (fun m => is_nframes (time m))
                (_midi_send_queue
                   (snd (Port_send jack malloc_ok self c payload seconds)))).
Proof.
  intros Hq. split; [|split].
  - destruct buffer as [b|]; [|exact Hq].
    rewrite Client_send_messages_for_port_loop. simpl.
    now apply send_loop_bounds.
  - intros events H. destruct buffer as [b|]; [|discriminate].
    rewrite Client_send_messages_for_port_loop in H. simpl in H.
    inversion H; subst. now apply send_loop_bounds.
  - intros malloc_ok self payload seconds.
    destruct (Port_send_cases jack malloc_ok self c payload seconds)
      as [(items & t & bytes & r & _ & _ & Ht & _ & E & _) | (_ & Hs & _)].
    + rewrite E. simpl. rewrite send_queue_insert_scan.
      eapply Permutation_Forall;
        [apply Permutation_sym, send_queue_scan_perm|].
      constructor; [|exact Hq]. simpl.
      exact (double_to_nframes_range _ _ Ht).
    + rewrite Hs. exact Hq.
Qed.

Lemma drain_offsets_in_block_witness :
  Forall (fun m => is_nframes (time m))
         (_midi_send_queue
            (fst (Client_send_messages_for_port
                    (roomy_jack 48000 (fun _ => JackPortIsOutput))
                    (set_send_queue Client_new
                       [mkMessage 7 3 [1]; mkMessage 7 3 [2];
                        mkMessage 7 700 [3]])
                    7 4 (Some []))))
  /\ (forall events,
         snd (Client_send_messages_for_port
                (roomy_jack 48000 (fun _ => JackPortIsOutput))
                (set_send_queue Client_new
                   [mkMessage 7 3 [1]; mkMessage 7 3 [2];
                    mkMessage 7 700 [3]])
                7 4 (Some [])) = Some events ->
         Forall (fun e => 0 <= fst e < 4) events)
  /\ (forall malloc_ok self payload seconds,
         Forall (fun m => is_nframes (time m))
                (_midi_send_queue
                   (snd (Port_send
                           (roomy_jack 48000 (fun _ => JackPortIsOutput))
                           malloc_ok self
                           (set_send_queue Client_new
                              [mkMessage 7 3 [1]; mkMessage 7 3 [2];
                               mkMessage 7 700 [3]])
                           payload seconds)))).
Proof.
  apply (drain_offsets_in_block
           (roomy_jack 48000 (fun _ => JackPortIsOutput))
           (set_send_queue Client_new
              [mkMessage 7 3 [1]; mkMessage 7 3 [2]; mkMessage 7 700 [3]])
           7 4 (Some [])).
  unfold is_nframes, NFRAMES_MODULUS. repeat constructor; simpl; lia.
Defined.

(** ** A server without room *)

(** What the loop leaves in the queue does not depend on what the server
    answers to the reservations, nor on the buffer. *)
Lemma send_loop_queue_any_server (jack jack' : Jack) (p : jack_port_t)
      (n : Z) (q : list Message) :
  forall buffer buffer' count last,
    snd (send_loop jack p n q buffer count last)
    = snd (send_loop jack' p n q buffer' count last).
Proof.
  induction q as [|m next IH]; intros buffer buffer' count last; simpl;
    [reflexivity|].
  destruct (port m =? p).
  - fold (drain_time count last m).
    destruct (drain_time count last m <? n).
    + apply IH.
    + specialize (IH buffer buffer' count last).
      destruct (send_loop jack p n next buffer count last),
               (send_loop jack' p n next buffer' count last).
      simpl in *. now rewrite IH.
  - specialize (IH buffer buffer' count last).
    destruct (send_loop jack p n next buffer count last),
             (send_loop jack' p n next buffer' count last).
    simpl in *. now rewrite IH.
Qed.

Lemma send_loop_never_room (jack : Jack) (p : jack_port_t) (n : Z)
      (q : list Message) :
  never_room jack ->
  forall buffer count last,
    fst (send_loop jack p n q buffer count last) = buffer.
Proof.
  intros Hfull. induction q as [|m next IH]; intros buffer count last; simpl;
    [reflexivity|].
  destruct (port m =? p).
  - fold (drain_time count last m).
    destruct (drain_time count last m <? n).
    + rewrite Hfull. apply IH.
    + specialize (IH buffer count last).
      destruct (send_loop jack p n next buffer count last). exact IH.
  - specialize (IH buffer count last).
    destruct (send_loop jack p n next buffer count last). exact IH.
Qed.

(** X4: when the server has no room for the events of a block
    ([jack_midi_event_reserve] returns [NULL] each time), the drain writes
    nothing and still takes off the queue every message it would have
    written: the queue is left as by a server with room, so those messages
    are lost. *)
Theorem drain_without_room_drops (jack jack' : Jack) (c : Client)
        (p : jack_port_t) (n : Z) (buffer : port_buffer) :
  never_room jack ->
  Client_send_messages_for_port jack c p n (Some buffer)
  = (fst (Client_send_messages_for_port jack' c p n (Some buffer)), Some []).
Proof.
  intros Hfull. rewrite !Client_send_messages_for_port_loop. simpl fst.
  rewrite (send_loop_never_room jack p n _ Hfull).
  now rewrite (send_loop_queue_any_server jack jack' p n _ [] [] 0 0).
Qed.

Lemma drain_without_room_drops_witness :
  Client_send_messages_for_port
    (full_jack 48000 (fun _ => JackPortIsOutput))
    (set_send_queue Client_new
       [mkMessage 7 3 [144; 60; 100]; mkMessage 7 700 [128; 60; 0]])
    7 512 (Some [])
  = (fst (Client_send_messages_for_port
            (roomy_jack 48000 (fun _ => JackPortIsOutput))
            (set_send_queue Client_new
               [mkMessage 7 3 [144; 60; 100]; mkMessage 7 700 [128; 60; 0]])
            7 512 (Some [])), Some []).
Proof.
  apply (drain_without_room_drops
           (full_jack 48000 (fun _ => JackPortIsOutput))
           (roomy_jack 48000 (fun _ => JackPortIsOutput))).
  intros b t n; reflexivity.
Defined.

(** ** The order in which a port's messages leave *)

Section DrainOrder.

Variable jack : Jack.
Variable p : jack_port_t.
Variable n : Z.

Hypothesis n_frames : is_nframes n.
Hypothesis room : always_room jack.

Lemma drain_time_mono (count last : Z) (x y : Message) :
  loop_state n count last ->
  time x <= time y ->
  drain_time count last x <= drain_time count last y.
Proof.
  intros Hst Hxy. pose proof n_frames as Hn. unfold is_nframes in Hn.
  unfold drain_time.
  destruct (0 <? count) eqn:Ec; simpl; [|exact Hxy].
  apply Z.ltb_lt in Ec. specialize (Hst Ec).
  assert (Hw : wrap32 (last + 1) = last + 1).
  { unfold wrap32. apply Z.mod_small. lia. }
  rewrite Hw.
  destruct (time x <=? last) eqn:Ex, (time y <=? last) eqn:Ey;
    try apply Z.leb_le in Ex; try apply Z.leb_le in Ey;
    try apply Z.leb_gt in Ex; try apply Z.leb_gt in Ey; lia.
Qed.

(** Messages whose drain time is past the block all stay, rebased, and the
    loop writes nothing. *)
Lemma send_loop_keeps_all (l : list Message) :
  forall buffer count last,
    Forall (fun x => port x = p /\ n <= drain_time count last x) l ->
    send_loop jack p n l buffer count last
    = (buffer,
       map (fun x => set_time x (wrap32 (drain_time count last x - n))) l).
Proof.
  induction l as [|m next IH]; intros buffer count last Hall; simpl;
    [reflexivity|].
  inversion Hall as [|? ? Hpm Hnext]; subst. destruct Hpm as [Hp Hm].
  rewrite Hp, Z.eqb_refl. fold (drain_time count last m).
  apply Z.ltb_ge in Hm. rewrite Hm.
  now rewrite (IH buffer count last Hnext).
Qed.

Lemma kept_sorted (count last : Z) (l : list Message) :
  loop_state n count last ->
  StronglySorted time_le l ->
  Forall (fun x => is_nframes (time x) /\ n <= drain_time count last x) l ->
  StronglySorted time_le
    (map (fun x => set_time x (wrap32 (drain_time count last x - n))) l).
Proof.
  intros Hst Hs. pose proof n_frames as Hn. unfold is_nframes in Hn.
  assert (Hval : forall x, is_nframes (time x) ->
                           n <= drain_time count last x ->
                           wrap32 (drain_time count last x - n)
                           = drain_time count last x - n).
  { intros x Hx Hle. pose proof (drain_time_range count last x Hx) as Hr.
    unfold is_nframes in Hr. unfold wrap32. apply Z.mod_small. lia. }
  induction Hs as [|a l Hs IH Hall]; intros Hwf; simpl; constructor.
  - apply IH. now inversion Hwf.
  - inversion Hwf as [|? ? [Ha Hka] Hwf']; subst.
    rewrite Forall_forall in *. intros y Hy.
    apply in_map_iff in Hy. destruct Hy as (x & <- & Hx).
    destruct (Hwf' x Hx) as [Hxr Hkx]. specialize (Hall x Hx).
    unfold time_le in *. simpl.
    rewrite (Hval a Ha Hka), (Hval x Hxr Hkx).
    pose proof (drain_time_mono count last a x Hst Hall). lia.
Qed.

(** On the messages of one port, sorted by time: the loop writes the bytes
    of the first [k] of them, in their order, and keeps the others, in
    their order and sorted by time. *)
Lemma send_loop_prefix (l : list Message) :
  StronglySorted time_le l ->
  Forall (fun x => port x = p /\ is_nframes (time x)) l ->
  forall buffer count last,
    loop_state n count last ->
    exists k written kept,
      send_loop jack p n l buffer count last = (buffer ++ written, kept)
      /\ map snd written = map data (firstn k l)
      /\ map data kept = map data (skipn k l)
      /\ Forall (fun x => port x = p) kept
      /\ StronglySorted time_le kept.
Proof.
  induction 1 as [|m next Hs IH Hall]; intros Hwf buffer count last Hst.
  - exists O, [], []. simpl. rewrite app_nil_r.
    repeat split; constructor.
  - inversion Hwf as [|? ? Hpm Hwf']; subst. destruct Hpm as [Hp Hm].
    destruct (drain_time count last m <? n) eqn:E.
    + destruct (IH Hwf' (buffer ++ [(drain_time count last m, data m)])
                   (count + 1) (drain_time count last m))
        as (k & written & kept & Hrun & Hw & Hk & Hport & Hsorted).
      { intros _. apply Z.ltb_lt in E.
        pose proof (drain_time_range count last m Hm) as Hr.
        unfold is_nframes in Hr. lia. }
      exists (S k), ((drain_time count last m, data m) :: written), kept.
      simpl. rewrite Hp, Z.eqb_refl. fold (drain_time count last m).
      rewrite E, room, Hrun, <- app_assoc. simpl.
      repeat split; auto. now rewrite Hw.
    + apply Z.ltb_ge in E.
      assert (Hlate : Forall (fun x => port x = p
                                       /\ n <= drain_time count last x)
                             (m :: next)).
      { constructor; [split; [exact Hp | exact E]|].
        rewrite Forall_forall in *. intros x Hx.
        destruct (Hwf' x Hx) as [Hpx _]. split; [exact Hpx|].
        pose proof (drain_time_mono count last m x Hst (Hall x Hx)). lia. }
      exists O, [],
        (map (fun x => set_time x (wrap32 (drain_time count last x - n)))
             (m :: next)).
      rewrite (send_loop_keeps_all (m :: next) buffer count last Hlate).
      rewrite app_nil_r. repeat split.
      * simpl. rewrite map_map. reflexivity.
      * rewrite Forall_forall. intros y Hy.
        apply in_map_iff in Hy. destruct Hy as (x & <- & Hx).
        rewrite Forall_forall in Hlate. now destruct (Hlate x Hx).
      * apply kept_sorted; [exact Hst | now constructor |].
        rewrite Forall_forall in *. intros x Hx.
        destruct (Hlate x Hx) as [_ Hk]. split; [|exact Hk].
        destruct Hx as [<- | Hx]; [exact Hm | now destruct (Hwf' x Hx)].
Qed.

End DrainOrder.

(** X5: on a send queue where the messages of a port are sorted by time,
    equal times allowed, a drain for that port writes the bytes of the
    first [k] of its messages, in queue order (so first sent first among
    events of the same time), and keeps the other ones in the queue, in
    their order, still sorted by time. *)
Theorem drain_writes_prefix_in_queue_order (jack : Jack) (c : Client)
        (p : jack_port_t) (n : Z) (buffer : port_buffer) :
  always_room jack ->
  is_nframes n ->
  StronglySorted time_le (on_port p (_midi_send_queue c)) ->
  Forall (fun m => is_nframes (time m)) (on_port p (_midi_send_queue c)) ->
  exists k c' b,
    Client_send_messages_for_port jack c p n (Some buffer) = (c', Some b)
    /\ map snd b = map data (firstn k (on_port p (_midi_send_queue c)))
    /\ map data (on_port p (_midi_send_queue c'))
       = map data (skipn k (on_port p (_midi_send_queue c)))
    /\ StronglySorted time_le (on_port p (_midi_send_queue c')).
Proof.
  intros Hroom Hn Hs Hwf.
  rewrite Client_send_messages_for_port_loop.
  destruct (send_loop_on_port jack p n (_midi_send_queue c) [] 0 0)
    as (H1 & H2 & _).
  destruct (send_loop_prefix jack p n Hn Hroom
              (on_port p (_midi_send_queue c)) Hs) with
      (buffer := @nil midi_event) (count := 0) (last := 0)
    as (k & written & kept & Hrun & Hw & Hk & _ & Hsorted).
  - rewrite Forall_forall in *. intros x Hx. split; [|now apply Hwf].
    apply filter_In in Hx. destruct Hx as [_ Hx]. now apply Z.eqb_eq in Hx.
  - intros H; lia.
  - rewrite Hrun in H1, H2. simpl in H1, H2.
    exists k. do 2 eexists. split; [reflexivity|]. simpl.
    rewrite H1, H2. repeat split; assumption.
Qed.

Lemma drain_writes_prefix_in_queue_order_witness :
  exists k c' b,
    Client_send_messages_for_port
      (roomy_jack 48000 (fun _ => JackPortIsOutput))
      (set_send_queue Client_new
         [mkMessage 7 2 [1]; mkMessage 9 2 [9]; mkMessage 7 2 [2];
          mkMessage 7 3 [3]; mkMessage 7 3 [4]; mkMessage 7 40 [5]])
      7 4 (Some [])
    = (c', Some b)
    /\ map snd b
       = map data
           (firstn k
              (on_port 7
                 (_midi_send_queue
                    (set_send_queue Client_new
                       [mkMessage 7 2 [1]; mkMessage 9 2 [9];
                        mkMessage 7 2 [2]; mkMessage 7 3 [3];
                        mkMessage 7 3 [4]; mkMessage 7 40 [5]]))))
    /\ map data (on_port 7 (_midi_send_queue c'))
       = map data
           (skipn k
              (on_port 7
                 (_midi_send_queue
                    (set_send_queue Client_new
                       [mkMessage 7 2 [1]; mkMessage 9 2 [9];
                        mkMessage 7 2 [2]; mkMessage 7 3 [3];
                        mkMessage 7 3 [4]; mkMessage 7 40 [5]]))))
    /\ StronglySorted time_le (on_port 7 (_midi_send_queue c')).
Proof.
  apply (drain_writes_prefix_in_queue_order
           (roomy_jack 48000 (fun _ => JackPortIsOutput))
           (set_send_queue Client_new
              [mkMessage 7 2 [1]; mkMessage 9 2 [9]; mkMessage 7 2 [2];
               mkMessage 7 3 [3]; mkMessage 7 3 [4]; mkMessage 7 40 [5]])
           7 4 []).
  - intros b t n; reflexivity.
  - unfold is_nframes, NFRAMES_MODULUS; lia.
  - unfold time_le. simpl. repeat constructor; simpl; lia.
  - unfold is_nframes, NFRAMES_MODULUS. simpl. repeat constructor; simpl; lia.
Defined.

(** ** The process callback as a whole *)

Lemma Client_send_messages_for_port_frame (jack : Jack) (c : Client)
      (p : jack_port_t) (n : Z) (buffer : option port_buffer) :
  _midi_receive_queue (fst (Client_send_messages_for_port jack c p n buffer))
  = _midi_receive_queue c
  /\ same_registry c (fst (Client_send_messages_for_port jack c p n buffer)).
Proof.
  destruct buffer as [b|]; [|simpl; auto using same_registry_refl].
  rewrite Client_send_messages_for_port_loop. simpl fst.
  split; [reflexivity | apply same_registry_set_send_queue].
Qed.

Lemma process_send_frame (jack : Jack) (blk : Block)
      (ports : list jack_port_t) :
  forall c,
    _midi_receive_queue (fst (process_send jack blk ports c))
    = _midi_receive_queue c
    /\ same_registry c (fst (process_send jack blk ports c))
    /\ map fst (snd (process_send jack blk ports c)) = ports.
Proof.
  induction ports as [|p ports IH]; intros c; simpl;
    [auto using same_registry_refl|].
  pose proof (Client_send_messages_for_port_frame
                jack c p (block_nframes blk) (write_buffer blk p)) as Hstep.
  destruct (Client_send_messages_for_port jack c p (block_nframes blk)
                                          (write_buffer blk p)) as [c1 b].
  simpl in Hstep. destruct Hstep as [H1 H2].
  specialize (IH c1).
  destruct (process_send jack blk ports c1) as [c2 bs]. simpl in *.
  destruct IH as (I1 & I2 & I3).
  split; [congruence|]. split; [|now rewrite I3].
  eapply same_registry_trans; eassumption.
Qed.

Lemma Client_receive_messages_for_port_frame (c : Client) (p : jack_port_t)
      (buffer : option (list fetch)) (start_frame : Z) :
  _midi_send_queue (Client_receive_messages_for_port c p buffer start_frame)
  = _midi_send_queue c
  /\ same_registry c
       (Client_receive_messages_for_port c p buffer start_frame).
Proof.
  destruct buffer as [[|e events]|]; simpl;
    split; try reflexivity; try apply same_registry_refl.
  unfold same_registry. simpl. auto 7.
Qed.

Lemma process_receive_queue (blk : Block) (ports : list jack_port_t) :
  forall c,
    _midi_receive_queue (process_receive blk ports c)
    = _midi_receive_queue c
      ++ List.concat (map (fun p => arrivals [Fill p (read_buffer blk p)
                                              (transport_frame blk)]) ports)
    /\ _midi_send_queue (process_receive blk ports c) = _midi_send_queue c
    /\ same_registry c (process_receive blk ports c).
Proof.
  induction ports as [|p ports IH]; intros c; cbn [process_receive map List.concat].
  - rewrite app_nil_r. auto using same_registry_refl.
  - destruct (IH (Client_receive_messages_for_port
                    c p (read_buffer blk p) (transport_frame blk)))
      as (H1 & H2 & H3).
    destruct (Client_receive_messages_for_port_frame
                c p (read_buffer blk p) (transport_frame blk)) as [F1 F2].
    rewrite H1, H2, Client_receive_messages_for_port_queue, <- app_assoc.
    split; [reflexivity|]. split; [exact F1|].
    eapply same_registry_trans; eassumption.
Qed.

(** X6: one call of [Client_process] always returns [0]; it hands back one
    buffer for each managed output port, in the order the ports were
    registered; it appends to the receive queue what each managed input
    port received in the block, port after port in the order the ports
    were registered, after what was queued already; and it changes neither
    the handle, nor [is_active], nor the ports of the client. *)
Theorem Client_process_in_registration_order (jack : Jack) (blk : Block)
        (c : Client) :
  match Client_process jack blk c with
  | (status, c', out) =>
      status = 0
      /\ map fst out = managed_ports (_send_port_count c) (_send_ports c)
      /\ _midi_receive_queue c'
         = _midi_receive_queue c
           ++ List.concat
                (map (fun p => arrivals [Fill p (read_buffer blk p)
                                              (transport_frame blk)])
                     (managed_ports (_receive_port_count c)
                                    (_receive_ports c)))
      /\ same_registry c c'
  end.
Proof.
  unfold Client_process.
  destruct (process_send_frame
              jack blk (managed_ports (_send_port_count c) (_send_ports c)) c)
    as (S1 & S2 & S3).
  destruct (process_send jack blk
              (managed_ports (_send_port_count c) (_send_ports c)) c)
    as [c1 out].
  simpl in S1, S2, S3.
  destruct (process_receive_queue
              blk (managed_ports (_receive_port_count c1) (_receive_ports c1))
              c1) as (R1 & _ & R3).
  split; [reflexivity|]. split; [exact S3|].
  pose proof S2 as (_ & _ & _ & _ & E5 & E6).
  split.
  - rewrite R1, S1, E5, E6. reflexivity.
  - eapply same_registry_trans; eassumption.
Qed.

(** ** Clearing a port *)

Lemma clear_loop_off_port (p : jack_port_t) (q : list Message) :
  clear_loop p q = off_port p q.
Proof.
  induction q as [|m q IH]; simpl; [reflexivity|].
  destruct (port m =? p); simpl; now rewrite IH.
Qed.

Lemma Port_clear_send_off_port (self : Port) (c : Client) :
  Port_clear_send self c
  = set_send_queue c (off_port (_port self) (_midi_send_queue c)).
Proof.
  unfold Port_clear_send.
  destruct (_midi_send_queue c) as [|m q] eqn:E.
  - simpl. rewrite <- E. symmetry. apply set_send_queue_same.
  - now rewrite clear_loop_off_port.
Qed.

Lemma Port_clear_receive_off_port (self : Port) (c : Client) :
  Port_clear_receive self c
  = set_receive_queue c (off_port (_port self) (_midi_receive_queue c)).
Proof.
  unfold Port_clear_receive.
  destruct (_midi_receive_queue c) as [|m q] eqn:E.
  - simpl. rewrite <- E. symmetry. apply set_receive_queue_same.
  - now rewrite clear_loop_off_port.
Qed.

Lemma on_port_off_port_same (p : jack_port_t) (q : list Message) :
  on_port p (off_port p q) = [].
Proof.
  induction q as [|m q IH]; simpl; [reflexivity|].
  destruct (port m =? p) eqn:E; simpl; [exact IH|]. now rewrite E.
Qed.

Lemma off_port_idempotent (p : jack_port_t) (q : list Message) :
  off_port p (off_port p q) = off_port p q.
Proof.
  induction q as [|m q IH]; simpl; [reflexivity|].
  destruct (port m =? p) eqn:E; simpl; [exact IH|]. now rewrite E, IH.
Qed.

(** The loop of the drain passes over a queue that holds nothing for its
    port. *)
Lemma send_loop_without_port (jack : Jack) (p : jack_port_t) (n : Z)
      (q : list Message) :
  on_port p q = [] ->
  forall buffer count last,
    send_loop jack p n q buffer count last = (buffer, q).
Proof.
  induction q as [|m q IH]; simpl; intros H buffer count last; [reflexivity|].
  destruct (port m =? p); [discriminate|].
  now rewrite (IH H).
Qed.

(** X7: [Port_clear_send], on any port, takes the messages of that port,
    and only those, off the send queue, the others keeping their order; it
    touches nothing else of the client. A drain for the port then writes
    an empty buffer and leaves the client as it is, and clearing again
    changes nothing. *)
Theorem Port_clear_send_empties_port (self : Port) (c : Client) :
  _midi_send_queue (Port_clear_send self c)
  = off_port (_port self) (_midi_send_queue c)
  /\ on_port (_port self) (_midi_send_queue (Port_clear_send self c)) = []
  /\ _midi_receive_queue (Port_clear_send self c) = _midi_receive_queue c
  /\ same_registry c (Port_clear_send self c)
  /\ (forall jack n buffer,
         Client_send_messages_for_port jack (Port_clear_send self c)
                                       (_port self) n (Some buffer)
         = (Port_clear_send self c, Some []))
  /\ Port_clear_send self (Port_clear_send self c) = Port_clear_send self c.
Proof.
  rewrite !Port_clear_send_off_port. simpl _midi_send_queue.
  split; [reflexivity|]. split; [apply on_port_off_port_same|].
  split; [reflexivity|]. split; [apply same_registry_set_send_queue|].
  split.
  - intros jack n buffer. rewrite Client_send_messages_for_port_loop.
    simpl _midi_send_queue.
    rewrite (send_loop_without_port jack (_port self) n _
               (on_port_off_port_same (_port self) (_midi_send_queue c))).
    simpl. reflexivity.
  - rewrite off_port_idempotent. reflexivity.
Qed.

Lemma receive_scan_off_port (p p' : jack_port_t) (q : list Message) :
  p' <> p ->
  receive_scan p' (off_port p q)
  = match receive_scan p' q with
    | Some (m, rest) => Some (m, off_port p rest)
    | None => None
    end.
Proof.
  intros Hne. induction q as [|m q IH]; simpl; [reflexivity|].
  destruct (port m =? p) eqn:E; simpl.
  - apply Z.eqb_eq in E.
    assert (E' : (port m =? p') = false) by (apply Z.eqb_neq; congruence).
    rewrite E', IH. destruct (receive_scan p' q) as [[found rest]|]; simpl;
      [rewrite E, Z.eqb_refl|]; reflexivity.
  - destruct (port m =? p') eqn:E'; [reflexivity|].
    rewrite IH. destruct (receive_scan p' q) as [[found rest]|];
      simpl; [rewrite E|]; reflexivity.
Qed.

Lemma Client_activate_set_receive_queue (jack : Jack) (c : Client)
      (q : list Message) :
  Client_activate jack (set_receive_queue c q)
  = set_receive_queue (Client_activate jack c) q.
Proof.
  unfold Client_activate, Client_open. simpl.
  destruct (_client c =? NULL); simpl;
    repeat match goal with
           | |- context [if ?b then _ else _] => destruct b; simpl
           end; reflexivity.
Qed.

(** X8: [Port_clear_receive], on any port, takes the messages of that
    port, and only those, off the receive queue, the others keeping their
    order, and touches nothing else of the client. [Port_receive] on the
    port then returns no message, [Port_receive] on another port returns
    what it would have returned without the clearing, and clearing again
    changes nothing. *)
Theorem Port_clear_receive_empties_port (jack : Jack) (self other : Port)
        (c : Client) :
  _client (Client_activate jack c) <> NULL ->
  _port other <> _port self ->
  _midi_receive_queue (Port_clear_receive self c)
  = off_port (_port self) (_midi_receive_queue c)
  /\ _midi_send_queue (Port_clear_receive self c) = _midi_send_queue c
  /\ same_registry c (Port_clear_receive self c)
  /\ (forall x,
         fst (Port_receive jack self (Port_clear_receive self c))
         <> Returned (Some x))
  /\ fst (Port_receive jack other (Port_clear_receive self c))
     = fst (Port_receive jack other c)
  /\ Port_clear_receive self (Port_clear_receive self c)
     = Port_clear_receive self c.
Proof.
  intros Hopen Hne. rewrite !Port_clear_receive_off_port.
  simpl _midi_receive_queue.
  split; [reflexivity|]. split; [reflexivity|].
  split; [unfold same_registry; simpl; auto 7|].
  destruct (Client_activate_queues jack c) as [_ Hq].
  split; [|split].
  - intros x. unfold Port_receive.
    destruct (negb (_is_mine self)); [discriminate|].
    destruct (Z.land (jack_port_flags jack (_port self)) JackPortIsInput =? 0);
      [discriminate|].
    rewrite Client_activate_set_receive_queue. simpl _midi_receive_queue.
    destruct (off_port (_port self) (_midi_receive_queue c)) as [|m q] eqn:E;
      [discriminate|].
    simpl _client.
    destruct (_client (Client_activate jack c) =? NULL); [discriminate|].
    rewrite <- E, receive_scan_none by apply on_port_off_port_same.
    discriminate.
  - unfold Port_receive.
    destruct (negb (_is_mine other)); [reflexivity|].
    destruct (Z.land (jack_port_flags jack (_port other)) JackPortIsInput =? 0);
      [reflexivity|].
    rewrite Client_activate_set_receive_queue. simpl _midi_receive_queue.
    simpl _client. rewrite Hq.
    apply Z.eqb_neq in Hopen. rewrite Hopen.
    pose proof (receive_scan_off_port (_port self) (_port other)
                                      (_midi_receive_queue c) Hne) as Hscan.
    destruct (off_port (_port self) (_midi_receive_queue c)) as [|m q] eqn:E.
    + simpl in Hscan.
      destruct (_midi_receive_queue c) as [|m0 q0] eqn:E0; [reflexivity|].
      destruct (receive_scan (_port other) (m0 :: q0)) as [[found rest]|];
        [discriminate | reflexivity].
    + destruct (_midi_receive_queue c) as [|m0 q0] eqn:E0; [discriminate|].
      rewrite Hscan.
      destruct (receive_scan (_port other) (m0 :: q0)) as [[found rest]|];
        reflexivity.
  - rewrite off_port_idempotent. reflexivity.
Qed.

Lemma Port_clear_receive_empties_port_witness :
  _midi_receive_queue
    (Port_clear_receive (mkPort 7 true)
       (set_receive_queue Client_new
          [mkMessage 7 10 [1]; mkMessage 9 11 [2]; mkMessage 7 12 [3]]))
  = off_port (_port (mkPort 7 true))
      (_midi_receive_queue
         (set_receive_queue Client_new
            [mkMessage 7 10 [1]; mkMessage 9 11 [2]; mkMessage 7 12 [3]]))
  /\ _midi_send_queue
       (Port_clear_receive (mkPort 7 true)
          (set_receive_queue Client_new
             [mkMessage 7 10 [1]; mkMessage 9 11 [2]; mkMessage 7 12 [3]]))
     = _midi_send_queue
         (set_receive_queue Client_new
            [mkMessage 7 10 [1]; mkMessage 9 11 [2]; mkMessage 7 12 [3]])
  /\ same_registry
       (set_receive_queue Client_new
          [mkMessage 7 10 [1]; mkMessage 9 11 [2]; mkMessage 7 12 [3]])
       (Port_clear_receive (mkPort 7 true)
          (set_receive_queue Client_new
             [mkMessage 7 10 [1]; mkMessage 9 11 [2]; mkMessage 7 12 [3]]))
  /\ (forall x,
         fst (Port_receive (roomy_jack 48000 (fun _ => JackPortIsInput))
                (mkPort 7 true)
                (Port_clear_receive (mkPort 7 true)
                   (set_receive_queue Client_new
                      [mkMessage 7 10 [1]; mkMessage 9 11 [2];
                       mkMessage 7 12 [3]])))
         <> Returned (Some x))
  /\ fst (Port_receive (roomy_jack 48000 (fun _ => JackPortIsInput))
            (mkPort 9 true)
            (Port_clear_receive (mkPort 7 true)
               (set_receive_queue Client_new
                  [mkMessage 7 10 [1]; mkMessage 9 11 [2];
                   mkMessage 7 12 [3]])))
     = fst (Port_receive (roomy_jack 48000 (fun _ => JackPortIsInput))
              (mkPort 9 true)
              (set_receive_queue Client_new
                 [mkMessage 7 10 [1]; mkMessage 9 11 [2];
                  mkMessage 7 12 [3]]))
  /\ Port_clear_receive (mkPort 7 true)
       (Port_clear_receive (mkPort 7 true)
          (set_receive_queue Client_new
             [mkMessage 7 10 [1]; mkMessage 9 11 [2]; mkMessage 7 12 [3]]))
     = Port_clear_receive (mkPort 7 true)
         (set_receive_queue Client_new
            [mkMessage 7 10 [1]; mkMessage 9 11 [2]; mkMessage 7 12 [3]]).
Proof.
  apply (Port_clear_receive_empties_port
           (roomy_jack 48000 (fun _ => JackPortIsInput))
           (mkPort 7 true) (mkPort 9 true)
           (set_receive_queue Client_new
              [mkMessage 7 10 [1]; mkMessage 9 11 [2]; mkMessage 7 12 [3]])).
  - vm_compute; discriminate.
  - vm_compute; discriminate.
Defined.

(** ** Registering ports *)

Lemma array_set_length (l : list jack_port_t) (i : nat) (p : jack_port_t) :
  List.length (array_set l i p) = List.length l.
Proof.
  revert i. induction l as [|x l IH]; intros [|i]; simpl; auto.
Qed.

Lemma nth_array_set_same (l : list jack_port_t) (i : nat) (p : jack_port_t) :
  (i < List.length l)%nat -> nth i (array_set l i p) NULL = p.
Proof.
  revert i. induction l as [|x l IH]; intros i H; simpl in *; [lia|].
  destruct i as [|i]; [reflexivity|]. apply IH. lia.
Qed.

Lemma nth_array_set_other (l : list jack_port_t) (i j : nat)
      (p : jack_port_t) :
  i <> j -> nth j (array_set l i p) NULL = nth j l NULL.
Proof.
  revert i j. induction l as [|x l IH]; intros [|i] [|j] H; simpl;
    try reflexivity; try congruence.
  apply IH. congruence.
Qed.

(** Storing a port in the cell after the last counted one and counting it
    adds it at the end of the managed ports. *)
Lemma managed_ports_stored (count : Z) (ports : list jack_port_t)
      (p : jack_port_t) :
  0 <= count ->
  (Z.to_nat count < List.length ports)%nat ->
  managed_ports (count + 1) (array_set ports (Z.to_nat count) p)
  = managed_ports count ports ++ [p].
Proof.
  intros H0 Hlen. unfold managed_ports.
  replace (Z.to_nat (count + 1)) with (S (Z.to_nat count)) by lia.
  rewrite seq_S, map_app. simpl.
  rewrite nth_array_set_same by exact Hlen. f_equal.
  apply map_ext_in. intros i Hi. apply in_seq in Hi.
  apply nth_array_set_other. lia.
Qed.

Lemma Client_open_frame (jack : Jack) (c : Client) :
  is_active (Client_open jack c) = is_active c
  /\ _send_port_count (Client_open jack c) = _send_port_count c
  /\ _send_ports (Client_open jack c) = _send_ports c
  /\ _midi_send_queue (Client_open jack c) = _midi_send_queue c
  /\ _receive_port_count (Client_open jack c) = _receive_port_count c
  /\ _receive_ports (Client_open jack c) = _receive_ports c
  /\ _midi_receive_queue (Client_open jack c) = _midi_receive_queue c.
Proof. unfold Client_open. destruct (_client c =? NULL); simpl; auto 8. Qed.

Lemma Client_open_opened (jack : Jack) (c : Client) :
  _client c <> NULL -> Client_open jack c = c.
Proof.
  intros H. unfold Client_open. apply Z.eqb_neq in H. now rewrite H.
Qed.

(** X9: under the limit, [Port_init] for a name that no port has yet and
    that the server registers stores the new port after the ports counted
    so far and counts it: with the input flag among the managed receive
    ports, the send side untouched; with the output flag and without the
    input flag among the managed send ports, the receive side untouched.
    It returns [0] without a warning and the port is marked as made by
    jackpatch. *)
Theorem Port_init_registers_port (jack : Jack) (c : Client)
        (p : jack_port_t) (flags : Z) :
  registry_ok c ->
  _client (Client_open jack c) <> NULL ->
  p <> NULL ->
  init_result (Port_init jack NULL p c flags) = 0
  /\ init_port (Port_init jack NULL p c flags) = mkPort p true
  /\ _midi_send_queue (init_client (Port_init jack NULL p c flags))
     = _midi_send_queue c
  /\ _midi_receive_queue (init_client (Port_init jack NULL p c flags))
     = _midi_receive_queue c
  /\ (Z.land flags JackPortIsInput <> 0 ->
      _receive_port_count c < MAX_PORTS_PER_CLIENT ->
      init_warnings (Port_init jack NULL p c flags) = []
      /\ managed_ports
           (_receive_port_count (init_client (Port_init jack NULL p c flags)))
           (_receive_ports (init_client (Port_init jack NULL p c flags)))
         = managed_ports (_receive_port_count c) (_receive_ports c) ++ [p]
      /\ _send_port_count (init_client (Port_init jack NULL p c flags))
         = _send_port_count c
      /\ _send_ports (init_client (Port_init jack NULL p c flags))
         = _send_ports c)
  /\ (Z.land flags JackPortIsInput = 0 ->
      Z.land flags JackPortIsOutput <> 0 ->
      _send_port_count c < MAX_PORTS_PER_CLIENT ->
      init_warnings (Port_init jack NULL p c flags) = []
      /\ managed_ports
           (_send_port_count (init_client (Port_init jack NULL p c flags)))
           (_send_ports (init_client (Port_init jack NULL p c flags)))
         = managed_ports (_send_port_count c) (_send_ports c) ++ [p]
      /\ _receive_port_count (init_client (Port_init jack NULL p c flags))
         = _receive_port_count c
      /\ _receive_ports (init_client (Port_init jack NULL p c flags))
         = _receive_ports c).
Proof.
  intros (Hs0 & Hsl & Hr0 & Hrl) Hopen Hp.
  destruct (Client_open_frame jack c) as (_ & A2 & A3 & A4 & A5 & A6 & A7).
  unfold Port_init. apply Z.eqb_neq in Hopen, Hp. rewrite Hopen. simpl.
  unfold manage_port. rewrite A2, A3, A4, A5, A6, A7, Hp.
  destruct (Z.land flags JackPortIsInput =? 0) eqn:Ein; simpl.
  - apply Z.eqb_eq in Ein.
    destruct (Z.land flags JackPortIsOutput =? 0) eqn:Eout; simpl.
    + apply Z.eqb_eq in Eout. repeat split; auto; intros; contradiction.
    + destruct (MAX_PORTS_PER_CLIENT <=? _send_port_count c) eqn:Efull; simpl.
      * apply Z.leb_le in Efull.
        repeat split; auto; intros; try contradiction; lia.
      * apply Z.leb_gt in Efull.
        repeat split; auto; intros; try contradiction.
        apply managed_ports_stored; lia.
  - destruct (MAX_PORTS_PER_CLIENT <=? _receive_port_count c) eqn:Efull; simpl.
    + apply Z.leb_le in Efull. apply Z.eqb_neq in Ein.
      repeat split; auto; intros; try contradiction; lia.
    + apply Z.leb_gt in Efull. apply Z.eqb_neq in Ein.
      repeat split; auto; intros; try contradiction.
      apply managed_ports_stored; lia.
Qed.

Lemma registry_ok_new : registry_ok Client_new.
Proof.
  unfold registry_ok, Client_new, MAX_PORTS_PER_CLIENT.
  cbn [_send_port_count _send_ports _receive_port_count _receive_ports].
  rewrite !repeat_length. lia.
Qed.

Lemma Port_init_registers_port_witness :
  init_result
    (Port_init (roomy_jack 48000 (fun _ => JackPortIsInput)) NULL 1000
               Client_new JackPortIsInput) = 0
  /\ init_port
       (Port_init (roomy_jack 48000 (fun _ => JackPortIsInput)) NULL 1000
                  Client_new JackPortIsInput) = mkPort 1000 true
  /\ _midi_send_queue
       (init_client
          (Port_init (roomy_jack 48000 (fun _ => JackPortIsInput)) NULL 1000
                     Client_new JackPortIsInput))
     = _midi_send_queue Client_new
  /\ _midi_receive_queue
       (init_client
          (Port_init (roomy_jack 48000 (fun _ => JackPortIsInput)) NULL 1000
                     Client_new JackPortIsInput))
     = _midi_receive_queue Client_new
  /\ (Z.land JackPortIsInput JackPortIsInput <> 0 ->
      _receive_port_count Client_new < MAX_PORTS_PER_CLIENT ->
      init_warnings
        (Port_init (roomy_jack 48000 (fun _ => JackPortIsInput)) NULL 1000
                   Client_new JackPortIsInput) = []
      /\ managed_ports
           (_receive_port_count
              (init_client
                 (Port_init (roomy_jack 48000 (fun _ => JackPortIsInput))
                            NULL 1000 Client_new JackPortIsInput)))
           (_receive_ports
              (init_client
                 (Port_init (roomy_jack 48000 (fun _ => JackPortIsInput))
                            NULL 1000 Client_new JackPortIsInput)))
         = managed_ports (_receive_port_count Client_new)
                         (_receive_ports Client_new) ++ [1000]
      /\ _send_port_count
           (init_client
              (Port_init (roomy_jack 48000 (fun _ => JackPortIsInput))
                         NULL 1000 Client_new JackPortIsInput))
         = _send_port_count Client_new
      /\ _send_ports
           (init_client
              (Port_init (roomy_jack 48000 (fun _ => JackPortIsInput))
                         NULL 1000 Client_new JackPortIsInput))
         = _send_ports Client_new)
  /\ (Z.land JackPortIsInput JackPortIsInput = 0 ->
      Z.land JackPortIsInput JackPortIsOutput <> 0 ->
      _send_port_count Client_new < MAX_PORTS_PER_CLIENT ->
      init_warnings
        (Port_init (roomy_jack 48000 (fun _ => JackPortIsInput)) NULL 1000
                   Client_new JackPortIsInput) = []
      /\ managed_ports
           (_send_port_count
              (init_client
                 (Port_init (roomy_jack 48000 (fun _ => JackPortIsInput))
                            NULL 1000 Client_new JackPortIsInput)))
           (_send_ports
              (init_client
                 (Port_init (roomy_jack 48000 (fun _ => JackPortIsInput))
                            NULL 1000 Client_new JackPortIsInput)))
         = managed_ports (_send_port_count Client_new)
                         (_send_ports Client_new) ++ [1000]
      /\ _receive_port_count
           (init_client
              (Port_init (roomy_jack 48000 (fun _ => JackPortIsInput))
                         NULL 1000 Client_new JackPortIsInput))
         = _receive_port_count Client_new
      /\ _receive_ports
           (init_client
              (Port_init (roomy_jack 48000 (fun _ => JackPortIsInput))
                         NULL 1000 Client_new JackPortIsInput))
         = _receive_ports Client_new).
Proof.
  apply (Port_init_registers_port
           (roomy_jack 48000 (fun _ => JackPortIsInput)) Client_new 1000
           JackPortIsInput).
  - exact registry_ok_new.
  - vm_compute; discriminate.
  - vm_compute; discriminate.
Defined.

(** X10: whatever the server answers and whatever the flags, [Port_init]
    keeps the counts of managed ports between [0] and
    [MAX_PORTS_PER_CLIENT] and the port arrays at their
    [MAX_PORTS_PER_CLIENT] cells: it never stores a port outside an
    array. *)
Theorem Port_init_keeps_registry_bounds (jack : Jack)
        (by_name registered : jack_port_t) (c : Client) (flags : Z) :
  registry_ok c ->
  registry_ok (init_client (Port_init jack by_name registered c flags)).
Proof.
  intros (Hs0 & Hsl & Hr0 & Hrl).
  destruct (Client_open_frame jack c) as (_ & A2 & A3 & _ & A5 & A6 & _).
  assert (Hopen : registry_ok (Client_open jack c)).
  { unfold registry_ok. rewrite A2, A3, A5, A6. auto. }
  unfold Port_init.
  destruct (_client (Client_open jack c) =? NULL); [exact Hopen|].
  destruct (negb (by_name =? NULL)); [exact Hopen|].
  assert (Hm : registry_ok (fst (manage_port (Client_open jack c)
                                             registered flags))).
  { unfold manage_port. rewrite A2, A3, A5, A6.
    destruct (negb (Z.land flags JackPortIsInput =? 0)).
    - destruct (MAX_PORTS_PER_CLIENT <=? _receive_port_count c) eqn:E;
        [exact Hopen|].
      apply Z.leb_gt in E. unfold registry_ok. simpl.
      rewrite array_set_length. repeat split; auto; lia.
    - destruct (negb (Z.land flags JackPortIsOutput =? 0)); [|exact Hopen].
      destruct (MAX_PORTS_PER_CLIENT <=? _send_port_count c) eqn:E;
        [exact Hopen|].
      apply Z.leb_gt in E. unfold registry_ok. simpl.
      rewrite array_set_length. repeat split; auto; lia. }
  destruct (manage_port (Client_open jack c) registered flags) as [c' w].
  destruct (registered =? NULL); exact Hm.
Qed.

Lemma Port_init_keeps_registry_bounds_witness :
  registry_ok
    (init_client
       (Port_init (roomy_jack 48000 (fun _ => JackPortIsOutput)) NULL 1000
                  Client_new JackPortIsOutput)).
Proof.
  apply (Port_init_keeps_registry_bounds
           (roomy_jack 48000 (fun _ => JackPortIsOutput)) NULL 1000
           Client_new JackPortIsOutput).
  exact registry_ok_new.
Defined.

(** X11: when the server fails to register an input port
    ([jack_port_register] returns [NULL]) and the limit is not reached,
    [Port_init] returns [-1] with an error, yet it has stored the [NULL]
    port with the client and counted it: the failed port takes one of the
    [MAX_PORTS_PER_CLIENT] cells and is among the ports the process
    callback goes through. *)
Theorem Port_init_failed_registration_is_counted (jack : Jack) (c : Client)
        (flags : Z) :
  registry_ok c ->
  _client (Client_open jack c) <> NULL ->
  Z.land flags JackPortIsInput <> 0 ->
  _receive_port_count c < MAX_PORTS_PER_CLIENT ->
  init_result (Port_init jack NULL NULL c flags) = -1
  /\ init_raised (Port_init jack NULL NULL c flags)
     = Some "Failed to create a JACK port"%string
  /\ _receive_port_count (init_client (Port_init jack NULL NULL c flags))
     = _receive_port_count c + 1
  /\ managed_ports
       (_receive_port_count (init_client (Port_init jack NULL NULL c flags)))
       (_receive_ports (init_client (Port_init jack NULL NULL c flags)))
     = managed_ports (_receive_port_count c) (_receive_ports c) ++ [NULL].
Proof.
  intros (Hs0 & Hsl & Hr0 & Hrl) Hopen Hin Hfree.
  destruct (Client_open_frame jack c) as (_ & A2 & A3 & A4 & A5 & A6 & A7).
  unfold Port_init. apply Z.eqb_neq in Hopen, Hin. rewrite Hopen. simpl.
  unfold manage_port. rewrite A2, A3, A4, A5, A6, A7, Hin. simpl.
  apply Z.leb_gt in Hfree. rewrite Hfree. simpl.
  repeat split. apply Z.leb_gt in Hfree. apply managed_ports_stored; lia.
Qed.

Lemma Port_init_failed_registration_is_counted_witness :
  init_result
    (Port_init (roomy_jack 48000 (fun _ => JackPortIsInput)) NULL NULL
               Client_new JackPortIsInput) = -1
  /\ init_raised
       (Port_init (roomy_jack 48000 (fun _ => JackPortIsInput)) NULL NULL
                  Client_new JackPortIsInput)
     = Some "Failed to create a JACK port"%string
  /\ _receive_port_count
       (init_client
          (Port_init (roomy_jack 48000 (fun _ => JackPortIsInput)) NULL NULL
                     Client_new JackPortIsInput))
     = _receive_port_count Client_new + 1
  /\ managed_ports
       (_receive_port_count
          (init_client
             (Port_init (roomy_jack 48000 (fun _ => JackPortIsInput))
                        NULL NULL Client_new JackPortIsInput)))
       (_receive_ports
          (init_client
             (Port_init (roomy_jack 48000 (fun _ => JackPortIsInput))
                        NULL NULL Client_new JackPortIsInput)))
     = managed_ports (_receive_port_count Client_new)
                     (_receive_ports Client_new) ++ [NULL].
Proof.
  apply (Port_init_failed_registration_is_counted
           (roomy_jack 48000 (fun _ => JackPortIsInput)) Client_new
           JackPortIsInput).
  - exact registry_ok_new.
  - vm_compute; discriminate.
  - vm_compute; discriminate.
  - vm_compute; reflexivity.
Defined.

(** ** Ports that exist already *)

Lemma Port_init_found (jack : Jack) (by_name registered : jack_port_t)
      (c : Client) (flags : Z) :
  _client (Client_open jack c) <> NULL ->
  by_name <> NULL ->
  Port_init jack by_name registered c flags
  = mkPortInit 0 None [] (Client_open jack c) (mkPort by_name false).
Proof.
  intros Hopen Hfound. unfold Port_init.
  apply Z.eqb_neq in Hopen, Hfound. now rewrite Hopen, Hfound.
Qed.

Lemma not_mine_cannot_send (jack : Jack) (malloc_ok : bool)
      (p : jack_port_t) (c : Client) (items : list PyItem) (seconds : Q) :
  Port_send jack malloc_ok (mkPort p false) c (PySequence items) seconds
  = (Raised JackError
       "Only ports created by jackpatch can send MIDI messages", c).
Proof. reflexivity. Qed.

Lemma not_mine_cannot_receive (jack : Jack) (p : jack_port_t) (c : Client) :
  Port_receive jack (mkPort p false) c
  = (Raised JackError
       "Only ports created by jackpatch can receive MIDI messages", c).
Proof. reflexivity. Qed.

(** X12: [Port_init] for a name that a port has already, be it a port this
    client registered earlier, returns [0] and leaves the ports and queues
    of the client as they are; the [Port] it makes is not marked as made by
    jackpatch, whatever the flags asked for, so [Port_send] and
    [Port_receive] on it raise and change nothing. *)
Theorem Port_init_existing_port_is_not_mine (jack : Jack)
        (by_name registered : jack_port_t) (c : Client) (flags : Z) :
  _client (Client_open jack c) <> NULL ->
  by_name <> NULL ->
  Port_init jack by_name registered c flags
  = mkPortInit 0 None [] (Client_open jack c) (mkPort by_name false)
  /\ (forall malloc_ok c' items seconds,
         Port_send jack malloc_ok
                   (init_port (Port_init jack by_name registered c flags))
                   c' (PySequence items) seconds
         = (Raised JackError
              "Only ports created by jackpatch can send MIDI messages", c'))
  /\ (forall c',
         Port_receive jack
                      (init_port (Port_init jack by_name registered c flags))
                      c'
         = (Raised JackError
              "Only ports created by jackpatch can receive MIDI messages",
            c')).
Proof.
  intros Hopen Hfound.
  rewrite (Port_init_found jack by_name registered c flags Hopen Hfound).
  simpl. repeat split.
Qed.

Lemma Port_init_existing_port_is_not_mine_witness :
  Port_init (roomy_jack 48000 (fun _ => JackPortIsOutput)) 1000 1001
            Client_new JackPortIsOutput
  = mkPortInit 0 None []
      (Client_open (roomy_jack 48000 (fun _ => JackPortIsOutput)) Client_new)
      (mkPort 1000 false)
  /\ (forall malloc_ok c' items seconds,
         Port_send (roomy_jack 48000 (fun _ => JackPortIsOutput)) malloc_ok
                   (init_port
                      (Port_init
                         (roomy_jack 48000 (fun _ => JackPortIsOutput))
                         1000 1001 Client_new JackPortIsOutput))
                   c' (PySequence items) seconds
         = (Raised JackError
              "Only ports created by jackpatch can send MIDI messages", c'))
  /\ (forall c',
         Port_receive (roomy_jack 48000 (fun _ => JackPortIsOutput))
                      (init_port
                         (Port_init
                            (roomy_jack 48000 (fun _ => JackPortIsOutput))
                            1000 1001 Client_new JackPortIsOutput))
                      c'
         = (Raised JackError
              "Only ports created by jackpatch can receive MIDI messages",
            c')).
Proof.
  apply (Port_init_existing_port_is_not_mine
           (roomy_jack 48000 (fun _ => JackPortIsOutput)) 1000 1001
           Client_new JackPortIsOutput).
  - vm_compute; discriminate.
  - vm_compute; discriminate.
Defined.

(** The loop over names that all name a port: one [Port] for each name it
    keeps, none marked as made by jackpatch, and the client as it was. *)
Lemma ports_loop_found (jack : Jack) (mine_only : bool)
      (names : list listed) (c : Client) :
  _client c <> NULL ->
  Forall (fun e => found e <> NULL) names ->
  ports_loop jack mine_only names c
  = (map (fun e => mkPort (found e) false)
         (filter (fun e => negb mine_only || server_mine e) names), c).
Proof.
  intros Hopen. induction 1 as [|e names He _ IH]; simpl; [reflexivity|].
  assert (Hopen' : _client (Client_open jack c) <> NULL)
    by now rewrite Client_open_opened.
  rewrite (Port_init_found jack (found e) (would_register e) c 0 Hopen' He).
  simpl. rewrite (Client_open_opened jack c Hopen), IH.
  apply Z.eqb_neq in He. rewrite He. simpl.
  destruct mine_only, (server_mine e); reflexivity.
Qed.

(** X13: [Client_get_ports] and [Port_get_connections], given names that
    all name a port, return one [Port] for each name, in the server's
    order ([Client_get_ports] with [mine] set keeps the names of ports the
    server attributes to this client only), and leave the ports and queues
    of the client as they are. None of the ports returned is marked as
    made by jackpatch, those of this client included: [Port_send] on any
    of them raises. *)
Theorem listed_ports_are_not_mine (jack : Jack) (c : Client)
        (mine_only : bool) (names : list listed) :
  _client (Client_open jack c) <> NULL ->
  Forall (fun e => found e <> NULL) names ->
  Client_get_ports jack c mine_only (Some names)
  = (Returned (map (fun e => mkPort (found e) false)
                   (filter (fun e => negb mine_only || server_mine e) names)),
     Client_open jack c)
  /\ Port_get_connections jack c (Some names)
     = (Returned (map (fun e => mkPort (found e) false) names),
        Client_open jack c)
  /\ (forall ps c' self malloc_ok c'' items seconds,
         Client_get_ports jack c mine_only (Some names) = (Returned ps, c') ->
         In self ps ->
         Port_send jack malloc_ok self c'' (PySequence items) seconds
         = (Raised JackError
              "Only ports created by jackpatch can send MIDI messages",
            c'')).
Proof.
  intros Hopen Hfound.
  assert (Hget : Client_get_ports jack c mine_only (Some names)
                 = (Returned
                      (map (fun e => mkPort (found e) false)
                           (filter (fun e => negb mine_only || server_mine e)
                                   names)),
                    Client_open jack c)).
  { unfold Client_get_ports. pose proof Hopen as Hopen'.
    apply Z.eqb_neq in Hopen'. rewrite Hopen'.
    now rewrite (ports_loop_found jack mine_only names _ Hopen Hfound). }
  split; [exact Hget|]. split.
  - unfold Port_get_connections. pose proof Hopen as Hopen'.
    apply Z.eqb_neq in Hopen'. rewrite Hopen'.
    rewrite (ports_loop_found jack false names _ Hopen Hfound). simpl.
    rewrite filter_all; [reflexivity|].
    rewrite Forall_forall. reflexivity.
  - intros ps c' self malloc_ok c'' items seconds H Hin.
    rewrite Hget in H. inversion H; subst.
    apply in_map_iff in Hin. destruct Hin as (e & <- & _).
    apply not_mine_cannot_send.
Qed.

Lemma listed_ports_are_not_mine_witness :
  Client_get_ports (roomy_jack 48000 (fun _ => JackPortIsOutput)) Client_new
                   true
                   (Some [mkListed 1000 true 0; mkListed 2000 false 0])
  = (Returned
       (map (fun e => mkPort (found e) false)
            (filter (fun e => negb true || server_mine e)
                    [mkListed 1000 true 0; mkListed 2000 false 0])),
     Client_open (roomy_jack 48000 (fun _ => JackPortIsOutput)) Client_new)
  /\ Port_get_connections (roomy_jack 48000 (fun _ => JackPortIsOutput))
                          Client_new
                          (Some [mkListed 1000 true 0; mkListed 2000 false 0])
     = (Returned
          (map (fun e => mkPort (found e) false)
               [mkListed 1000 true 0; mkListed 2000 false 0]),
        Client_open (roomy_jack 48000 (fun _ => JackPortIsOutput)) Client_new)
  /\ (forall ps c' self malloc_ok c'' items seconds,
         Client_get_ports (roomy_jack 48000 (fun _ => JackPortIsOutput))
                          Client_new true
                          (Some [mkListed 1000 true 0; mkListed 2000 false 0])
         = (Returned ps, c') ->
         In self ps ->
         Port_send (roomy_jack 48000 (fun _ => JackPortIsOutput)) malloc_ok
                   self c'' (PySequence items) seconds
         = (Raised JackError
              "Only ports created by jackpatch can send MIDI messages",
            c'')).
Proof.
  apply (listed_ports_are_not_mine
           (roomy_jack 48000 (fun _ => JackPortIsOutput)) Client_new true
           [mkListed 1000 true 0; mkListed 2000 false 0]).
  - vm_compute; discriminate.
  - repeat constructor; vm_compute; discriminate.
Defined.

(** ** Closing, activating and deactivating *)

Lemma set_active_same (c : Client) : set_active c (is_active c) = c.
Proof. destruct c; reflexivity. Qed.

(** X14: [Client_close] drops the handle and leaves [is_active] as it is.
    On a client that was active, [Client_deactivate] then returns without
    resetting the flag, whatever [jack_deactivate] would answer, and the
    next [Client_activate] (each [Port_send] and [Port_receive] makes one)
    only takes the handle [jack_client_open] gives: the client it leaves
    is the same whatever [jack_activate] would answer, still marked
    active. *)
Theorem closed_client_stays_marked_active (jack : Jack) (result : Z)
        (c : Client) :
  is_active c = true ->
  _client (Client_close c) = NULL
  /\ is_active (Client_close c) = true
  /\ Client_deactivate result (Client_close c) = (Returned tt, Client_close c)
  /\ Client_activate jack (Client_close c)
     = set_handle c (jack_client_open jack)
  /\ (forall jack',
         jack_client_open jack' = jack_client_open jack ->
         Client_activate jack' (Client_close c)
         = Client_activate jack (Client_close c)).
Proof.
  intros Hact.
  assert (Hclosed : _client (Client_close c) = NULL).
  { unfold Client_close. destruct (_client c =? NULL) eqn:E; [|reflexivity].
    now apply Z.eqb_eq in E. }
  assert (Hflag : is_active (Client_close c) = true).
  { unfold Client_close. destruct (_client c =? NULL); exact Hact. }
  assert (Hre : forall j, Client_activate j (Client_close c)
                          = set_handle c (jack_client_open j)).
  { intros j. unfold Client_activate, Client_open.
    rewrite Hclosed. simpl. rewrite Hflag.
    assert (E : set_handle (Client_close c) (jack_client_open j)
                = set_handle c (jack_client_open j)).
    { unfold Client_close. destruct (_client c =? NULL); reflexivity. }
    rewrite E. destruct (jack_client_open j =? NULL); reflexivity. }
  split; [exact Hclosed|]. split; [exact Hflag|]. split; [|split].
  - unfold Client_deactivate. rewrite Hclosed, Hflag. reflexivity.
  - apply Hre.
  - intros jack' Hopen. rewrite !Hre, Hopen. reflexivity.
Qed.

Lemma closed_client_stays_marked_active_witness :
  _client (Client_close (mkClient true 5 0 [] [] 0 [] [])) = NULL
  /\ is_active (Client_close (mkClient true 5 0 [] [] 0 [] [])) = true
  /\ Client_deactivate 0 (Client_close (mkClient true 5 0 [] [] 0 [] []))
     = (Returned tt, Client_close (mkClient true 5 0 [] [] 0 [] []))
  /\ Client_activate (roomy_jack 48000 (fun _ => JackPortIsOutput))
                     (Client_close (mkClient true 5 0 [] [] 0 [] []))
     = set_handle (mkClient true 5 0 [] [] 0 [] [])
                  (jack_client_open
                     (roomy_jack 48000 (fun _ => JackPortIsOutput)))
  /\ (forall jack',
         jack_client_open jack'
         = jack_client_open (roomy_jack 48000 (fun _ => JackPortIsOutput)) ->
         Client_activate jack'
                         (Client_close (mkClient true 5 0 [] [] 0 [] []))
         = Client_activate (roomy_jack 48000 (fun _ => JackPortIsOutput))
                           (Client_close (mkClient true 5 0 [] [] 0 [] []))).
Proof.
  apply (closed_client_stays_marked_active
           (roomy_jack 48000 (fun _ => JackPortIsOutput)) 0
           (mkClient true 5 0 [] [] 0 [] [])).
  reflexivity.
Defined.

(** X15: on an open client that is not active, [Client_activate] followed
    by a [Client_deactivate] that the server accepts gives the client
    back as it was, whether the activation succeeded or not; a second
    [Client_activate] changes nothing the first one left, the server
    answering the same; and a [Client_deactivate] that the server refuses
    raises and leaves the client active. *)
Theorem activate_then_deactivate_restores (jack : Jack) (c : Client) :
  _client c <> NULL ->
  is_active c = false ->
  Client_deactivate 0 (Client_activate jack c) = (Returned tt, c)
  /\ Client_activate jack (Client_activate jack c) = Client_activate jack c
  /\ (forall result,
         result <> 0 ->
         jack_activate jack = 0 ->
         Client_deactivate result (Client_activate jack c)
         = (Raised JackError "Failed to deactivate the JACK client",
            set_active c true)).
Proof.
  intros Hopen Hoff. destruct c as [a h sc sp sq rc rp rq].
  cbn [_client is_active] in Hopen, Hoff. subst a.
  apply Z.eqb_neq in Hopen.
  unfold Client_activate, Client_open, Client_deactivate.
  cbn -[Z.eqb NULL]. rewrite !Hopen.
  destruct (jack_activate jack =? 0) eqn:E;
    repeat (cbn -[Z.eqb NULL]; rewrite ?Hopen, ?E).
  - split; [reflexivity|]. split; [reflexivity|].
    intros result Hres _. apply Z.eqb_neq in Hres. now rewrite Hres.
  - split; [reflexivity|]. split; [reflexivity|].
    intros result _ Hok. rewrite Hok in E. discriminate.
Qed.

Lemma activate_then_deactivate_restores_witness :
  Client_deactivate 0
    (Client_activate (roomy_jack 48000 (fun _ => JackPortIsOutput))
                     (mkClient false 5 0 [] [] 0 [] []))
  = (Returned tt, mkClient false 5 0 [] [] 0 [] [])
  /\ Client_activate (roomy_jack 48000 (fun _ => JackPortIsOutput))
       (Client_activate (roomy_jack 48000 (fun _ => JackPortIsOutput))
                        (mkClient false 5 0 [] [] 0 [] []))
     = Client_activate (roomy_jack 48000 (fun _ => JackPortIsOutput))
                       (mkClient false 5 0 [] [] 0 [] [])
  /\ (forall result,
         result <> 0 ->
         jack_activate (roomy_jack 48000 (fun _ => JackPortIsOutput)) = 0 ->
         Client_deactivate result
           (Client_activate (roomy_jack 48000 (fun _ => JackPortIsOutput))
                            (mkClient false 5 0 [] [] 0 [] []))
         = (Raised JackError "Failed to deactivate the JACK client",
            set_active (mkClient false 5 0 [] [] 0 [] []) true)).
Proof.
  apply (activate_then_deactivate_restores
           (roomy_jack 48000 (fun _ => JackPortIsOutput))
           (mkClient false 5 0 [] [] 0 [] [])).
  - vm_compute; discriminate.
  - reflexivity.
Defined.

(** ** The transport *)

Lemma clamp_time_nonneg (value : Q) : (0 <= clamp_time value)%Q.
Proof.
  unfold clamp_time, Qlt_bool.
  destruct (Qle_bool 0 value) eqn:E; simpl.
  - now apply Qle_bool_iff.
  - apply Qle_refl.
Qed.

Lemma clamp_time_negative (value : Q) :
  (value < 0)%Q -> clamp_time value = 0%Q.
Proof.
  intros H. unfold clamp_time, Qlt_bool.
  destruct (Qle_bool 0 value) eqn:E; [|reflexivity].
  apply Qle_bool_iff in E. apply Qle_not_lt in E. contradiction.
Qed.

(** X16: setting the transport time and reading it back. For a time of
    which the product with the sample rate (a [jack_nframes_t] that is
    not [0]), rounded to a double, is less than [2 ^ 32], negative times
    counting as [0]: [Transport_set_time] asks the server for a frame less
    than one frame away from the exact product, from which
    [Transport_get_time] gives a time that differs from the time set by
    less than one sample period plus the rounding error of its division,
    at most [2 ^ -53] of the result; a negative time asks for frame
    [0]. *)
Theorem Transport_time_round_trip (jack : Jack) (c : Client) (value : Q) :
  _client (Client_open jack c) <> NULL ->
  0 < jack_get_sample_rate jack < NFRAMES_MODULUS ->
  (round_double (inject_Z (jack_get_sample_rate jack) * clamp_time value)
   < inject_Z NFRAMES_MODULUS)%Q ->
  exists f t,
    Transport_set_time jack c value = (Returned f, Client_open jack c)
    /\ Transport_get_time jack (Client_open jack c) f
       = (Returned t, Client_open jack c)
    /\ (inject_Z f - 1
        < clamp_time value * inject_Z (jack_get_sample_rate jack))%Q
    /\ (clamp_time value * inject_Z (jack_get_sample_rate jack)
        < inject_Z f + 1)%Q
    /\ (clamp_time value - 1 / inject_Z (jack_get_sample_rate jack)
        - rounding_slack f (jack_get_sample_rate jack) < t)%Q
    /\ (t < clamp_time value + 1 / inject_Z (jack_get_sample_rate jack)
            + rounding_slack f (jack_get_sample_rate jack))%Q
    /\ ((value < 0)%Q -> f = 0).
Proof.
  intros Hopen Hr Hmax.
  destruct (frames_of_product
              (clamp_time value) (jack_get_sample_rate jack)
              (inject_Z (jack_get_sample_rate jack) * clamp_time value))
    as (f & Hf & B1 & B2 & T1 & T2);
    [apply Qmult_comm | apply clamp_time_nonneg | exact Hr | exact Hmax|].
  exists f, (nframes_to_seconds f (jack_get_sample_rate jack)).
  pose proof Hopen as Hopen'. apply Z.eqb_neq in Hopen'.
  split; [|split; [|repeat split; try assumption]].
  - unfold Transport_set_time. now rewrite Hopen', Hf.
  - unfold Transport_get_time.
    rewrite (Client_open_opened jack _ Hopen). now rewrite Hopen'.
  - intros Hneg. rewrite (clamp_time_negative value Hneg) in Hf.
    rewrite (round_double_zero
               (inject_Z (jack_get_sample_rate jack) * 0)) in Hf
      by ring.
    now inversion Hf.
Qed.

Lemma Transport_time_round_trip_witness :
  exists f t,
    Transport_set_time (roomy_jack 48000 (fun _ => JackPortIsOutput))
                       Client_new (5927863009526415 # 4503599627370496)
    = (Returned f,
       Client_open (roomy_jack 48000 (fun _ => JackPortIsOutput)) Client_new)
    /\ Transport_get_time
         (roomy_jack 48000 (fun _ => JackPortIsOutput))
         (Client_open (roomy_jack 48000 (fun _ => JackPortIsOutput))
                      Client_new) f
       = (Returned t,
          Client_open (roomy_jack 48000 (fun _ => JackPortIsOutput))
                      Client_new)
    /\ (inject_Z f - 1
        < clamp_time (5927863009526415 # 4503599627370496)
          * inject_Z (jack_get_sample_rate
                        (roomy_jack 48000 (fun _ => JackPortIsOutput))))%Q
    /\ (clamp_time (5927863009526415 # 4503599627370496)
        * inject_Z (jack_get_sample_rate
                      (roomy_jack 48000 (fun _ => JackPortIsOutput)))
        < inject_Z f + 1)%Q
    /\ (clamp_time (5927863009526415 # 4503599627370496)
        - 1 / inject_Z (jack_get_sample_rate
                          (roomy_jack 48000 (fun _ => JackPortIsOutput)))
        - rounding_slack f
            (jack_get_sample_rate
               (roomy_jack 48000 (fun _ => JackPortIsOutput))) < t)%Q
    /\ (t < clamp_time (5927863009526415 # 4503599627370496)
            + 1 / inject_Z (jack_get_sample_rate
                              (roomy_jack 48000 (fun _ => JackPortIsOutput)))
            + rounding_slack f
                (jack_get_sample_rate
                   (roomy_jack 48000 (fun _ => JackPortIsOutput))))%Q
    /\ ((5927863009526415 # 4503599627370496 < 0)%Q -> f = 0).
Proof.
  apply (Transport_time_round_trip
           (roomy_jack 48000 (fun _ => JackPortIsOutput)) Client_new
           (5927863009526415 # 4503599627370496)).
  - vm_compute; discriminate.
  - simpl. unfold NFRAMES_MODULUS. lia.
  - vm_compute; reflexivity.
Defined.

(** ** From [Port_send] to the server, and from the server to
    [Port_receive] *)

Lemma Client_activate_registry (jack : Jack) (c : Client) :
  _send_port_count (Client_activate jack c) = _send_port_count c
  /\ _send_ports (Client_activate jack c) = _send_ports c
  /\ _receive_port_count (Client_activate jack c) = _receive_port_count c
  /\ _receive_ports (Client_activate jack c) = _receive_ports c.
Proof.
  unfold Client_activate, Client_open.
  destruct (_client c =? NULL); simpl;
    repeat match goal with
           | |- context [if ?b then _ else _] => destruct b; simpl
           end; auto.
Qed.


(** A message linked for a port that has nothing queued is all the port
    has queued. *)
Lemma send_queue_insert_alone (p : jack_port_t) (m : Message)
      (q : list Message) :
  port m = p ->
  on_port p q = [] ->
  on_port p (send_queue_insert m q) = [m].
Proof.
  intros Hp Hq.
  rewrite send_queue_insert_scan,
    (send_queue_scan_on_port p m q Hp 0 (dominated_without_port p q Hq 0)),
    Hq.
  reflexivity.
Qed.

(** A drain, for whatever port, leaves a port with nothing queued with
    nothing queued. *)
Lemma Client_send_messages_for_port_keeps_empty (jack : Jack) (c : Client)
      (p p' : jack_port_t) (n : Z) (buffer : option port_buffer) :
  on_port p (_midi_send_queue c) = [] ->
  on_port p (_midi_send_queue
               (fst (Client_send_messages_for_port jack c p' n buffer)))
  = [].
Proof.
  intros Hq. destruct (Z.eq_dec p p') as [<-|Hne].
  - destruct buffer as [b|]; [|exact Hq].
    rewrite Client_send_messages_for_port_loop. simpl.
    destruct (send_loop_on_port jack p n (_midi_send_queue c) [] 0 0)
      as (_ & H & _).
    rewrite H, Hq. reflexivity.
  - destruct (Client_send_messages_for_port_other jack c p p' n buffer Hne)
      as (H & _).
    rewrite H. exact Hq.
Qed.

Lemma process_send_keeps_empty (jack : Jack) (blk : Block) (p : jack_port_t)
      (ports : list jack_port_t) :
  forall c,
    on_port p (_midi_send_queue c) = [] ->
    on_port p (_midi_send_queue (fst (process_send jack blk ports c))) = [].
Proof.
  induction ports as [|p' ports IH]; intros c Hq; simpl; [exact Hq|].
  pose proof (Client_send_messages_for_port_keeps_empty
                jack c p p' (block_nframes blk) (write_buffer blk p') Hq)
    as Hstep.
  destruct (Client_send_messages_for_port jack c p' (block_nframes blk)
                                          (write_buffer blk p')) as [c1 b].
  specialize (IH c1 Hstep).
  destruct (process_send jack blk ports c1) as [c2 bs]. exact IH.
Qed.

(** The drain of a port whose only message is for this block writes that
    message at its time and leaves nothing of the port. *)
Lemma drain_single (jack : Jack) (c : Client) (p : jack_port_t) (n : Z)
      (m : Message) (b : port_buffer) :
  always_room jack ->
  port m = p ->
  time m < n ->
  on_port p (_midi_send_queue c) = [m] ->
  snd (Client_send_messages_for_port jack c p n (Some b))
  = Some [(time m, data m)]
  /\ on_port p (_midi_send_queue
                  (fst (Client_send_messages_for_port jack c p n (Some b))))
     = [].
Proof.
  intros Hroom Hp Ht Hq.
  rewrite Client_send_messages_for_port_loop. simpl fst. simpl snd.
  destruct (send_loop_on_port jack p n (_midi_send_queue c) [] 0 0)
    as (H1 & H2 & _).
  simpl _midi_send_queue. rewrite H1, H2, Hq.
  cbn [send_loop]. rewrite Hp, Z.eqb_refl.
  apply Z.ltb_lt in Ht. cbn [Z.ltb Z.compare andb]. rewrite Ht, Hroom.
  split; reflexivity.
Qed.

Lemma process_send_emits (jack : Jack) (blk : Block) (p : jack_port_t)
      (m : Message) (b : port_buffer) (ports : list jack_port_t) :
  always_room jack ->
  port m = p ->
  time m < block_nframes blk ->
  write_buffer blk p = Some b ->
  In p ports ->
  forall c,
    on_port p (_midi_send_queue c) = [m] ->
    In (p, Some [(time m, data m)]) (snd (process_send jack blk ports c))
    /\ on_port p (_midi_send_queue (fst (process_send jack blk ports c)))
       = [].
Proof.
  intros Hroom Hp Ht Hbuf.
  induction ports as [|p' ports IH]; intros Hin c Hq; [contradiction|].
  simpl. destruct (Z.eq_dec p' p) as [->|Hne].
  - rewrite Hbuf.
    destruct (drain_single jack c p (block_nframes blk) m b Hroom Hp Ht Hq)
      as [D1 D2].
    destruct (Client_send_messages_for_port jack c p (block_nframes blk)
                                            (Some b)) as [c1 b1].
    simpl in D1, D2. subst b1.
    pose proof (process_send_keeps_empty jack blk p ports c1 D2) as Hrest.
    destruct (process_send jack blk ports c1) as [c2 bs]. simpl in *.
    split; [now left | exact Hrest].
  - assert (Hin' : In p ports) by (destruct Hin; [contradiction | assumption]).
    assert (Hne' : p <> p') by congruence.
    destruct (Client_send_messages_for_port_other
                jack c p p' (block_nframes blk) (write_buffer blk p') Hne')
      as (H & _).
    destruct (Client_send_messages_for_port jack c p' (block_nframes blk)
                                            (write_buffer blk p')) as [c1 b1].
    simpl in H. rewrite <- H in Hq.
    specialize (IH Hin' c1 Hq).
    destruct (process_send jack blk ports c1) as [c2 bs]. simpl in *.
    destruct IH as [I1 I2]. split; [now right | exact I2].
Qed.

(** X17: from [Port_send] to the server. A payload of integers sent on a
    managed output port made by jackpatch, of a client that comes out of
    [Client_activate] with a handle and no exception set (it is active
    already, or its activation succeeds), for a time whose frame [t] is
    within the next block, with nothing else queued for the port: the
    call returns, and the next [Client_process] hands the server, in the
    buffer of that port, exactly one event, at offset [t], with the low
    bytes of the payload, and leaves nothing queued for the port. The
    server is taken to grant the reservation and to give a buffer for the
    port. *)
Theorem sent_message_leaves_in_next_callback (jack : Jack) (c : Client)
        (p : jack_port_t) (items : list PyItem) (seconds : Q) (t : Z)
        (bytes : list Z) (blk : Block) (b : port_buffer) :
  always_room jack ->
  Z.land (jack_port_flags jack p) JackPortIsOutput <> 0 ->
  _client (Client_activate jack c) <> NULL ->
  Client_activate_error jack c = None ->
  In p (managed_ports (_send_port_count c) (_send_ports c)) ->
  on_port p (_midi_send_queue c) = [] ->
  seconds_to_nframes seconds (jack_get_sample_rate jack) = Some t ->
  send_bytes None items = Returned bytes ->
  t < block_nframes blk ->
  write_buffer blk p = Some b ->
  fst (Port_send jack true (mkPort p true) c (PySequence items) seconds)
  = Returned tt
  /\ match Client_process jack blk
             (snd (Port_send jack true (mkPort p true) c (PySequence items)
                             seconds)) with
     | (_, c', out) =>
         In (p, Some [(t, bytes)]) out
         /\ on_port p (_midi_send_queue c') = []
     end.
Proof.
  intros Hroom Hflags Hopen Hnone Hin Hq Ht Hbytes Hnow Hbuf.
  assert (Hsend : Port_send jack true (mkPort p true) c (PySequence items)
                            seconds
                  = (Returned tt,
                     set_send_queue (Client_activate jack c)
                       (send_queue_insert (mkMessage p t bytes)
                          (_midi_send_queue (Client_activate jack c))))).
  { unfold Port_send. cbn [_is_mine _port negb].
    apply Z.eqb_neq in Hflags, Hopen.
    rewrite Hflags, Hopen, Hnone, Ht, Hbytes. reflexivity. }
  rewrite Hsend. cbn [fst snd]. split; [reflexivity|].
  destruct (Client_activate_queues jack c) as [Hsq _].
  destruct (Client_activate_registry jack c) as (R1 & R2 & _).
  rewrite Hsq.
  set (c1 := set_send_queue (Client_activate jack c)
               (send_queue_insert (mkMessage p t bytes)
                                  (_midi_send_queue c))).
  assert (Hq1 : on_port p (_midi_send_queue c1) = [mkMessage p t bytes]).
  { unfold c1. simpl _midi_send_queue.
    now apply send_queue_insert_alone. }
  assert (Hin1 : In p (managed_ports (_send_port_count c1) (_send_ports c1))).
  { unfold c1. simpl. rewrite R1, R2. exact Hin. }
  unfold Client_process.
  pose proof (process_send_emits
                jack blk p (mkMessage p t bytes) b
                (managed_ports (_send_port_count c1) (_send_ports c1))
                Hroom eq_refl Hnow Hbuf Hin1 c1 Hq1) as [E1 E2].
  destruct (process_send jack blk
              (managed_ports (_send_port_count c1) (_send_ports c1)) c1)
    as [c2 out].
  simpl in E1, E2. split; [exact E1|].
  destruct (process_receive_queue
              blk (managed_ports (_receive_port_count c2) (_receive_ports c2))
              c2) as (_ & S & _).
  rewrite S. exact E2.
Qed.

Lemma sent_message_leaves_in_next_callback_witness :
  fst (Port_send (roomy_jack 48000 (fun _ => JackPortIsOutput)) true
                 (mkPort 7 true)
                 (init_client
                    (Port_init (roomy_jack 48000 (fun _ => JackPortIsOutput))
                               NULL 7 Client_new JackPortIsOutput))
                 (PySequence [PyLong 144; PyLong 64; PyLong 127])
                 (1 # 1000))
  = Returned tt
  /\ match Client_process
             (roomy_jack 48000 (fun _ => JackPortIsOutput))
             (mkBlock 512 (fun _ => Some []) (fun _ => None) 0)
             (snd (Port_send
                     (roomy_jack 48000 (fun _ => JackPortIsOutput)) true
                     (mkPort 7 true)
                     (init_client
                        (Port_init
                           (roomy_jack 48000 (fun _ => JackPortIsOutput))
                           NULL 7 Client_new JackPortIsOutput))
                     (PySequence [PyLong 144; PyLong 64; PyLong 127])
                     (1 # 1000))) with
     | (_, c', out) =>
         In (7, Some [(48, [144; 64; 127])]) out
         /\ on_port 7 (_midi_send_queue c') = []
     end.
Proof.
  apply (sent_message_leaves_in_next_callback
           (roomy_jack 48000 (fun _ => JackPortIsOutput))
           (init_client
              (Port_init (roomy_jack 48000 (fun _ => JackPortIsOutput))
                         NULL 7 Client_new JackPortIsOutput))
           7 [PyLong 144; PyLong 64; PyLong 127] (1 # 1000) 48
           [144; 64; 127]
           (mkBlock 512 (fun _ => Some []) (fun _ => None) 0) []).
  - intros b t n; reflexivity.
  - vm_compute; discriminate.
  - vm_compute; discriminate.
  - reflexivity.
  - vm_compute. left; reflexivity.
  - reflexivity.
  - vm_compute; reflexivity.
  - vm_compute; reflexivity.
  - simpl; lia.
  - reflexivity.
Defined.






